(** * editor3d: marker-to-skeleton pipeline and animation runtime

    A shallow embedding of the client components of the editor
    (the 3D viewer, the auto-rigger modal and the skeleton replacer modal)
    and the properties their specification states about them.

    Numbers.  A JavaScript [number] is modelled as an exact rational [Q].
    A division whose divisor is computed at run time is written with
    [safe_div], which has no result when the divisor is zero (the place
    where JavaScript would produce an infinity or a NaN); a division by a
    literal constant is plain [/].  The breakpoints of the two slider
    mappings are evaluated a second time on binary64 numbers ([float]).

    Objects.  Objects that the code shares between refs (clips, actions,
    bones) live in heaps indexed by a reference; a ref of the component is
    an [option] of such a reference. *)

From Stdlib Require Import QArith Qminmax Qround Lqa PrimFloat Ascii String Sorted.
From stdpp Require Import base option list strings gmap.

#[local] Set Warnings "-inexact-float".

(** ** Numbers *)

Module Num.

Local Open Scope Q_scope.

(** [a / b] for a divisor computed at run time. *)
Definition safe_div (a b : Q) : option Q :=
  if Qeq_bool b 0 then None else Some (a / b).

(** [Math.max(lo, Math.min(hi, x))]. *)
Definition clamp (lo hi x : Q) : Q := Qmax lo (Qmin hi x).

(** [a < b], [a <= b] and [a === b] as the tests the code branches on. *)
Definition ltb (a b : Q) : bool := negb (Qle_bool b a).
Definition leb (a b : Q) : bool := Qle_bool a b.
Definition eqb (a b : Q) : bool := Qeq_bool a b.

(** The straight line through [(x0, y0)] and [(x1, y1)], evaluated at [x]:
    what "linear between the breakpoints" means. *)
Definition line_through (x0 y0 x1 y1 x : Q) : Q :=
  y0 + (y1 - y0) * ((x - x0) / (x1 - x0)).

End Num.

(** ** The slider mappings of the viewer (part_002) *)

Module Sliders.

Local Open Scope Q_scope.

(** [handleSpeedChange]: the [timeScale] computed from the 0-100 input. *)
Definition timeScale (speed : Q) : Q :=
  if Num.ltb speed 50
  then 0.1 + (speed / 50) * 0.9
  else 1.0 + ((speed - 50) / 50) * 2.0.

(** The render loop: the [enthusiasmFactor] computed from the 0-100 input. *)
Definition enthusiasmFactor (animationEnthusiasm : Q) : Q :=
  if Num.ltb animationEnthusiasm 50
  then 0.2 + (animationEnthusiasm / 50) * 0.8
  else 1.0 + ((animationEnthusiasm - 50) / 50) * 1.0.


Definition enthusiasmFactor_f64 (animationEnthusiasm : float) : float :=
  if PrimFloat.ltb animationEnthusiasm 50
  then (0.2 + (animationEnthusiasm / 50) * 0.8)%float
  else (1.0 + ((animationEnthusiasm - 50) / 50) * 1.0)%float.

End Sliders.

(** ** three.js: the part of the library the components call

    The library is not part of the repository.  Its operations are written
    out from its documented behaviour; the transcendental functions and the
    general case of [slerp] are parameters ([Math]). *)

Module Three.

Local Open Scope Q_scope.

Record Math := {
  Math_sqrt : Q -> Q;
  Math_sin : Q -> Q;
  Math_cos : Q -> Q;
  Math_acos : Q -> Q;
  (** [Quaternion.slerp] for an interpolation parameter other than 0 and 1. *)
  slerp_general : Q * Q * Q * Q -> Q * Q * Q * Q -> Q -> Q * Q * Q * Q
}.

(** [Math.sqrt] and [Math.acos] yield NaN outside their domains. *)
Definition sqrt_checked (M : Math) (a : Q) : option Q :=
  if Num.leb 0 a then Some (Math_sqrt M a) else None.

Definition acos_checked (M : Math) (a : Q) : option Q :=
  if Num.leb (-1) a && Num.leb a 1 then Some (Math_acos M a) else None.

(** *** Vector3 *)

Record Vector3 := { vx : Q; vy : Q; vz : Q }.

Definition v3_zero : Vector3 := {| vx := 0; vy := 0; vz := 0 |}.

Definition v3_sub (a b : Vector3) : Vector3 :=
  {| vx := vx a - vx b; vy := vy a - vy b; vz := vz a - vz b |}.

Definition v3_add (a b : Vector3) : Vector3 :=
  {| vx := vx a + vx b; vy := vy a + vy b; vz := vz a + vz b |}.

Definition v3_multiplyScalar (a : Vector3) (s : Q) : Vector3 :=
  {| vx := vx a * s; vy := vy a * s; vz := vz a * s |}.

Definition v3_multiply (a b : Vector3) : Vector3 :=
  {| vx := vx a * vx b; vy := vy a * vy b; vz := vz a * vz b |}.

Definition v3_dot (a b : Vector3) : Q :=
  vx a * vx b + vy a * vy b + vz a * vz b.

(** [this.x = v1.x + (v2.x - v1.x) * alpha], and so on. *)
Definition v3_lerpVectors (v1 v2 : Vector3) (alpha : Q) : Vector3 :=
  {| vx := vx v1 + (vx v2 - vx v1) * alpha;
     vy := vy v1 + (vy v2 - vy v1) * alpha;
     vz := vz v1 + (vz v2 - vz v1) * alpha |}.

(** Two vectors denote the same point. *)
Definition v3_eq (a b : Vector3) : Prop :=
  vx a == vx b /\ vy a == vy b /\ vz a == vz b.

(** *** Quaternion *)

Record Quaternion := { qx : Q; qy : Q; qz : Q; qw : Q }.

Definition q_identity : Quaternion := {| qx := 0; qy := 0; qz := 0; qw := 1 |}.

(** [invert] is the conjugate: the library assumes unit length. *)
Definition q_invert (a : Quaternion) : Quaternion :=
  {| qx := - qx a; qy := - qy a; qz := - qz a; qw := qw a |}.

(** [a.multiply(b)]. *)
Definition q_multiply (a b : Quaternion) : Quaternion :=
  {| qx := qx a * qw b + qw a * qx b + qy a * qz b - qz a * qy b;
     qy := qy a * qw b + qw a * qy b + qz a * qx b - qx a * qz b;
     qz := qz a * qw b + qw a * qz b + qx a * qy b - qy a * qx b;
     qw := qw a * qw b - qx a * qx b - qy a * qy b - qz a * qz b |}.

Definition q_lengthSq (a : Quaternion) : Q :=
  qx a * qx a + qy a * qy a + qz a * qz a + qw a * qw a.

(** [normalize]: a quaternion of length zero becomes the identity, any
    other is scaled by [1 / length]. *)
Definition q_normalize (M : Math) (a : Quaternion) : option Quaternion :=
  l ← sqrt_checked M (q_lengthSq a);
  if Num.eqb l 0 then Some q_identity
  else
    l' ← Num.safe_div 1 l;
    Some {| qx := qx a * l'; qy := qy a * l'; qz := qz a * l'; qw := qw a * l' |}.

Definition q_setFromAxisAngle (M : Math) (axis : Vector3) (angle : Q) : Quaternion :=
  let halfAngle := angle / 2 in
  let s := Math_sin M halfAngle in
  {| qx := vx axis * s; qy := vy axis * s; qz := vz axis * s;
     qw := Math_cos M halfAngle |}.

Definition q_tuple (a : Quaternion) : Q * Q * Q * Q := (qx a, qy a, qz a, qw a).

Definition q_of_tuple (t : Q * Q * Q * Q) : Quaternion :=
  let '(a, b, c, d) := t in {| qx := a; qy := b; qz := c; qw := d |}.

(** [this.copy(qa).slerp(qb, t)]: [slerp] returns [this] when [t === 0]
    and a copy of [qb] when [t === 1]. *)
Definition q_slerpQuaternions (M : Math) (qa qb : Quaternion) (t : Q) : Quaternion :=
  if Num.eqb t 0 then qa
  else if Num.eqb t 1 then qb
  else q_of_tuple (slerp_general M (q_tuple qa) (q_tuple qb) t).

Definition q_eq (a b : Quaternion) : Prop :=
  qx a == qx b /\ qy a == qy b /\ qz a == qz b /\ qw a == qw b.

(** *** Object3D

    A node of the scene graph, kept in an arena: [parent] and [children]
    hold indices of the arena. *)

Record Object3D := {
  name : string;
  isBone : bool;
  position : Vector3;
  quaternion : Quaternion;
  parent : option nat;
  children : list nat
}.

(** [new THREE.Bone()]. *)
Definition new_Bone : Object3D :=
  {| name := ""; isBone := true; position := v3_zero; quaternion := q_identity;
     parent := None; children := [] |}.

Definition set_name (n : string) (o : Object3D) : Object3D :=
  {| name := n; isBone := isBone o; position := position o;
     quaternion := quaternion o; parent := parent o; children := children o |}.

Definition set_position (p : Vector3) (o : Object3D) : Object3D :=
  {| name := name o; isBone := isBone o; position := p;
     quaternion := quaternion o; parent := parent o; children := children o |}.

Definition set_quaternion (q : Quaternion) (o : Object3D) : Object3D :=
  {| name := name o; isBone := isBone o; position := position o;
     quaternion := q; parent := parent o; children := children o |}.

Definition set_parent (p : option nat) (o : Object3D) : Object3D :=
  {| name := name o; isBone := isBone o; position := position o;
     quaternion := quaternion o; parent := p; children := children o |}.

Definition set_children (c : list nat) (o : Object3D) : Object3D :=
  {| name := name o; isBone := isBone o; position := position o;
     quaternion := quaternion o; parent := parent o; children := c |}.

Abbreviation Arena := (list Object3D).

(** [p.remove(c)] on the arena: [c] leaves the children of [p] and has no
    parent any more. *)
Definition arena_remove (p c : nat) (a : Arena) : Arena :=
  alter (set_parent None) c
    (alter (fun o => set_children (filter (fun k => k <> c) (children o)) o) p a).

(** [p.add(c)]: nothing when [c] is [p] itself; otherwise [c] is first
    removed from the parent it has, then appended to the children of [p]. *)
Definition arena_add (p c : nat) (a : Arena) : Arena :=
  if decide (p = c) then a
  else
    let a1 := match a !! c ≫= parent with
              | Some old => arena_remove old c a
              | None => a
              end in
    alter (fun o => set_children (children o ++ [c]) o) p
      (alter (set_parent (Some p)) c a1).

(** [root.traverse(f)] visits [root] and then its descendants, each child
    subtree in order; the traversal is cut at [fuel] levels. *)
Fixpoint traverse (fuel : nat) (a : Arena) (root : nat) : list nat :=
  match fuel with
  | O => []
  | S fuel' =>
      root :: match a !! root with
              | Some o => flat_map (traverse fuel' a) (children o)
              | None => []
              end
  end.

End Three.

(** *** Ray, Plane and Box3 *)

Module Geometry.

Import Three.
Local Open Scope Q_scope.

Record Ray := { origin : Vector3; direction : Vector3 }.

Record Plane := { normal : Vector3; constant : Q }.

(** [plane.setFromNormalAndCoplanarPoint(normal, point)]. *)
Definition setFromNormalAndCoplanarPoint (n point : Vector3) : Plane :=
  {| normal := n; constant := - v3_dot point n |}.

Definition distanceToPoint (p : Plane) (point : Vector3) : Q :=
  v3_dot (normal p) point + constant p.

(** [ray.distanceToPlane(plane)]: [null] when the ray is parallel to the
    plane and off it, or when the plane lies behind the ray. *)
Definition distanceToPlane (r : Ray) (p : Plane) : option Q :=
  let denominator := v3_dot (normal p) (direction r) in
  if Num.eqb denominator 0 then
    if Num.eqb (distanceToPoint p (origin r)) 0 then Some 0 else None
  else
    t ← Num.safe_div (- (v3_dot (origin r) (normal p) + constant p)) denominator;
    if Num.leb 0 t then Some t else None.

(** [ray.at(t, target)]. *)
Definition at_ (r : Ray) (t : Q) : Vector3 :=
  v3_add (origin r) (v3_multiplyScalar (direction r) t).

(** [ray.intersectPlane(plane, target)]: the value returned, and the
    contents of [target] after the call.  When there is no intersection the
    call returns [null] and leaves [target] as it was. *)
Definition intersectPlane (r : Ray) (p : Plane) (target : Vector3)
  : option Vector3 * Vector3 :=
  match distanceToPlane r p with
  | None => (None, target)
  | Some t => (Some (at_ r t), at_ r t)
  end.

(** An entry of the list [raycaster.intersectObject] returns; the library
    sorts the list by distance, nearest first. *)
Record Intersection := { distance : Q; point : Vector3 }.

Fixpoint Qmin_list (a : Q) (l : list Q) : Q :=
  match l with
  | [] => a
  | b :: l' => Qmin_list (Qmin a b) l'
  end.

Fixpoint Qmax_list (a : Q) (l : list Q) : Q :=
  match l with
  | [] => a
  | b :: l' => Qmax_list (Qmax a b) l'
  end.

(** A box is empty ([None]) or has a least and a greatest corner. *)
Definition Box3 := option (Vector3 * Vector3).

Definition box_of_points (l : list Vector3) : Box3 :=
  match l with
  | [] => None
  | p :: l' =>
      Some ({| vx := Qmin_list (vx p) (vx <$> l');
               vy := Qmin_list (vy p) (vy <$> l');
               vz := Qmin_list (vz p) (vz <$> l') |},
            {| vx := Qmax_list (vx p) (vx <$> l');
               vy := Qmax_list (vy p) (vy <$> l');
               vz := Qmax_list (vz p) (vz <$> l') |})
  end.

(** [box.getSize] and [box.getCenter] yield the zero vector for an empty box. *)
Definition getSize (b : Box3) : Vector3 :=
  match b with
  | None => v3_zero
  | Some (mn, mx) => v3_sub mx mn
  end.

Definition getCenter (b : Box3) : Vector3 :=
  match b with
  | None => v3_zero
  | Some (mn, mx) => v3_multiplyScalar (v3_add mn mx) 0.5
  end.

(** [box.min]; the empty box has no finite least corner. *)
Definition box_min (b : Box3) : option Vector3 := fst <$> b.

(** A loaded model as the loaders hand it over: the transform of its root
    object and the corners of the geometry below it, in the root's frame. *)
Record Model := {
  m_position : Vector3;
  m_scale : Vector3;
  m_points : list Vector3
}.

(** A corner in world space: scaled by the root's scale, moved by its
    position. *)
Definition localToWorld (o : Model) (p : Vector3) : Vector3 :=
  v3_add (m_position o) (v3_multiply (m_scale o) p).

Definition worldPoints (o : Model) : list Vector3 := localToWorld o <$> m_points o.

(** [new THREE.Box3().setFromObject(object)]. *)
Definition setFromObject (o : Model) : Box3 := box_of_points (worldPoints o).

Definition max3 (a b c : Q) : Q := Qmax (Qmax a b) c.

(** [Math.max(size.x, size.y, size.z)] for the box of a model. *)
Definition maxDim (o : Model) : Q :=
  let size := getSize (setFromObject o) in
  max3 (vx size) (vy size) (vz size).

(** The output guarantee of the normalization: the box of the model,
    computed anew, has its least Y at the grid level -2 and its centre at
    X = 0 and Z = 0. *)
Definition on_grid_and_centred (o : Model) : Prop :=
  exists mn mx,
    setFromObject o = Some (mn, mx) /\
    vy mn == -2 /\
    vx (getCenter (Some (mn, mx))) == 0 /\
    vz (getCenter (Some (mn, mx))) == 0.

End Geometry.

(** ** Notifications shown to the user ([toast]) *)

Record Toast := {
  title : string;
  description : string;
  destructive : bool
}.

(** ** The auto-rigger modal (auto-rigger-modal.tsx) *)

Module AutoRigger.

Import Three Geometry.
Local Open Scope Q_scope.

Record RigMarker := {
  id : string;
  label : string;
  marker_position : Vector3;
  placed : bool
}.

(** The ids of the [markers] state, in the order the component declares
    them.  Every update of the state is a [map] that keeps ids and order. *)
Definition MARKER_IDS : list string :=
  ["chin"; "neckBase"; "leftShoulder"; "rightShoulder"; "leftElbow";
   "rightElbow"; "leftWrist"; "rightWrist"; "groin"; "leftKnee";
   "rightKnee"; "leftAnkle"; "rightAnkle"].

(** The initial value of the [markers] state. *)
Definition initialMarkers : list RigMarker :=
  [ {| id := "chin"; label := "Barbilla";
       marker_position := {| vx := 0; vy := 0.5; vz := 0.3 |}; placed := false |};
    {| id := "neckBase"; label := "Base del Cuello";
       marker_position := {| vx := 0; vy := 0.3; vz := 0.2 |}; placed := false |};
    {| id := "leftShoulder"; label := "Hombro Izquierdo";
       marker_position := {| vx := -0.5; vy := 0.3; vz := 0.1 |}; placed := false |};
    {| id := "rightShoulder"; label := "Hombro Derecho";
       marker_position := {| vx := 0.5; vy := 0.3; vz := 0.1 |}; placed := false |};
    {| id := "leftElbow"; label := "Codo Izquierdo";
       marker_position := {| vx := -0.7; vy := 0; vz := 0.2 |}; placed := false |};
    {| id := "rightElbow"; label := "Codo Derecho";
       marker_position := {| vx := 0.7; vy := 0; vz := 0.2 |}; placed := false |};
    {| id := "leftWrist"; label := "Muñeca Izquierda";
       marker_position := {| vx := -0.8; vy := -0.5; vz := 0.2 |}; placed := false |};
    {| id := "rightWrist"; label := "Muñeca Derecha";
       marker_position := {| vx := 0.8; vy := -0.5; vz := 0.2 |}; placed := false |};
    {| id := "groin"; label := "Ingle";
       marker_position := {| vx := 0; vy := -0.7; vz := 0.15 |}; placed := false |};
    {| id := "leftKnee"; label := "Rodilla Izquierda";
       marker_position := {| vx := -0.2; vy := -1.2; vz := 0.2 |}; placed := false |};
    {| id := "rightKnee"; label := "Rodilla Derecha";
       marker_position := {| vx := 0.2; vy := -1.2; vz := 0.2 |}; placed := false |};
    {| id := "leftAnkle"; label := "Tobillo Izquierdo";
       marker_position := {| vx := -0.2; vy := -1.9; vz := 0.1 |}; placed := false |};
    {| id := "rightAnkle"; label := "Tobillo Derecho";
       marker_position := {| vx := 0.2; vy := -1.9; vz := 0.1 |}; placed := false |} ].

(** [markers.findIndex(m => m.id === markerId)]: -1 when there is none. *)
Fixpoint findIndex (markerId : string) (ms : list RigMarker) : Z :=
  match ms with
  | [] => (-1)%Z
  | m :: ms' =>
      if String.eqb (id m) markerId then 0%Z
      else match findIndex markerId ms' with
           | Zneg _ => (-1)%Z
           | i => (i + 1)%Z
           end
  end.

(** [handleMarkerClick]: the marker is placed at its staging position. *)
Definition handleMarkerClick (markerId : string) (ms : list RigMarker) : list RigMarker :=
  let markerIndex := findIndex markerId ms in
  let offsetY := inject_Z markerIndex * 0.3 in
  let initialPosition := {| vx := -2.5; vy := 1.5 - offsetY; vz := 0 |} in
  (fun m => if String.eqb (id m) markerId
            then {| id := id m; label := label m;
                    marker_position := initialPosition; placed := true |}
            else m) <$> ms.

(** [markers.every(m => m.placed)]. *)
Definition allMarkersPlaced (ms : list RigMarker) : bool := forallb placed ms.

(** [c.toUpperCase()] on a character of an identifier. *)
Definition toUpperCase (c : ascii) : ascii :=
  let n := nat_of_ascii c in
  if (97 <=? n)%nat && (n <=? 122)%nat then ascii_of_nat (n - 32) else c.

(** [`mixamorig${id.charAt(0).toUpperCase() + id.slice(1)}`]. *)
Definition boneName (markerId : string) : string :=
  "mixamorig" +:+
  match markerId with
  | EmptyString => EmptyString
  | String c rest => String (toUpperCase c) rest
  end.

(** [markers.find(m => m.id === markerId)]. *)
Definition findMarker (markers : list RigMarker) (markerId : string) : option RigMarker :=
  List.find (fun m => String.eqb (id m) markerId) markers.

Definition getMarkerPosition (markers : list RigMarker) (markerId : string) : option Vector3 :=
  match findMarker markers markerId with
  | Some marker => if placed marker then Some (marker_position marker) else None
  | None => None
  end.

(** The fixed table (parent -> children). *)
Definition hierarchy : list (string * list string) :=
  [("groin", ["neckBase"; "leftKnee"; "rightKnee"]);
   ("neckBase", ["chin"; "leftShoulder"; "rightShoulder"]);
   ("leftShoulder", ["leftElbow"]);
   ("leftElbow", ["leftWrist"]);
   ("rightShoulder", ["rightElbow"]);
   ("rightElbow", ["rightWrist"]);
   ("leftKnee", ["leftAnkle"]);
   ("rightKnee", ["rightAnkle"])].

(** The (parent, child) pairs of the table. *)
Definition hierarchy_pairs : list (string * string) :=
  flat_map (fun '(p, cs) => (fun c => (p, c)) <$> cs) hierarchy.

(** The bones a synthesis creates, and the one it returns. *)
Record Skeleton := { bones : Arena; root : nat }.

(** [Map<string, Bone>]: the entries in insertion order, the bones as
    indices of the arena.  [set] replaces the value of a key that is
    present and appends a new key. *)
Abbreviation BoneMap := (list (string * nat)).

Fixpoint map_set (k : string) (v : nat) (m : BoneMap) : BoneMap :=
  match m with
  | [] => [(k, v)]
  | (k', v') :: m' =>
      if String.eqb k' k then (k', v) :: m' else (k', v') :: map_set k v m'
  end.

Definition map_get (m : BoneMap) (k : string) : option nat :=
  snd <$> List.find (fun kv => String.eqb (fst kv) k) m.

(** First loop of [createBoneHierarchy]: one bone per placed marker, entered
    in [boneMap] under the marker's id. *)
Definition createBones (markers : list RigMarker) : Arena * BoneMap :=
  foldl (fun '(a, boneMap) marker =>
           if placed marker
           then (a ++ [set_name (boneName (id marker)) new_Bone],
                 map_set (id marker) (length a) boneMap)
           else (a, boneMap))
        ([], []) markers.

(** Body of the inner [forEach]: one child of one table row. *)
Definition attachChild (markers : list RigMarker) (boneMap : BoneMap)
    (parentBone : nat) (parentPos : Vector3) (a : Arena) (childId : string) : Arena :=
  match map_get boneMap childId, getMarkerPosition markers childId with
  | Some childBone, Some childPos =>
      let relativePos := v3_sub childPos parentPos in
      arena_add parentBone childBone (alter (set_position relativePos) childBone a)
  | _, _ => a
  end.

(** Body of the outer [forEach]: one row of the table. *)
Definition attachChildren (markers : list RigMarker) (boneMap : BoneMap)
    (a : Arena) (row : string * list string) : Arena :=
  let '(parentId, childrenIds) := row in
  match map_get boneMap parentId, getMarkerPosition markers parentId with
  | Some parentBone, Some parentPos =>
      foldl (attachChild markers boneMap parentBone parentPos) a childrenIds
  | _, _ => a
  end.

(** [createBoneHierarchy]: [None] is the [null] it returns without a groin
    bone. *)
Definition createBoneHierarchy (markers : list RigMarker) : option Skeleton :=
  let '(a, boneMap) := createBones markers in
  let a := foldl (attachChildren markers boneMap) a hierarchy in
  match map_get boneMap "groin" with
  | None => None
  | Some rootBone =>
      let a := match getMarkerPosition markers "groin" with
               | Some groinPos => alter (set_position groinPos) rootBone a
               | None => a
               end in
      Some {| bones := a; root := rootBone |}
  end.

(** The joint a marker gave rise to: the first bone that carries the
    marker's bone name, with its index in the arena. *)
Definition jointOf (sk : Skeleton) (markerId : string) : option (nat * Object3D) :=
  list_find (fun o => name o = boneName markerId) (bones sk).

(** The bones form a single tree under [root sk]: the root has no parent,
    every other bone has a parent that lists it as a child, every child
    listed names its parent, and the traversal from the root meets every
    bone exactly once. *)
Definition single_tree (sk : Skeleton) : Prop :=
  let a := bones sk in
  (exists r, a !! root sk = Some r /\ parent r = None) /\
  (forall i o, a !! i = Some o -> i <> root sk ->
     exists p po, parent o = Some p /\ a !! p = Some po /\ i ∈ children po) /\
  (forall p po c, a !! p = Some po -> c ∈ children po ->
     exists oc, a !! c = Some oc /\ parent oc = Some p) /\
  NoDup (traverse (length a) a (root sk)) /\
  (forall i, (i < length a)%nat -> i ∈ traverse (length a) a (root sk)).

(** [bone.getWorldPosition]: bones carry no rotation and no scale, so the
    world position is the sum of the stored positions up to the root. *)
Fixpoint getWorldPosition (fuel : nat) (a : Arena) (i : nat) : Vector3 :=
  match fuel, a !! i with
  | S fuel', Some o =>
      match parent o with
      | Some p => v3_add (getWorldPosition fuel' a p) (position o)
      | None => position o
      end
  | _, _ => v3_zero
  end.

(** The line segments [renderSkeletonVisualization] draws: one per bone
    whose parent is a bone, from the parent's world position to its own. *)
Definition skeletonLines (sk : Skeleton) : list (Vector3 * Vector3) :=
  let a := bones sk in
  let n := length a in
  omap (fun i =>
          o ← a !! i;
          p ← parent o;
          po ← a !! p;
          if isBone o && isBone po
          then Some (getWorldPosition n a p, getWorldPosition n a i)
          else None)
       (traverse n a (root sk)).

(** What the scene holds: the loaded model, the groups of the viewport and
    the root bones of synthesized hierarchies (by their place in the heap). *)
Inductive SceneChild :=
  | CharacterMesh
  | MarkersGroup
  | SkeletonGroup
  | BoneRoot (r : nat).

#[export] Instance SceneChild_eq_dec : EqDecision SceneChild.
Proof. solve_decision. Defined.

Record Rigger := {
  markers : list RigMarker;
  sceneRef : option (list SceneChild);
  skeletonRef : option (list (Vector3 * Vector3));
  bonesGroupRef : option nat;
  (** heap of the hierarchies synthesized so far *)
  skeletons : list Skeleton;
  bonesGenerated : bool;
  cameraRef : bool;
  characterMeshRef : bool;
  draggedMarkerRef : option string;
  cursor : string;
  toasts : list Toast
}.

Definition toast (t : Toast) (s : Rigger) : Rigger :=
  {| markers := markers s; sceneRef := sceneRef s; skeletonRef := skeletonRef s;
     bonesGroupRef := bonesGroupRef s; skeletons := skeletons s;
     bonesGenerated := bonesGenerated s; cameraRef := cameraRef s;
     characterMeshRef := characterMeshRef s;
     draggedMarkerRef := draggedMarkerRef s; cursor := cursor s;
     toasts := toasts s ++ [t] |}.

Definition missingRootToast : Toast :=
  {| title := "Error";
     description := "No se pudo crear la jerarquía de huesos";
     destructive := true |}.

Definition bonesGeneratedToast : Toast :=
  {| title := "Huesos Generados";
     description := "La estructura de huesos ha sido creada";
     destructive := false |}.

(** [handleGenerateBones]. *)
Definition handleGenerateBones (s : Rigger) : Rigger :=
  match skeletonRef s, sceneRef s with
  | Some _, Some scene =>
      match createBoneHierarchy (markers s) with
      | None => toast missingRootToast s
      | Some sk =>
          let scene := match bonesGroupRef s with
                       | Some old => filter (fun c => c <> BoneRoot old) scene
                       | None => scene
                       end in
          let rootBone := length (skeletons s) in
          toast bonesGeneratedToast
            {| markers := markers s;
               sceneRef := Some (scene ++ [BoneRoot rootBone]);
               skeletonRef := Some (skeletonLines sk);
               bonesGroupRef := Some rootBone;
               skeletons := skeletons s ++ [sk];
               bonesGenerated := true;
               cameraRef := cameraRef s;
               characterMeshRef := characterMeshRef s;
               draggedMarkerRef := draggedMarkerRef s;
               cursor := cursor s;
               toasts := toasts s |}
      end
  | _, _ => s
  end.

(** The loops of [updateBonesFromMarkers] on the hierarchy under
    [bonesGroupRef]: the root takes the groin marker's position, and every
    bone that carries the name of a table child takes the child marker's
    position relative to the parent marker's. *)
Definition updateBone (boneName : string) (relativePos : Vector3) (a : Arena) (i : nat)
  : Arena :=
  match a !! i with
  | Some child =>
      if isBone child && String.eqb (name child) boneName
      then alter (set_position relativePos) i a
      else a
  | None => a
  end.

Definition updateChild (markers : list RigMarker) (rootBone : nat) (parentPos : Vector3)
    (a : Arena) (childId : string) : Arena :=
  match getMarkerPosition markers childId with
  | Some childPos =>
      let relativePos := v3_sub childPos parentPos in
      foldl (updateBone (boneName childId) relativePos) a
            (traverse (length a) a rootBone)
  | None => a
  end.

Definition updateBones (markers : list RigMarker) (sk : Skeleton) : Skeleton :=
  let a := match getMarkerPosition markers "groin" with
           | Some groinPos => alter (set_position groinPos) (root sk) (bones sk)
           | None => bones sk
           end in
  {| bones :=
       foldl (fun a '(parentId, childrenIds) =>
                match getMarkerPosition markers parentId with
                | Some parentPos =>
                    foldl (updateChild markers (root sk) parentPos) a childrenIds
                | None => a
                end)
             a hierarchy;
     root := root sk |}.

(** [updateBonesFromMarkers]: the hierarchy is changed where it lies in the
    heap, and the line segments are drawn anew. *)
Definition updateBonesFromMarkers (s : Rigger) : Rigger :=
  match bonesGroupRef s, skeletonRef s with
  | Some r, Some _ =>
      match skeletons s !! r with
      | Some sk =>
          let sk := updateBones (markers s) sk in
          {| markers := markers s; sceneRef := sceneRef s;
             skeletonRef := Some (skeletonLines sk);
             bonesGroupRef := bonesGroupRef s;
             skeletons := <[r := sk]> (skeletons s);
             bonesGenerated := bonesGenerated s; cameraRef := cameraRef s;
             characterMeshRef := characterMeshRef s;
             draggedMarkerRef := draggedMarkerRef s; cursor := cursor s;
             toasts := toasts s |}
      | None => s
      end
  | _, _ => s
  end.

(** What identifies a bone and places it in the tree. *)
Definition identity (o : Object3D) : string * bool * option nat * list nat :=
  (name o, isBone o, parent o, children o).

Definition set_markers (ms : list RigMarker) (c : string) (s : Rigger) : Rigger :=
  {| markers := ms; sceneRef := sceneRef s; skeletonRef := skeletonRef s;
     bonesGroupRef := bonesGroupRef s; skeletons := skeletons s;
     bonesGenerated := bonesGenerated s; cameraRef := cameraRef s;
     characterMeshRef := characterMeshRef s;
     draggedMarkerRef := draggedMarkerRef s; cursor := c;
     toasts := toasts s |}.

(** What the pointer event, the camera and the raycaster supply to
    [handleMouseMove]: the ray through the pointer, the camera's view
    direction, and the hits on the model and on the marker meshes. *)
Record PointerMove := {
  ray : Ray;
  cameraDirection : Vector3;
  modelIntersects : list Intersection;
  markerIntersects : list Intersection
}.

(** [prev.map(m => m.id === dragged ? { ...m, position: p } : m)]. *)
Definition moveMarker (dragged : string) (p : Vector3) (ms : list RigMarker)
  : list RigMarker :=
  (fun m => if String.eqb (id m) dragged
            then {| id := id m; label := label m; marker_position := p;
                    placed := placed m |}
            else m) <$> ms.

(** [if (intersection)] on a [Vector3]: an object is truthy whatever it
    holds. *)
Definition truthy (v : Vector3) : bool := true.

(** The position the dragged marker is given, if any. *)
Definition newPosition (ev : PointerMove) (ms : list RigMarker) (dragged : string)
  : option Vector3 :=
  match modelIntersects ev with
  | hit :: _ => Some (point hit)
  | [] =>
      match findMarker ms dragged with
      | None => None
      | Some currentMarker =>
          let markerPosition := marker_position currentMarker in
          let plane := setFromNormalAndCoplanarPoint (cameraDirection ev) markerPosition in
          (* intersection = new Vector3(); ray.intersectPlane(plane, intersection) *)
          let intersection := snd (intersectPlane (ray ev) plane v3_zero) in
          if truthy intersection then Some intersection else None
      end
  end.

(** [handleMouseMove]. *)
Definition handleMouseMove (ev : PointerMove) (s : Rigger) : Rigger :=
  if negb (cameraRef s) || negb (characterMeshRef s) then s
  else
    match draggedMarkerRef s with
    | Some dragged =>
        match newPosition ev (markers s) dragged with
        | Some p => set_markers (moveMarker dragged p (markers s)) "grabbing" s
        | None => s
        end
    | None =>
        set_markers (markers s)
          (match markerIntersects ev, modelIntersects ev with
           | _ :: _, _ => "grab"
           | [], _ :: _ => "crosshair"
           | [], [] => "default"
           end) s
    end.

(** [onLoad]: scale the model to the target size and put it on the grid. *)
Definition onLoad_normalize (object : Model) : option Model :=
  let box := setFromObject object in
  let size := getSize box in
  let center := getCenter box in
  let maxDim := max3 (vx size) (vy size) (vz size) in
  let targetSize := 3 in
  scale ← Num.safe_div targetSize maxDim;
  min ← box_min box;
  let gridY := -2 in
  let scaledMin := v3_multiplyScalar min scale in
  let scaledCenter := v3_multiplyScalar center scale in
  Some {| m_position := {| vx := - vx scaledCenter;
                           vy := gridY - vy scaledMin;
                           vz := - vz scaledCenter |};
          (* object.scale.setScalar(scale) *)
          m_scale := {| vx := scale; vy := scale; vz := scale |};
          m_points := m_points object |}.

End AutoRigger.

(** ** The 3D viewer (part_002): animation playback *)

Module Viewer.

Import Three Geometry.
Local Open Scope Q_scope.

(** [s.includes(sub)]. *)
Fixpoint includes (sub s : string) : bool :=
  String.prefix sub s ||
  match s with
  | EmptyString => false
  | String _ rest => includes sub rest
  end.

(** [s.startsWith(p)]. *)
Definition startsWith (p s : string) : bool := String.prefix p s.

Record KeyframeTrack := {
  track_name : string;
  track_times : list Q;
  track_values : list Q
}.

Record AnimationClip := {
  clip_name : string;
  clip_duration : Q;
  clip_tracks : list KeyframeTrack
}.

(** [THREE.AnimationAction]: the clip it plays (a reference into the heap
    of clips) and the fields the component reads and writes. *)
Record AnimationAction := {
  action_clip : nat;
  time : Q;
  timeScale : Q;
  paused : bool;
  enabled : bool;
  (** scheduled in its mixer: between [play()] and [stop()] *)
  running : bool
}.

(** [THREE.AnimationMixer]: its cache of actions, by clip. *)
Record AnimationMixer := { actionsByClip : gmap nat nat }.

Definition new_AnimationMixer : AnimationMixer := {| actionsByClip := ∅ |}.

Definition new_AnimationAction (clip : nat) : AnimationAction :=
  {| action_clip := clip; time := 0; timeScale := 1; paused := false;
     enabled := true; running := false |}.

(** [action.reset()]: [paused = false], [enabled = true], [time = 0]. *)
Definition reset (a : AnimationAction) : AnimationAction :=
  {| action_clip := action_clip a; time := 0; timeScale := timeScale a;
     paused := false; enabled := true; running := running a |}.

(** [action.play()] and [action.stop()]; [stop] deactivates and resets. *)
Definition play (a : AnimationAction) : AnimationAction :=
  {| action_clip := action_clip a; time := time a; timeScale := timeScale a;
     paused := paused a; enabled := enabled a; running := true |}.

Definition stop (a : AnimationAction) : AnimationAction :=
  reset {| action_clip := action_clip a; time := time a;
           timeScale := timeScale a; paused := paused a;
           enabled := enabled a; running := false |}.

Definition set_time (t : Q) (a : AnimationAction) : AnimationAction :=
  {| action_clip := action_clip a; time := t; timeScale := timeScale a;
     paused := paused a; enabled := enabled a; running := running a |}.

Definition set_timeScale (k : Q) (a : AnimationAction) : AnimationAction :=
  {| action_clip := action_clip a; time := time a; timeScale := k;
     paused := paused a; enabled := enabled a; running := running a |}.

Definition set_paused (b : bool) (a : AnimationAction) : AnimationAction :=
  {| action_clip := action_clip a; time := time a; timeScale := timeScale a;
     paused := b; enabled := enabled a; running := running a |}.

(** The refs and state variables of the component that playback uses. *)
Record Playback := {
  (** heap of clip objects *)
  clips : list AnimationClip;
  (** heap of action objects *)
  actions : list AnimationAction;
  animationMixerRef : option AnimationMixer;
  animationActionRef : option nat;
  originalAnimationClipRef : option nat;
  (** the name of the bone [rootBoneRef] points to *)
  rootBoneRef : option string;
  isAnimationPlaying : bool;
  inPlace : bool;
  animationSpeed : Q;
  currentFrame : Z;
  totalFrames : Z;
  animationDuration : Q;
  toasts : list Toast
}.

Definition set_clips (v : list AnimationClip) (p : Playback) : Playback :=
  {| clips := v; actions := actions p; animationMixerRef := animationMixerRef p;
     animationActionRef := animationActionRef p;
     originalAnimationClipRef := originalAnimationClipRef p;
     rootBoneRef := rootBoneRef p; isAnimationPlaying := isAnimationPlaying p;
     inPlace := inPlace p; animationSpeed := animationSpeed p;
     currentFrame := currentFrame p; totalFrames := totalFrames p;
     animationDuration := animationDuration p; toasts := toasts p |}.

Definition set_actions (v : list AnimationAction) (p : Playback) : Playback :=
  {| clips := clips p; actions := v; animationMixerRef := animationMixerRef p;
     animationActionRef := animationActionRef p;
     originalAnimationClipRef := originalAnimationClipRef p;
     rootBoneRef := rootBoneRef p; isAnimationPlaying := isAnimationPlaying p;
     inPlace := inPlace p; animationSpeed := animationSpeed p;
     currentFrame := currentFrame p; totalFrames := totalFrames p;
     animationDuration := animationDuration p; toasts := toasts p |}.

Definition set_animationMixerRef (v : option AnimationMixer) (p : Playback) : Playback :=
  {| clips := clips p; actions := actions p; animationMixerRef := v;
     animationActionRef := animationActionRef p;
     originalAnimationClipRef := originalAnimationClipRef p;
     rootBoneRef := rootBoneRef p; isAnimationPlaying := isAnimationPlaying p;
     inPlace := inPlace p; animationSpeed := animationSpeed p;
     currentFrame := currentFrame p; totalFrames := totalFrames p;
     animationDuration := animationDuration p; toasts := toasts p |}.

Definition set_animationActionRef (v : option nat) (p : Playback) : Playback :=
  {| clips := clips p; actions := actions p; animationMixerRef := animationMixerRef p;
     animationActionRef := v;
     originalAnimationClipRef := originalAnimationClipRef p;
     rootBoneRef := rootBoneRef p; isAnimationPlaying := isAnimationPlaying p;
     inPlace := inPlace p; animationSpeed := animationSpeed p;
     currentFrame := currentFrame p; totalFrames := totalFrames p;
     animationDuration := animationDuration p; toasts := toasts p |}.

Definition set_originalAnimationClipRef (v : option nat) (p : Playback) : Playback :=
  {| clips := clips p; actions := actions p; animationMixerRef := animationMixerRef p;
     animationActionRef := animationActionRef p;
     originalAnimationClipRef := v;
     rootBoneRef := rootBoneRef p; isAnimationPlaying := isAnimationPlaying p;
     inPlace := inPlace p; animationSpeed := animationSpeed p;
     currentFrame := currentFrame p; totalFrames := totalFrames p;
     animationDuration := animationDuration p; toasts := toasts p |}.

Definition set_isAnimationPlaying (v : bool) (p : Playback) : Playback :=
  {| clips := clips p; actions := actions p; animationMixerRef := animationMixerRef p;
     animationActionRef := animationActionRef p;
     originalAnimationClipRef := originalAnimationClipRef p;
     rootBoneRef := rootBoneRef p; isAnimationPlaying := v;
     inPlace := inPlace p; animationSpeed := animationSpeed p;
     currentFrame := currentFrame p; totalFrames := totalFrames p;
     animationDuration := animationDuration p; toasts := toasts p |}.

Definition set_inPlace (v : bool) (p : Playback) : Playback :=
  {| clips := clips p; actions := actions p; animationMixerRef := animationMixerRef p;
     animationActionRef := animationActionRef p;
     originalAnimationClipRef := originalAnimationClipRef p;
     rootBoneRef := rootBoneRef p; isAnimationPlaying := isAnimationPlaying p;
     inPlace := v; animationSpeed := animationSpeed p;
     currentFrame := currentFrame p; totalFrames := totalFrames p;
     animationDuration := animationDuration p; toasts := toasts p |}.

Definition set_animationSpeed (v : Q) (p : Playback) : Playback :=
  {| clips := clips p; actions := actions p; animationMixerRef := animationMixerRef p;
     animationActionRef := animationActionRef p;
     originalAnimationClipRef := originalAnimationClipRef p;
     rootBoneRef := rootBoneRef p; isAnimationPlaying := isAnimationPlaying p;
     inPlace := inPlace p; animationSpeed := v;
     currentFrame := currentFrame p; totalFrames := totalFrames p;
     animationDuration := animationDuration p; toasts := toasts p |}.

Definition set_frames (cur total : Z) (d : Q) (p : Playback) : Playback :=
  {| clips := clips p; actions := actions p; animationMixerRef := animationMixerRef p;
     animationActionRef := animationActionRef p;
     originalAnimationClipRef := originalAnimationClipRef p;
     rootBoneRef := rootBoneRef p; isAnimationPlaying := isAnimationPlaying p;
     inPlace := inPlace p; animationSpeed := animationSpeed p;
     currentFrame := cur; totalFrames := total;
     animationDuration := d; toasts := toasts p |}.

Definition toast (t : Toast) (p : Playback) : Playback :=
  {| clips := clips p; actions := actions p; animationMixerRef := animationMixerRef p;
     animationActionRef := animationActionRef p;
     originalAnimationClipRef := originalAnimationClipRef p;
     rootBoneRef := rootBoneRef p; isAnimationPlaying := isAnimationPlaying p;
     inPlace := inPlace p; animationSpeed := animationSpeed p;
     currentFrame := currentFrame p; totalFrames := totalFrames p;
     animationDuration := animationDuration p; toasts := toasts p ++ [t] |}.

(** The action [animationActionRef] points to. *)
Definition currentAction (p : Playback) : option AnimationAction :=
  a ← animationActionRef p; actions p !! a.

(** [mixer.clipAction(clip)]: the action the mixer caches for the clip, or
    a new one that it enters in the cache.  Yields the reference. *)
Definition clipAction (clip : nat) (p : Playback) : Playback * nat :=
  match animationMixerRef p with
  | Some mixer =>
      match actionsByClip mixer !! clip with
      | Some a => (p, a)
      | None =>
          let a := length (actions p) in
          (set_animationMixerRef
             (Some {| actionsByClip := <[clip := a]> (actionsByClip mixer) |})
             (set_actions (actions p ++ [new_AnimationAction clip]) p),
           a)
      end
  | None =>
      let a := length (actions p) in
      (set_actions (actions p ++ [new_AnimationAction clip]) p, a)
  end.

(** [mixer.uncacheClip(clip)]. *)
Definition uncacheClip (clip : nat) (p : Playback) : Playback :=
  match animationMixerRef p with
  | Some mixer =>
      set_animationMixerRef
        (Some {| actionsByClip := delete clip (actionsByClip mixer) |}) p
  | None => p
  end.

(** [handleToggleAnimation]. *)
Definition handleToggleAnimation (p : Playback) : Playback :=
  match animationActionRef p with
  | None => p
  | Some a =>
      if isAnimationPlaying p
      then set_isAnimationPlaying false
             (set_actions (alter (set_paused true) a (actions p)) p)
      else set_isAnimationPlaying true
             (set_actions (alter (set_paused false) a (actions p)) p)
  end.

(** [handleSpeedChange]. *)
Definition handleSpeedChange (speed : Q) (p : Playback) : Playback :=
  let p := set_animationSpeed speed p in
  match animationActionRef p with
  | None => p
  | Some a =>
      set_actions (alter (set_timeScale (Sliders.timeScale speed)) a (actions p)) p
  end.

(** [createInPlaceClip]: without a root bone the original clip itself;
    otherwise a new clip object that holds the tracks of the original
    except the position tracks of the root bone. *)
Definition isRootPositionTrack (rootBoneName : string) (track : KeyframeTrack) : bool :=
  includes rootBoneName (track_name track) && includes ".position" (track_name track).

Definition createInPlaceClip (originalClip : nat) (p : Playback) : Playback * nat :=
  match rootBoneRef p, clips p !! originalClip with
  | Some rootBoneName, Some c =>
      let filteredTracks :=
        List.filter (fun track => negb (isRootPositionTrack rootBoneName track))
                    (clip_tracks c) in
      let inPlaceClip := {| clip_name := clip_name c +:+ "_inPlace";
                            clip_duration := clip_duration c;
                            clip_tracks := filteredTracks |} in
      (set_clips (clips p ++ [inPlaceClip]) p, length (clips p))
  | _, _ => (p, originalClip)
  end.

(** The effect that runs when [inPlace] has changed. *)
Definition inPlaceEffect (p : Playback) : Playback :=
  match animationMixerRef p, originalAnimationClipRef p with
  | Some _, Some originalClip =>
      match animationActionRef p, currentAction p with
      | Some a, Some act =>
          let currentTime := time act in
          let wasPlaying := isAnimationPlaying p in
          let p := set_actions (alter stop a (actions p)) p in
          let p := uncacheClip (action_clip act) p in
          let p := set_animationActionRef None p in
          let '(p, clipToUse) :=
            if inPlace p then createInPlaceClip originalClip p
            else (p, originalClip) in
          let '(p, newAction) := clipAction clipToUse p in
          let configure (n : AnimationAction) :=
            let n := play (set_time currentTime (reset n)) in
            if wasPlaying then n else set_paused true n in
          let p := set_actions (alter configure newAction (actions p)) p in
          set_animationActionRef (Some newAction) p
      | _, _ => p
      end
  | _, _ => p
  end.

(** [handleInPlaceChange]: the state changes, and the effect above runs
    when the new value differs from the old one. *)
Definition handleInPlaceChange (enabled : bool) (p : Playback) : Playback :=
  if bool_decide (inPlace p = enabled) then p
  else inPlaceEffect (set_inPlace enabled p).

Definition noAnimationsToast : Toast :=
  {| title := "Sin animaciones";
     description := "El archivo no contiene animaciones válidas";
     destructive := true |}.

Definition incompatibleToast : Toast :=
  {| title := "Animación incompatible";
     description := "Esta animación no es compatible con el modelo actual. Use solo animaciones compatibles.";
     destructive := true |}.

Definition loadedToast (clipName : string) : Toast :=
  {| title := "Animación cargada";
     description := "Reproduciendo: " +:+ clipName;
     destructive := false |}.

(** The notice of [onError], the load failure. *)
Definition loadFailureToast : Toast :=
  {| title := "Error";
     description := "No se pudo cargar la animación";
     destructive := true |}.

(** [clip.tracks.some(track => track.name.startsWith('mixamorig'))]. *)
Definition hasMixamoTracks (clip : AnimationClip) : bool :=
  existsb (fun track => startsWith "mixamorig" (track_name track)) (clip_tracks clip).

(** [onAnimationLoad], applied to the [animations] of the loaded file. *)
Definition onAnimationLoad (animations : list AnimationClip) (p : Playback) : Playback :=
  match animations with
  | [] => toast noAnimationsToast p
  | clip :: _ =>
      let p := set_animationMixerRef (Some new_AnimationMixer) p in
      if negb (hasMixamoTracks clip) then toast incompatibleToast p
      else
        let clipRef := length (clips p) in
        let p := set_originalAnimationClipRef (Some clipRef)
                   (set_clips (clips p ++ [clip]) p) in
        let '(p, clipToUse) :=
          if inPlace p then createInPlaceClip clipRef p else (p, clipRef) in
        let '(p, action) := clipAction clipToUse p in
        let p := set_actions (alter (fun n => play (reset n)) action (actions p)) p in
        let p := set_animationActionRef (Some action) p in
        let fps := 30 in
        let duration := clip_duration clip in
        let frames := Qfloor (duration * fps) in
        let p := set_isAnimationPlaying true (set_frames 0 frames duration p) in
        toast (loadedToast (clip_name clip)) p
  end.

(** [onError] of the animation loader. *)
Definition onAnimationError (p : Playback) : Playback := toast loadFailureToast p.

(** What happens to the playback state between two renders. *)
Inductive Event :=
  | InPlaceChange (enabled : bool)
  | ToggleAnimation
  | SpeedChange (speed : Q)
  (** a frame: the mixer has moved the running action to time [t] *)
  | Frame (t : Q).

Definition frame (t : Q) (p : Playback) : Playback :=
  match animationActionRef p, currentAction p with
  | Some a, Some act =>
      if paused act then p
      else set_actions (alter (set_time t) a (actions p)) p
  | _, _ => p
  end.

Definition step (p : Playback) (e : Event) : Playback :=
  match e with
  | InPlaceChange enabled => handleInPlaceChange enabled p
  | ToggleAnimation => handleToggleAnimation p
  | SpeedChange speed => handleSpeedChange speed p
  | Frame t => frame t p
  end.

Definition run (p : Playback) (es : list Event) : Playback := foldl step p es.

(** What holds of the playback state while the clip [clip], stored at [c],
    is loaded: the refs point into the heaps, the current action is
    scheduled, its pause flag mirrors [isAnimationPlaying], and the mixer
    caches no action but the current one. *)
Definition loaded (c : nat) (clip : AnimationClip) (p : Playback) : Prop :=
  originalAnimationClipRef p = Some c /\
  clips p !! c = Some clip /\
  exists m a act,
    animationMixerRef p = Some m /\
    animationActionRef p = Some a /\
    actions p !! a = Some act /\
    paused act = negb (isAnimationPlaying p) /\
    running act = true /\
    (action_clip act < length (clips p))%nat /\
    (forall k a', actionsByClip m !! k = Some a' -> k = action_clip act).

(** The clip an in-place toggle makes the action play. *)
Definition clipInUse (c : nat) (clip : AnimationClip) (p : Playback)
    (act : AnimationAction) : Prop :=
  match inPlace p, rootBoneRef p with
  | true, Some rootBoneName =>
      clips p !! action_clip act
      = Some {| clip_name := clip_name clip +:+ "_inPlace";
                clip_duration := clip_duration clip;
                clip_tracks :=
                  List.filter (fun t => negb (isRootPositionTrack rootBoneName t))
                              (clip_tracks clip) |}
  | _, _ => action_clip act = c
  end.

End Viewer.

(** ** The 3D viewer (part_002): the enthusiasm block of the render loop *)

Module ViewerPose.

Import Three.
Local Open Scope Q_scope.

(** An entry of [neutralPoseRef]: the pose captured when the model loaded. *)
Record NeutralData := { neutral_position : Vector3; neutral_rotation : Quaternion }.

(** The branch for [enthusiasmFactor > 1.0], rotation part: the delta
    between neutral and animated rotation as axis and angle, the angle
    scaled by the factor.  [None] stands for a NaN or an infinity in the
    result. *)
Definition extrapolateRotation (M : Math) (neutral currentRotation : Quaternion)
    (enthusiasmFactor : Q) : option Quaternion :=
  deltaQ ← q_normalize M (q_multiply (q_invert neutral) currentRotation);
  halfAngle ← acos_checked M (Num.clamp (-1) 1 (qw deltaQ));
  let sinHalfAngle := Math_sin M halfAngle in
  if Num.ltb 0.0001 sinHalfAngle then
    ax ← Num.safe_div (qx deltaQ) sinHalfAngle;
    ay ← Num.safe_div (qy deltaQ) sinHalfAngle;
    az ← Num.safe_div (qz deltaQ) sinHalfAngle;
    let axis := {| vx := ax; vy := ay; vz := az |} in
    let scaledAngle := 2 * halfAngle * enthusiasmFactor in
    let deltaScaled := q_setFromAxisAngle M axis scaledAngle in
    Some (q_multiply neutral deltaScaled)
  else Some neutral.

(** The branch for [enthusiasmFactor > 1.0], position part. *)
Definition extrapolatePosition (neutral currentPosition : Vector3)
    (enthusiasmFactor : Q) : Vector3 :=
  let delta := v3_sub currentPosition neutral in
  v3_add neutral (v3_multiplyScalar delta enthusiasmFactor).

(** What the block does to one bone that has a bone as parent and an entry
    in [neutralPoseRef]. *)
Definition blendBone (M : Math) (enthusiasmFactor : Q) (neutralData : NeutralData)
    (bone : Object3D) : option Object3D :=
  let currentRotation := quaternion bone in
  let currentPosition := position bone in
  if Num.leb enthusiasmFactor 1.0 then
    Some (set_position
            (v3_lerpVectors (neutral_position neutralData) currentPosition enthusiasmFactor)
            (set_quaternion
               (q_slerpQuaternions M (neutral_rotation neutralData) currentRotation
                  enthusiasmFactor)
               bone))
  else
    q ← extrapolateRotation M (neutral_rotation neutralData) currentRotation
          enthusiasmFactor;
    Some (set_position
            (extrapolatePosition (neutral_position neutralData) currentPosition
               enthusiasmFactor)
            (set_quaternion q bone)).

(** [bone.parent && bone.parent.isBone]. *)
Definition hasBoneParent (a : Arena) (bone : Object3D) : bool :=
  match parent bone ≫= (a !!.) with
  | Some p => isBone p
  | None => false
  end.

(** The callback of [traverse], for the node at index [i]. *)
Definition enthusiasmVisit (M : Math) (enthusiasmFactor : Q)
    (neutralPoseRef : gmap nat NeutralData) (a : Arena) (i : nat) (child : Object3D)
  : option Object3D :=
  if isBone child then
    match neutralPoseRef !! i with
    | None => Some child
    | Some neutralData =>
        if hasBoneParent a child
        then blendBone M enthusiasmFactor neutralData child
        else Some child
    end
  else Some child.

(** The block: skipped at input 50 and without a captured pose; otherwise
    every node of the model is visited.  Each visit reads and writes the
    visited node alone. *)
Definition enthusiasmBlock (M : Math) (animationEnthusiasm : Q)
    (neutralPoseRef : gmap nat NeutralData) (a : Arena) : option Arena :=
  if negb (Num.eqb animationEnthusiasm 50) && bool_decide (0 < size neutralPoseRef)%nat
  then
    let enthusiasmFactor := Sliders.enthusiasmFactor animationEnthusiasm in
    mapM (fun '(i, child) => enthusiasmVisit M enthusiasmFactor neutralPoseRef a i child)
         (imap pair a)
  else Some a.

End ViewerPose.

(** ** Model loading: request ids and normalization *)

(** [url.toLowerCase()] and the suffix of a url from its last dot on. *)
Module Url.

Definition toLowerCase_ascii (c : ascii) : ascii :=
  let n := nat_of_ascii c in
  if (65 <=? n)%nat && (n <=? 90)%nat then ascii_of_nat (n + 32) else c.

Fixpoint toLowerCase (s : string) : string :=
  match s with
  | EmptyString => EmptyString
  | String c rest => String (toLowerCase_ascii c) (toLowerCase rest)
  end.

Fixpoint fromLastDot (s : string) : option string :=
  match s with
  | EmptyString => None
  | String c rest =>
      match fromLastDot rest with
      | Some t => Some t
      | None => if Ascii.eqb c "."%char then Some s else None
      end
  end.

(** [url.toLowerCase().substring(url.lastIndexOf('.'))]: the whole string
    when there is no dot. *)
Definition extension (url : string) : string :=
  let l := toLowerCase url in
  match fromLastDot l with
  | Some t => t
  | None => l
  end.

(** A string in a condition: the empty string counts as false. *)
Definition truthy (url : string) : bool := negb (String.eqb url "").

(** The formats for which a loader is started. *)
Definition loadable (url : string) : bool :=
  let e := extension url in
  String.eqb e ".fbx" || String.eqb e ".gltf" || String.eqb e ".glb"
  || String.eqb e ".obj".

End Url.

(** What a scene holds: an object a loader delivered (named by a handle the
    loader chose) or a placeholder the component built itself. *)
Inductive SceneObject :=
  | Loaded (handle : nat)
  | Placeholder (serial : nat).

#[export] Instance SceneObject_eq_dec : EqDecision SceneObject.
Proof. solve_decision. Defined.

(** *** The viewer (part_002) *)

Module ViewerLoad.

Import Three Geometry.
Local Open Scope Q_scope.

Record Loader := {
  sceneRef : option (list SceneObject);
  meshRef : option SceneObject;
  loadRequestIdRef : nat;
  hasWebGL : bool;
  isRendererReady : bool;
  (** objects whose geometries and materials have been disposed *)
  disposed : list SceneObject;
  (** placeholders built so far *)
  placeholders : nat;
  (** calls of [onModelLoaded] and [onModelLoadError] *)
  modelLoaded : nat;
  modelLoadError : nat
}.

(** [loadPlaceholder]. *)
Definition loadPlaceholder (s : Loader) : Loader :=
  match sceneRef s with
  | None => s
  | Some scene =>
      let mesh := Placeholder (placeholders s) in
      {| sceneRef := Some (scene ++ [mesh]); meshRef := Some mesh;
         loadRequestIdRef := loadRequestIdRef s; hasWebGL := hasWebGL s;
         isRendererReady := isRendererReady s; disposed := disposed s;
         placeholders := S (placeholders s); modelLoaded := modelLoaded s;
         modelLoadError := modelLoadError s |}
  end.

(** [cleanupObject(obj)]. *)
Definition cleanupObject (obj : SceneObject) (s : Loader) : Loader :=
  {| sceneRef := sceneRef s; meshRef := meshRef s;
     loadRequestIdRef := loadRequestIdRef s; hasWebGL := hasWebGL s;
     isRendererReady := isRendererReady s; disposed := disposed s ++ [obj];
     placeholders := placeholders s; modelLoaded := modelLoaded s;
     modelLoadError := modelLoadError s |}.

(** The effect on [modelUrl]: the part that runs at once.  A loader, when
    one is started, calls [onLoad] or [onError] later with the request id
    the effect read here. *)
Definition modelEffect (modelUrl : option string) (s : Loader) : Loader :=
  match sceneRef s with
  | Some scene =>
      if negb (hasWebGL s) || negb (isRendererReady s) then s
      else
        let s := match meshRef s with
                 | Some mesh =>
                     let s := cleanupObject mesh s in
                     {| sceneRef := Some (filter (fun c => c <> mesh) scene);
                        meshRef := None;
                        loadRequestIdRef := loadRequestIdRef s;
                        hasWebGL := hasWebGL s;
                        isRendererReady := isRendererReady s;
                        disposed := disposed s;
                        placeholders := placeholders s;
                        modelLoaded := modelLoaded s;
                        modelLoadError := modelLoadError s |}
                 | None => s
                 end in
        (* const requestId = ++loadRequestIdRef.current *)
        let s := {| sceneRef := sceneRef s; meshRef := meshRef s;
                    loadRequestIdRef := S (loadRequestIdRef s);
                    hasWebGL := hasWebGL s;
                    isRendererReady := isRendererReady s;
                    disposed := disposed s; placeholders := placeholders s;
                    modelLoaded := modelLoaded s;
                    modelLoadError := modelLoadError s |} in
        match modelUrl with
        | Some url =>
            if Url.truthy url && Url.loadable url then s else loadPlaceholder s
        | None => loadPlaceholder s
        end
  | None => s
  end.

(** [onLoad], for the request [requestId] and the object delivered. *)
Definition onLoad (requestId : nat) (object : nat) (s : Loader) : Loader :=
  if bool_decide (requestId <> loadRequestIdRef s)
  then cleanupObject (Loaded object) s
  else
    match sceneRef s with
    | None => s
    | Some scene =>
        {| sceneRef := Some (scene ++ [Loaded object]);
           meshRef := Some (Loaded object);
           loadRequestIdRef := loadRequestIdRef s; hasWebGL := hasWebGL s;
           isRendererReady := isRendererReady s; disposed := disposed s;
           placeholders := placeholders s; modelLoaded := S (modelLoaded s);
           modelLoadError := modelLoadError s |}
    end.

(** [onError], for the request [requestId]. *)
Definition onError (requestId : nat) (s : Loader) : Loader :=
  if bool_decide (requestId <> loadRequestIdRef s) then s
  else
    let s := loadPlaceholder s in
    {| sceneRef := sceneRef s; meshRef := meshRef s;
       loadRequestIdRef := loadRequestIdRef s; hasWebGL := hasWebGL s;
       isRendererReady := isRendererReady s; disposed := disposed s;
       placeholders := placeholders s; modelLoaded := modelLoaded s;
       modelLoadError := S (modelLoadError s) |}.

Inductive Event :=
  | ModelEffect (modelUrl : option string)
  | OnLoad (requestId : nat) (object : nat)
  | OnError (requestId : nat).

Definition step (s : Loader) (e : Event) : Loader :=
  match e with
  | ModelEffect modelUrl => modelEffect modelUrl s
  | OnLoad requestId object => onLoad requestId object s
  | OnError requestId => onError requestId s
  end.

Definition run (s : Loader) (es : list Event) : Loader := foldl step s es.

(** The object is among the children of the scene, or is the current mesh. *)
Definition inScene (obj : SceneObject) (s : Loader) : Prop :=
  (exists scene, sceneRef s = Some scene /\ obj ∈ scene) \/ meshRef s = Some obj.

(** The effect gets past its guard, so that it issues a request id. *)
Definition issues (s : Loader) : Prop :=
  is_Some (sceneRef s) /\ hasWebGL s = true /\ isRendererReady s = true.

(** [onLoad], the normalization: scale to a largest dimension of 4 and put
    the model on the grid. *)
Definition onLoad_normalize (object : Model) : option Model :=
  let box := setFromObject object in
  let center := getCenter box in
  let size := getSize box in
  let maxDim := max3 (vx size) (vy size) (vz size) in
  scale ← Num.safe_div 4 maxDim;
  min ← box_min box;
  let gridY := -2 in
  let scaledMin := v3_multiplyScalar min scale in
  let scaledCenter := v3_multiplyScalar center scale in
  Some {| m_position := {| vx := - vx scaledCenter;
                           vy := gridY - vy scaledMin;
                           vz := - vz scaledCenter |};
          (* object.scale.multiplyScalar(scale) *)
          m_scale := v3_multiplyScalar (m_scale object) scale;
          m_points := m_points object |}.

End ViewerLoad.

(** *** The skeleton replacer modal (skeleton-replacer-modal.tsx) *)

Module Replacer.

Record Loader := {
  isOpen : bool;
  sceneRef : option (list SceneObject);
  cameraRef : bool;
  controlsRef : bool;
  characterMeshRef : option SceneObject;
  loadRequestIdRef : nat;
  isRendererReady : bool;
  isLoading : bool;
  disposed : list SceneObject;
  toasts : list Toast
}.

Definition loadedToast : Toast :=
  {| title := "Modelo cargado";
     description := "El modelo se ha cargado correctamente";
     destructive := false |}.

Definition errorToast : Toast :=
  {| title := "Error";
     description := "No se pudo cargar el modelo";
     destructive := true |}.

Definition set_isLoading (b : bool) (s : Loader) : Loader :=
  {| isOpen := isOpen s; sceneRef := sceneRef s; cameraRef := cameraRef s;
     controlsRef := controlsRef s; characterMeshRef := characterMeshRef s;
     loadRequestIdRef := loadRequestIdRef s;
     isRendererReady := isRendererReady s; isLoading := b;
     disposed := disposed s; toasts := toasts s |}.

(** The [finally] of [loadModel]. *)
Definition finally (requestId : nat) (s : Loader) : Loader :=
  if bool_decide (requestId = loadRequestIdRef s) then set_isLoading false s else s.

(** [loadModel] from the point where the object is at hand ([None]: the
    format has no loader and [object] is still [null]). *)
Definition loadModel_resume (requestId : nat) (object : option nat) (s : Loader) : Loader :=
  if bool_decide (requestId <> loadRequestIdRef s) then
    finally requestId
      match object with
      | Some o =>
          {| isOpen := isOpen s; sceneRef := sceneRef s; cameraRef := cameraRef s;
             controlsRef := controlsRef s; characterMeshRef := characterMeshRef s;
             loadRequestIdRef := loadRequestIdRef s;
             isRendererReady := isRendererReady s; isLoading := isLoading s;
             disposed := disposed s ++ [Loaded o]; toasts := toasts s |}
      | None => s
      end
  else
    finally requestId
      match sceneRef s, object with
      | Some scene, Some o =>
          let scene := match characterMeshRef s with
                       | Some old => filter (fun c => c <> old) scene
                       | None => scene
                       end in
          if cameraRef s && controlsRef s then
            {| isOpen := isOpen s; sceneRef := Some (scene ++ [Loaded o]);
               cameraRef := cameraRef s; controlsRef := controlsRef s;
               characterMeshRef := Some (Loaded o);
               loadRequestIdRef := loadRequestIdRef s;
               isRendererReady := isRendererReady s; isLoading := isLoading s;
               disposed := disposed s; toasts := toasts s ++ [loadedToast] |}
          else
            {| isOpen := isOpen s; sceneRef := Some scene;
               cameraRef := cameraRef s; controlsRef := controlsRef s;
               characterMeshRef := characterMeshRef s;
               loadRequestIdRef := loadRequestIdRef s;
               isRendererReady := isRendererReady s; isLoading := isLoading s;
               disposed := disposed s; toasts := toasts s |}
      | _, _ => s
      end.

(** The [catch] of [loadModel]. *)
Definition loadModel_catch (requestId : nat) (s : Loader) : Loader :=
  finally requestId
    (if bool_decide (requestId = loadRequestIdRef s) && bool_decide (is_Some (sceneRef s))
     then {| isOpen := isOpen s; sceneRef := sceneRef s; cameraRef := cameraRef s;
             controlsRef := controlsRef s; characterMeshRef := characterMeshRef s;
             loadRequestIdRef := loadRequestIdRef s;
             isRendererReady := isRendererReady s; isLoading := isLoading s;
             disposed := disposed s; toasts := toasts s ++ [errorToast] |}
     else s).

(** The formats [loadModel] has a loader for: [url.split('.').pop()]
    lower-cased. *)
Definition loadable (url : string) : bool :=
  let fileExtension :=
    Url.toLowerCase match Url.fromLastDot url with
                    | Some (String _ e) => e
                    | _ => url
                    end in
  String.eqb fileExtension "fbx" || String.eqb fileExtension "gltf"
  || String.eqb fileExtension "glb" || String.eqb fileExtension "obj".

(** The effect on [modelUrl] with the part of [loadModel] that runs before
    its first [await]. *)
Definition modelEffect (modelUrl : option string) (s : Loader) : Loader :=
  match modelUrl, sceneRef s with
  | Some url, Some _ =>
      if negb (isOpen s) || negb (Url.truthy url) || negb (isRendererReady s) then s
      else
        let requestId := S (loadRequestIdRef s) in
        let s := {| isOpen := isOpen s; sceneRef := sceneRef s;
                    cameraRef := cameraRef s; controlsRef := controlsRef s;
                    characterMeshRef := characterMeshRef s;
                    loadRequestIdRef := requestId;
                    isRendererReady := isRendererReady s; isLoading := true;
                    disposed := disposed s; toasts := toasts s |} in
        if loadable url then s else loadModel_resume requestId None s
  | _, _ => s
  end.

Inductive Event :=
  | ModelEffect (modelUrl : option string)
  | Resolved (requestId : nat) (object : nat)
  | Rejected (requestId : nat).

Definition step (s : Loader) (e : Event) : Loader :=
  match e with
  | ModelEffect modelUrl => modelEffect modelUrl s
  | Resolved requestId object => loadModel_resume requestId (Some object) s
  | Rejected requestId => loadModel_catch requestId s
  end.

Definition run (s : Loader) (es : list Event) : Loader := foldl step s es.

Definition inScene (obj : SceneObject) (s : Loader) : Prop :=
  (exists scene, sceneRef s = Some scene /\ obj ∈ scene) \/ characterMeshRef s = Some obj.

Definition issues (modelUrl : option string) (s : Loader) : Prop :=
  (exists url, modelUrl = Some url /\ Url.truthy url = true) /\
  is_Some (sceneRef s) /\ isOpen s = true /\ isRendererReady s = true.

End Replacer.

(** *** Request-id fencing, for both components *)

(** A component that loads models under request ids: its state and events,
    the request id last issued, what its scene shows, what it has
    disposed, the event that issues a request for a url and the event that
    delivers the object of a request. *)
Record LoadingComponent := {
  lc_state : Type;
  lc_event : Type;
  lc_step : lc_state -> lc_event -> lc_state;
  lc_requestId : lc_state -> nat;
  lc_inScene : SceneObject -> lc_state -> Prop;
  lc_disposed : lc_state -> list SceneObject;
  lc_issue : option string -> lc_event;
  lc_issues : option string -> lc_state -> Prop;
  lc_deliver : nat -> nat -> lc_event
}.

Definition viewerLoading : LoadingComponent :=
  {| lc_step := ViewerLoad.step;
     lc_requestId := ViewerLoad.loadRequestIdRef;
     lc_inScene := ViewerLoad.inScene;
     lc_disposed := ViewerLoad.disposed;
     lc_issue := ViewerLoad.ModelEffect;
     lc_issues := fun _ s => ViewerLoad.issues s;
     lc_deliver := ViewerLoad.OnLoad |}.

Definition replacerLoading : LoadingComponent :=
  {| lc_step := Replacer.step;
     lc_requestId := Replacer.loadRequestIdRef;
     lc_inScene := Replacer.inScene;
     lc_disposed := Replacer.disposed;
     lc_issue := Replacer.ModelEffect;
     lc_issues := Replacer.issues;
     lc_deliver := Replacer.Resolved |}.

Definition lc_run (C : LoadingComponent) (s : lc_state C) (es : list (lc_event C))
  : lc_state C := foldl (lc_step C) s es.

(** Request A is issued, then request B while A is in flight, then
    A's object [o] arrives: the arrival changes nothing the scene shows and
    disposes [o], and [o] is not shown at any later time either (as long as
    no loader delivers the same object a second time). *)
Definition superseded_never_shown (C : LoadingComponent) : Prop :=
  forall (s0 : lc_state C) urlA between urlB later o after,
    lc_issues C urlA s0 ->
    let sA := lc_step C s0 (lc_issue C urlA) in
    let a := lc_requestId C sA in
    let s1 := lc_run C sA between in
    lc_issues C urlB s1 ->
    let s2 := lc_run C (lc_step C s1 (lc_issue C urlB)) later in
    ~ lc_inScene C (Loaded o) s2 ->
    Forall (fun e => forall r, e <> lc_deliver C r o) after ->
    let s3 := lc_step C s2 (lc_deliver C a o) in
    (forall x, lc_inScene C x s3 <-> lc_inScene C x s2) /\
    Loaded o ∈ lc_disposed C s3 /\
    ~ lc_inScene C (Loaded o) (lc_run C s3 after) /\
    Loaded o ∈ lc_disposed C (lc_run C s3 after).

(** An object that enters the scene on delivery belongs to the request
    issued last. *)
Definition latest_only (C : LoadingComponent) : Prop :=
  forall (s : lc_state C) r o,
    ~ lc_inScene C (Loaded o) s ->
    lc_inScene C (Loaded o) (lc_step C s (lc_deliver C r o)) ->
    r = lc_requestId C s.

(** ** Sample inputs *)

Module Samples.

Import Three Geometry.
Local Open Scope Q_scope.

(** Every marker clicked once, in the order of the list: all 13 placed at
    their staging positions. *)
Definition stagedMarkers : list AutoRigger.RigMarker :=
  foldl (fun ms markerId => AutoRigger.handleMarkerClick markerId ms)
        AutoRigger.initialMarkers AutoRigger.MARKER_IDS.

(** A viewport that shows a hierarchy synthesized earlier (number 0 of the
    heap) while the groin marker is not placed. *)
Definition groinUnplaced : AutoRigger.Rigger :=
  {| AutoRigger.markers :=
       (fun m => if String.eqb (AutoRigger.id m) "groin"
                 then {| AutoRigger.id := AutoRigger.id m;
                         AutoRigger.label := AutoRigger.label m;
                         AutoRigger.marker_position := AutoRigger.marker_position m;
                         AutoRigger.placed := false |}
                 else m) <$> stagedMarkers;
     AutoRigger.sceneRef :=
       Some [AutoRigger.CharacterMesh; AutoRigger.MarkersGroup;
             AutoRigger.SkeletonGroup; AutoRigger.BoneRoot 0];
     AutoRigger.skeletonRef := Some [];
     AutoRigger.bonesGroupRef := Some 0%nat;
     AutoRigger.skeletons :=
       [ {| AutoRigger.bones := [set_name "mixamorigGroin" new_Bone];
            AutoRigger.root := 0%nat |} ];
     AutoRigger.bonesGenerated := true;
     AutoRigger.cameraRef := true;
     AutoRigger.characterMeshRef := true;
     AutoRigger.draggedMarkerRef := None;
     AutoRigger.cursor := "default";
     AutoRigger.toasts := [] |}.

(** A drag of the chin marker while it lies behind the camera: the camera
    is at (0, 0, 1) and looks down the negative z axis, the marker is at
    (0, 0, 3), and the ray through the pointer meets neither the model nor
    the plane through the marker. *)
Definition chinBehindCamera : AutoRigger.Rigger :=
  {| AutoRigger.markers :=
       AutoRigger.moveMarker "chin" {| vx := 0; vy := 0; vz := 3 |} stagedMarkers;
     AutoRigger.sceneRef :=
       Some [AutoRigger.CharacterMesh; AutoRigger.MarkersGroup;
             AutoRigger.SkeletonGroup];
     AutoRigger.skeletonRef := Some [];
     AutoRigger.bonesGroupRef := None;
     AutoRigger.skeletons := [];
     AutoRigger.bonesGenerated := false;
     AutoRigger.cameraRef := true;
     AutoRigger.characterMeshRef := true;
     AutoRigger.draggedMarkerRef := Some "chin";
     AutoRigger.cursor := "grabbing";
     AutoRigger.toasts := [] |}.

Definition pointerOffModel : AutoRigger.PointerMove :=
  {| AutoRigger.ray := {| origin := {| vx := 0; vy := 0; vz := 1 |};
                          direction := {| vx := 0; vy := 0; vz := -1 |} |};
     AutoRigger.cameraDirection := {| vx := 0; vy := 0; vz := -1 |};
     AutoRigger.modelIntersects := [];
     AutoRigger.markerIntersects := [] |}.

(** The viewer before any animation has been loaded. *)
Definition idlePlayback : Viewer.Playback :=
  {| Viewer.clips := []; Viewer.actions := [];
     Viewer.animationMixerRef := None; Viewer.animationActionRef := None;
     Viewer.originalAnimationClipRef := None;
     Viewer.rootBoneRef := Some "mixamorigHips";
     Viewer.isAnimationPlaying := true; Viewer.inPlace := false;
     Viewer.animationSpeed := 50; Viewer.currentFrame := 0%Z;
     Viewer.totalFrames := 0%Z; Viewer.animationDuration := 0;
     Viewer.toasts := [] |}.

Definition track (n : string) : Viewer.KeyframeTrack :=
  {| Viewer.track_name := n; Viewer.track_times := [0; 1];
     Viewer.track_values := [0; 0; 0; 1; 0; 0] |}.

(** A clip for the rig, and one whose tracks lack the prefix. *)
Definition walkClip : Viewer.AnimationClip :=
  {| Viewer.clip_name := "Walk"; Viewer.clip_duration := 2;
     Viewer.clip_tracks :=
       [ track "mixamorigHips.position"; track "mixamorigHips.quaternion";
         track "mixamorigSpine.quaternion" ] |}.

Definition foreignClip : Viewer.AnimationClip :=
  {| Viewer.clip_name := "Take 001"; Viewer.clip_duration := 1;
     Viewer.clip_tracks := [ track "Hips.position"; track "Spine.quaternion" ] |}.

(** In-place on, half a second of playback, pause, in-place off. *)
Definition toggles : list Viewer.Event :=
  [ Viewer.InPlaceChange true; Viewer.Frame (1 # 2); Viewer.ToggleAnimation;
    Viewer.InPlaceChange false ].

(** The viewer, ready, with an empty scene. *)
Definition readyViewer : ViewerLoad.Loader :=
  {| ViewerLoad.sceneRef := Some []; ViewerLoad.meshRef := None;
     ViewerLoad.loadRequestIdRef := 0; ViewerLoad.hasWebGL := true;
     ViewerLoad.isRendererReady := true; ViewerLoad.disposed := [];
     ViewerLoad.placeholders := 0; ViewerLoad.modelLoaded := 0;
     ViewerLoad.modelLoadError := 0 |}.

(** A file that holds a skeleton and no mesh: nothing to put a box around. *)
Definition bonesOnly : Model :=
  {| m_position := v3_zero; m_scale := {| vx := 1; vy := 1; vz := 1 |};
     m_points := [] |}.

(** Sample functions for [Math], and a two-bone arena. *)
Definition sampleMath : Math :=
  {| Math_sqrt := fun x => x; Math_sin := fun x => x; Math_cos := fun _ => 1;
     Math_acos := fun x => 1 - x; slerp_general := fun a _ _ => a |}.

Definition sampleArena : Arena :=
  [ set_name "mixamorigHips" new_Bone;
    set_parent (Some 0%nat)
      (set_position {| vx := 1; vy := 2; vz := 3 |}
         (set_quaternion {| qx := 1; qy := 0; qz := 0; qw := 0 |}
            (set_name "mixamorigSpine" new_Bone))) ].

Definition sampleNeutral : gmap nat ViewerPose.NeutralData :=
  {[ 1%nat := {| ViewerPose.neutral_position := {| vx := 0; vy := 1; vz := 0 |};
                 ViewerPose.neutral_rotation := q_identity |} ]}.

(** A drag of the chin marker with the camera at (0, 0, 6), looking down
    the negative z axis: once over the model, once beside it. *)
Definition chinInFront : AutoRigger.Rigger :=
  {| AutoRigger.markers := stagedMarkers;
     AutoRigger.sceneRef :=
       Some [AutoRigger.CharacterMesh; AutoRigger.MarkersGroup;
             AutoRigger.SkeletonGroup];
     AutoRigger.skeletonRef := Some [];
     AutoRigger.bonesGroupRef := None;
     AutoRigger.skeletons := [];
     AutoRigger.bonesGenerated := false;
     AutoRigger.cameraRef := true;
     AutoRigger.characterMeshRef := true;
     AutoRigger.draggedMarkerRef := Some "chin";
     AutoRigger.cursor := "grabbing";
     AutoRigger.toasts := [] |}.

Definition pointerOnModel : AutoRigger.PointerMove :=
  {| AutoRigger.ray := {| origin := {| vx := 0; vy := 0; vz := 6 |};
                          direction := {| vx := 0; vy := 0; vz := -1 |} |};
     AutoRigger.cameraDirection := {| vx := 0; vy := 0; vz := -1 |};
     AutoRigger.modelIntersects :=
       [ {| distance := 5.5; point := {| vx := 0; vy := 0; vz := 0.5 |} |};
         {| distance := 6.5; point := {| vx := 0; vy := 0; vz := -0.5 |} |} ];
     AutoRigger.markerIntersects := [] |}.

Definition pointerBesideModel : AutoRigger.PointerMove :=
  {| AutoRigger.ray := {| origin := {| vx := 0; vy := 0; vz := 6 |};
                          direction := {| vx := 0.6; vy := 0; vz := -0.8 |} |};
     AutoRigger.cameraDirection := {| vx := 0; vy := 0; vz := -1 |};
     AutoRigger.modelIntersects := [];
     AutoRigger.markerIntersects := [] |}.

End Samples.

(** ** The auto-rigger modal: the workflow around the synthesis *)

Module RiggerModal.

Import Three Geometry AutoRigger.
Local Open Scope Q_scope.

(** [StepType]. *)
Inductive StepType := Upload | Opacity | Markers | Generate | Adjust | Save.

(** What [handleToggleTranslucent] writes of a material. *)
Record Material := { transparent : bool; opacity : Q }.

(** The state of the modal beside what the synthesis uses. *)
Record Modal := {
  rigger : Rigger;
  currentStep : StepType;
  hasSkeletonRemoved : bool;
  isTranslucent : bool;
  (** the materials of the meshes under [characterMeshRef], in the order
      the traversal meets them *)
  materials : list Material;
  markersRef : bool
}.

Definition set_rigger (r : Rigger) (m : Modal) : Modal :=
  {| rigger := r; currentStep := currentStep m;
     hasSkeletonRemoved := hasSkeletonRemoved m; isTranslucent := isTranslucent m;
     materials := materials m; markersRef := markersRef m |}.

(** [handleToggleTranslucent]. *)
Definition handleToggleTranslucent (m : Modal) : Modal :=
  if negb (characterMeshRef (rigger m)) then m
  else
    let newOpacity := if isTranslucent m then 1.0 else 0.3 in
    {| rigger := rigger m; currentStep := currentStep m;
       hasSkeletonRemoved := hasSkeletonRemoved m;
       isTranslucent := negb (isTranslucent m);
       materials := (fun _ => {| transparent := negb (isTranslucent m);
                                 opacity := newOpacity |}) <$> materials m;
       markersRef := markersRef m |}.

(** [handleReset]. *)
Definition handleReset (m : Modal) : Modal :=
  let r := rigger m in
  let detached :=
    match bonesGroupRef r, sceneRef r with
    | Some b, Some scene => (Some (filter (fun c => c <> BoneRoot b) scene), None)
    | _, _ => (sceneRef r, bonesGroupRef r)
    end in
  {| rigger :=
       {| markers := (fun m => {| id := id m; label := label m;
                                  marker_position := marker_position m;
                                  placed := false |}) <$> markers r;
          sceneRef := detached.1;
          (* skeletonRef.current.clear() *)
          skeletonRef := (fun _ => []) <$> skeletonRef r;
          bonesGroupRef := detached.2;
          skeletons := skeletons r;
          bonesGenerated := false;
          cameraRef := cameraRef r;
          characterMeshRef := characterMeshRef r;
          draggedMarkerRef := draggedMarkerRef r;
          cursor := cursor r;
          toasts := AutoRigger.toasts r |};
     currentStep := Upload;
     hasSkeletonRemoved := false;
     isTranslucent := false;
     materials := materials m;
     markersRef := markersRef m |}.

(** The keys of [markerMeshesRef] after the effect that renders the
    markers: one mesh per placed marker, entered under the marker's id; a
    key entered twice keeps its place. *)
Definition markerMeshes (ms : list RigMarker) : list string :=
  foldl (fun keys marker =>
           if placed marker
           then if bool_decide (id marker ∈ keys) then keys else keys ++ [id marker]
           else keys)
        [] ms.

Definition set_drag (d : option string) (c : string) (r : Rigger) : Rigger :=
  {| markers := markers r; sceneRef := sceneRef r; skeletonRef := skeletonRef r;
     bonesGroupRef := bonesGroupRef r; skeletons := skeletons r;
     bonesGenerated := bonesGenerated r; cameraRef := cameraRef r;
     characterMeshRef := characterMeshRef r;
     draggedMarkerRef := d; cursor := c; toasts := AutoRigger.toasts r |}.

(** [handleMouseDown]; [hits] are the marker meshes the ray meets, nearest
    first, as places in the array the raycaster was given. *)
Definition handleMouseDown (hits : list nat) (m : Modal) : Modal :=
  let r := rigger m in
  if negb (cameraRef r) || negb (markersRef m) then m
  else
    match hits with
    | [] => m
    | intersected :: _ =>
        match markerMeshes (markers r) !! intersected with
        | Some markerId => set_rigger (set_drag (Some markerId) "grabbing" r) m
        | None => m
        end
    end.

(** [handleMouseUp], also the listener of [mouseleave]. *)
Definition handleMouseUp (m : Modal) : Modal :=
  set_rigger (set_drag None "default" (rigger m)) m.

Inductive PointerEvent :=
  | MouseDown (hits : list nat)
  | MouseMove (ev : PointerMove)
  | MouseUp.

(** The listeners are attached in the steps "markers" and "adjust". *)
Definition listening (m : Modal) : bool :=
  match currentStep m with
  | Markers | Adjust => true
  | _ => false
  end.

Definition pointerStep (m : Modal) (e : PointerEvent) : Modal :=
  if listening m then
    match e with
    | MouseDown hits => handleMouseDown hits m
    | MouseMove ev => set_rigger (handleMouseMove ev (rigger m)) m
    | MouseUp => handleMouseUp m
    end
  else m.

Definition pointerRun (m : Modal) (es : list PointerEvent) : Modal :=
  foldl pointerStep m es.

(** What a pointer event cannot change of a marker. *)
Definition shape (ms : list RigMarker) : list (string * string * bool) :=
  (fun k => (id k, label k, placed k)) <$> ms.

(** What every pointer event keeps, from a start [m0] without a drag. *)
Definition drag_invariant (m0 m : Modal) : Prop :=
  currentStep m = currentStep m0 /\
  shape (markers (rigger m)) = shape (markers (rigger m0)) /\
  (forall d, draggedMarkerRef (rigger m) = Some d ->
     exists k, k ∈ markers (rigger m0) /\ id k = d /\ placed k = true) /\
  (forall i k, markers (rigger m0) !! i = Some k -> placed k = false ->
     markers (rigger m) !! i = Some k).

(** An object that is no bone: a mesh, a group, the scene. *)
Definition new_Object3D : Object3D :=
  {| name := ""; isBone := false; position := v3_zero; quaternion := q_identity;
     parent := None; children := [] |}.

(** [loadPlaceholder] of the modal, on the arena that holds the scene: the
    arena afterwards and the group [characterMeshRef] points to. *)
Definition loadPlaceholder (scene : nat) (a : Arena) : Arena * nat :=
  let characterMesh := length a in
  let a := a ++ [set_position {| vx := 0; vy := -0.5; vz := 0 |} new_Object3D] in
  let a := arena_add scene characterMesh a in
  let group := length a in
  let a := a ++ [new_Object3D] in
  (arena_add group characterMesh a, group).

End RiggerModal.

(** ** The auto-rigger modal: the lines of the skeleton *)

Module RiggerLines.

(** The pairs of the table in the order in which the traversal of the
    hierarchy meets the child. *)
Definition drawingOrder : list (string * string) :=
  [ ("groin", "neckBase"); ("neckBase", "chin");
    ("neckBase", "leftShoulder"); ("leftShoulder", "leftElbow");
    ("leftElbow", "leftWrist");
    ("neckBase", "rightShoulder"); ("rightShoulder", "rightElbow");
    ("rightElbow", "rightWrist");
    ("groin", "leftKnee"); ("leftKnee", "leftAnkle");
    ("groin", "rightKnee"); ("rightKnee", "rightAnkle") ].

End RiggerLines.

(** ** The 3D viewer (part_002): the other controls of the playback *)

Module ViewerControls.

Import Three Viewer ViewerPose.
Local Open Scope Q_scope.

(** [handleFrameChange]; [frameValues[0]] of an empty array is
    [undefined], the time computed from it a NaN ([None]). *)
Definition handleFrameChange (frameValues : list Z) (p : Playback) : option Playback :=
  match animationActionRef p with
  | None => Some p
  | Some a =>
      if Num.eqb (animationDuration p) 0 then Some p
      else
        targetFrame ← head frameValues;
        let fps := 30 in
        let targetTime := inject_Z targetFrame / fps in
        Some (set_frames targetFrame (totalFrames p) (animationDuration p)
                (set_actions (alter (set_time targetTime) a (actions p)) p))
  end.

(** The render loop, "Actualizar el frame actual":
    [setCurrentFrame(Math.floor(time * fps))]. *)
Definition updateCurrentFrame (p : Playback) : Playback :=
  if bool_decide (is_Some (animationMixerRef p)) && isAnimationPlaying p then
    match currentAction p with
    | Some act =>
        let fps := 30 in
        set_frames (Qfloor (time act * fps)) (totalFrames p) (animationDuration p) p
    | None => p
    end
  else p.

(** The two computations on binary64 numbers: the time stored for a frame,
    and the product the loop takes the floor of. *)
Definition targetTime_f64 (targetFrame : float) : float := (targetFrame / 30)%float.

Definition frameProduct_f64 (time : float) : float := (time * 30)%float.

(** [mixer.stopAllAction()]: every action the mixer holds is stopped. *)
Definition stopAllAction (mixer : AnimationMixer) (acts : list AnimationAction)
  : list AnimationAction :=
  foldr (fun a acts => alter stop a acts) acts
        ((map_to_list (actionsByClip mixer)).*2).

(** What the viewer holds beside the playback state: the scene, the nodes
    of the model under [meshRef], the pose captured when the model was
    loaded, and the urls for which an animation loader has been started. *)
Record Stage := {
  playback : Playback;
  sceneRef : bool;
  meshRef : option Arena;
  neutralPoseRef : gmap nat NeutralData;
  requested : list string
}.

Definition set_playback (p : Playback) (s : Stage) : Stage :=
  {| playback := p; sceneRef := sceneRef s; meshRef := meshRef s;
     neutralPoseRef := neutralPoseRef s; requested := requested s |}.

(** [onLoad], "Capturar la pose neutral": an entry for every bone of the
    model, with copies of its position and rotation. *)
Definition captureNeutralPose (a : Arena) : gmap nat NeutralData :=
  foldl (fun neutralPose '(i, child) =>
           if isBone child
           then <[i := {| neutral_position := position child;
                          neutral_rotation := quaternion child |}]> neutralPose
           else neutralPose)
        ∅ (imap pair a).

(** [handleClearAnimation], "Restaurar pose neutral": the callback of
    [traverse] for the node at index [i]. *)
Definition restoreVisit (neutralPose : gmap nat NeutralData) (i : nat) (child : Object3D)
  : Object3D :=
  if isBone child then
    match neutralPose !! i with
    | Some neutralData =>
        set_quaternion (neutral_rotation neutralData)
          (set_position (neutral_position neutralData) child)
    | None => child
    end
  else child.

(** [handleClearAnimation]: what it does to the playback state, and to the
    model. *)
Definition clearPlayback (p : Playback) : Playback :=
  let p := match animationMixerRef p with
           | Some mixer =>
               let p := set_actions (stopAllAction mixer (actions p)) p in
               match originalAnimationClipRef p with
               | Some originalClip => uncacheClip originalClip p
               | None => p
               end
           | None => p
           end in
  let p := set_originalAnimationClipRef None (set_animationActionRef None p) in
  set_frames 0 0 0 (set_isAnimationPlaying false p).

Definition restorePose (neutralPose : gmap nat NeutralData) (mesh : option Arena)
  : option Arena :=
  match mesh with
  | Some a =>
      if bool_decide (0 < size neutralPose)%nat
      then Some (imap (restoreVisit neutralPose) a)
      else Some a
  | None => None
  end.

Definition handleClearAnimation (s : Stage) : Stage :=
  {| playback := clearPlayback (playback s);
     sceneRef := sceneRef s;
     meshRef := restorePose (neutralPoseRef s) (meshRef s);
     neutralPoseRef := neutralPoseRef s;
     requested := requested s |}.

(** The model [a] is the model [a0] in another pose: the same nodes, of
    which only bones differ, and these only in position and rotation. *)
Definition posed (a0 a : Arena) : Prop :=
  length a = length a0 /\
  forall i o0 o, a0 !! i = Some o0 -> a !! i = Some o ->
    name o = name o0 /\ isBone o = isBone o0 /\ parent o = parent o0 /\
    children o = children o0 /\ (isBone o0 = false -> o = o0).

Definition unsupportedFormatToast : Toast :=
  {| title := "Formato no soportado";
     description := "Solo se admiten archivos FBX, GLTF y GLB";
     destructive := true |}.

(** The formats for which the effect on [animationUrl] starts a loader. *)
Definition animationLoadable (url : string) : bool :=
  let e := Url.extension url in
  String.eqb e ".fbx" || String.eqb e ".gltf" || String.eqb e ".glb".

(** The effect on [animationUrl], "Limpiar animación anterior": the
    current action is stopped and reset and, with a model at hand, the
    mixer is emptied and dropped. *)
Definition cleanPreviousAnimation (mesh : option Arena) (p : Playback) : Playback :=
  let p := match animationActionRef p with
           | Some a =>
               set_animationActionRef None
                 (set_actions (alter (fun act => reset (stop act)) a (actions p)) p)
           | None => p
           end in
  match animationMixerRef p, mesh with
  | Some mixer, Some _ =>
      (* stopAllAction(); uncacheRoot(mesh); animationMixerRef.current = null *)
      set_animationMixerRef None (set_actions (stopAllAction mixer (actions p)) p)
  | _, _ => p
  end.

(** The effect on [animationUrl]: the part that runs at once.  A loader,
    when one is started, calls [onAnimationLoad] or [onError] later. *)
Definition animationEffect (animationUrl : option string) (s : Stage) : Stage :=
  let p := cleanPreviousAnimation (meshRef s) (playback s) in
  let missing := set_playback (set_frames 0 0 0 p) s in
  match animationUrl with
  | Some url =>
      if Url.truthy url && bool_decide (is_Some (meshRef s)) && sceneRef s then
        if animationLoadable url then
          {| playback := p; sceneRef := sceneRef s; meshRef := meshRef s;
             neutralPoseRef := neutralPoseRef s; requested := requested s ++ [url] |}
        else set_playback (Viewer.toast unsupportedFormatToast p) s
      else missing
  | None => missing
  end.

Inductive AnimationEvent :=
  | AnimationEffect (animationUrl : option string)
  | AnimationLoaded (animations : list AnimationClip)
  | AnimationError.

Definition animationStep (s : Stage) (e : AnimationEvent) : Stage :=
  match e with
  | AnimationEffect animationUrl => animationEffect animationUrl s
  | AnimationLoaded animations => set_playback (onAnimationLoad animations (playback s)) s
  | AnimationError => set_playback (onAnimationError (playback s)) s
  end.

Definition animationRun (s : Stage) (es : list AnimationEvent) : Stage :=
  foldl animationStep s es.

(** The ways a load ends without an animation: the loader fails, the file
    holds no animation, or its first clip is not for the rig. *)
Definition failedOutcome (e : AnimationEvent) : bool :=
  match e with
  | AnimationError => true
  | AnimationLoaded [] => true
  | AnimationLoaded (clip :: _) => negb (hasMixamoTracks clip)
  | AnimationEffect _ => false
  end.

(** The render loop, "Aplicar espacio de brazos": the angle in degrees. *)
Definition armAngleDegrees (armSpacing : Q) : Q :=
  if Num.ltb armSpacing 50
  then -30 + (armSpacing / 50) * 30
  else ((armSpacing - 50) / 50) * 60.

(** The bones the block takes for upper arms, and for left ones, by their
    lower-cased names. *)
Definition isArmBone (boneName : string) : bool :=
  includes "shoulder" boneName || includes "upperarm" boneName ||
  includes "arm" boneName && negb (includes "forearm" boneName)
  && negb (includes "lowerarm" boneName).

Definition isLeftArm (boneName : string) : bool :=
  includes "left" boneName || includes "_l" boneName || includes "l_" boneName.

(** The callback of [traverse], for the node at index [i]; [DEG2RAD] is
    the constant [Math.PI / 180] of [MathUtils.degToRad]. *)
Definition armSpacingVisit (M : Math) (DEG2RAD : Q) (armSpacing : Q)
    (neutralPose : gmap nat NeutralData) (i : nat) (child : Object3D) : Object3D :=
  if isBone child then
    match neutralPose !! i with
    | None => child
    | Some _ =>
        let boneName := Url.toLowerCase (name child) in
        if isArmBone boneName then
          let armAngle := armAngleDegrees armSpacing * DEG2RAD in
          let currentRotation := quaternion child in
          let rotationAxis := {| vx := 0; vy := 0; vz := 1 |} in
          let armRotation :=
            q_setFromAxisAngle M rotationAxis
              (if isLeftArm boneName then armAngle else - armAngle) in
          set_quaternion (q_multiply currentRotation armRotation) child
        else child
    end
  else child.

(** The block itself, which the loop runs while there is a mixer and the
    animation plays, on the nodes of the model. *)
Definition armSpacingBlock (M : Math) (DEG2RAD : Q) (armSpacing : Q)
    (neutralPose : gmap nat NeutralData) (a : Arena) : Arena :=
  if bool_decide (0 < size neutralPose)%nat
  then imap (armSpacingVisit M DEG2RAD armSpacing neutralPose) a
  else a.

End ViewerControls.

(** ** Model loading: how the loaders answer *)

(** A loader of three.js answers a [load] once, with [onLoad] or with
    [onError].  [conforms pending s es] checks a sequence of events against
    this: [pending] holds the request ids of the loads in flight. *)
Module LoaderProtocol.

Import ViewerLoad.

(** The effect on [modelUrl] gets to one of its three [loader.load] calls. *)
Definition startsLoader (modelUrl : option string) (s : Loader) : bool :=
  bool_decide (is_Some (sceneRef s)) && hasWebGL s && isRendererReady s &&
  match modelUrl with
  | Some url => Url.truthy url && Url.loadable url
  | None => false
  end.

Fixpoint conforms (pending : list nat) (s : Loader) (es : list Event) : bool :=
  match es with
  | [] => true
  | e :: es' =>
      let s' := step s e in
      match e with
      | ModelEffect modelUrl =>
          conforms (if startsLoader modelUrl s
                    then pending ++ [loadRequestIdRef s'] else pending) s' es'
      | OnLoad requestId _ | OnError requestId =>
          bool_decide (requestId ∈ pending) &&
          conforms (filter (fun r => r <> requestId) pending) s' es'
      end
  end.

(** The scene holds the object [meshRef] names and no other. *)
Definition shows_only_mesh (s : Loader) : Prop :=
  match sceneRef s with
  | Some scene => scene = option_list (meshRef s)
  | None => True
  end.

(** What the induction carries: the scene shows the mesh only, no load in
    flight has an id above the current one, and while the load of the
    current id is in flight there is no mesh. *)
Definition protocol_invariant (pending : list nat) (s : Loader) : Prop :=
  shows_only_mesh s /\
  Forall (fun r => r <= loadRequestIdRef s) pending /\
  (loadRequestIdRef s ∈ pending -> meshRef s = None).

End LoaderProtocol.

(** ** The skeleton replacer modal: what its scene shows *)

Module ReplacerScene.

Import Replacer.

(** The scene holds the object [characterMeshRef] names and no other. *)
Definition shows_only_mesh (s : Loader) : Prop :=
  match sceneRef s with
  | Some scene => scene = option_list (characterMeshRef s)
  | None => True
  end.

End ReplacerScene.

(** ** The skeleton replacer modal: the model it shows *)

Module ReplacerModel.

Import Three Geometry.
Local Open Scope Q_scope.

(** [loadModel], "Centrar modelo": the position of the object after the
    three assignments.  The least corner of an empty box is not finite. *)
Definition place (object : Model) : option Model :=
  let box := setFromObject object in
  let center := getCenter box in
  min ← box_min box;
  Some {| m_position := {| vx := vx (m_position object) - vx center;
                           vy := -2 - vy min;
                           vz := vz (m_position object) - vz center |};
          m_scale := m_scale object;
          m_points := m_points object |}.

(** The objects of a loaded model, as far as the modal tells them apart;
    a skinned mesh may or may not be bound to a skeleton. *)
Inductive Kind :=
  | KBone
  | KSkinnedMesh (skeleton : bool)
  | KMesh
  | KGroup
  | KObject3D.

#[export] Instance Kind_eq_dec : EqDecision Kind.
Proof. solve_decision. Defined.

#[local] Unset Elimination Schemes.
Inductive Node := mkNode (kind : Kind) (name : string) (children : list Node).
#[local] Set Elimination Schemes.

Definition kind (n : Node) : Kind := let 'mkNode k _ _ := n in k.
Definition node_name (n : Node) : string := let 'mkNode _ nm _ := n in nm.
Definition node_children (n : Node) : list Node := let 'mkNode _ _ cs := n in cs.

(** [model.traverse(f)]: the nodes in the order [f] is called on them. *)
Fixpoint traverse (n : Node) : list Node :=
  n :: match n with
       | mkNode _ _ cs => flat_map traverse cs
       end.

Record SkeletonInfo := { hasSkeleton : bool; boneCount : nat }.

(** [analyzeSkeletonInfo]. *)
Definition analyzeSkeletonInfo (model : Node) : SkeletonInfo :=
  foldl (fun info child =>
           let info := if decide (kind child = KBone)
                       then {| hasSkeleton := hasSkeleton info;
                               boneCount := S (boneCount info) |}
                       else info in
           match kind child with
           | KSkinnedMesh true =>
               {| hasSkeleton := true; boneCount := boneCount info |}
           | _ => info
           end)
        {| hasSkeleton := false; boneCount := 0 |} (traverse model).

(** [child.isMesh]: set on meshes and on skinned meshes. *)
Definition isMesh (n : Node) : bool :=
  match kind n with
  | KMesh | KSkinnedMesh _ => true
  | _ => false
  end.

(** [handleRemoveSkeleton]: what the callback of [traverse] adds to
    [cleanModel] for one node.  [clone()] copies a node with all that is
    below it. *)
Definition removeSkeletonVisit (isModel : bool) (child : Node) : list Node :=
  match kind child with
  | KBone => []
  | KSkinnedMesh _ => [mkNode KMesh (node_name child) []]
  | KMesh => [child]
  | KGroup => if isModel then [] else [child]
  | KObject3D => []
  end.

(** [handleRemoveSkeleton]: the model that replaces [characterMeshRef]. *)
Definition handleRemoveSkeleton (model : Node) : Node :=
  mkNode KGroup
    (if String.eqb (node_name model) "" then "model" else node_name model)
    match traverse model with
    | [] => []
    | root :: rest =>
        removeSkeletonVisit true root ++ flat_map (removeSkeletonVisit false) rest
    end.

End ReplacerModel.

(** ** The auto-rigger modal: loading the model *)

Module RiggerLoad.

(** What the effect puts into the scene or under [characterMeshRef]: an
    object a loader delivered, the capsule of a placeholder, or the group
    the placeholder is kept in. *)
Inductive RigObject :=
  | Delivered (handle : nat)
  | Capsule (serial : nat)
  | CapsuleGroup (serial : nat).

#[export] Instance RigObject_eq_dec : EqDecision RigObject.
Proof. solve_decision. Defined.

Record Loader := {
  isOpen : bool;
  sceneRef : option (list RigObject);
  rendererRef : bool;
  characterMeshRef : option RigObject;
  placeholders : nat
}.

(** [loadPlaceholder]: the capsule is added to the scene and then to a new
    group, which takes it out of the scene again (on the arena of the
    scene graph: [RiggerModal.loadPlaceholder]). *)
Definition loadPlaceholder (scene : list RigObject) (s : Loader) : Loader :=
  let characterMesh := Capsule (placeholders s) in
  let scene := scene ++ [characterMesh] in
  {| isOpen := isOpen s;
     sceneRef := Some (filter (fun c => c <> characterMesh) scene);
     rendererRef := rendererRef s;
     characterMeshRef := Some (CapsuleGroup (placeholders s));
     placeholders := S (placeholders s) |}.

(** The effect on [modelUrl], at the tick of its interval at which the
    scene and the renderer are there. *)
Definition modelEffect (modelUrl : option string) (s : Loader) : Loader :=
  match modelUrl, sceneRef s with
  | Some url, Some scene =>
      if negb (isOpen s) || negb (Url.truthy url) || negb (rendererRef s) then s
      else
        let scene := match characterMeshRef s with
                     | Some old => filter (fun c => c <> old) scene
                     | None => scene
                     end in
        let s := {| isOpen := isOpen s; sceneRef := Some scene;
                    rendererRef := rendererRef s; characterMeshRef := None;
                    placeholders := placeholders s |} in
        if Url.loadable url then s else loadPlaceholder scene s
  | _, _ => s
  end.

(** [onLoad]: the object goes into the scene the effect found. *)
Definition onLoad (object : nat) (s : Loader) : Loader :=
  match sceneRef s with
  | Some scene =>
      {| isOpen := isOpen s; sceneRef := Some (scene ++ [Delivered object]);
         rendererRef := rendererRef s;
         characterMeshRef := Some (Delivered object);
         placeholders := placeholders s |}
  | None => s
  end.

Definition onError (s : Loader) : Loader :=
  match sceneRef s with
  | Some scene => loadPlaceholder scene s
  | None => s
  end.

Inductive Event :=
  | ModelEffect (modelUrl : option string)
  | OnLoad (object : nat)
  | OnError.

Definition step (s : Loader) (e : Event) : Loader :=
  match e with
  | ModelEffect modelUrl => modelEffect modelUrl s
  | OnLoad object => onLoad object s
  | OnError => onError s
  end.

Definition run (s : Loader) (es : list Event) : Loader := foldl step s es.

(** The object is in the scene without being the one [characterMeshRef]
    names. *)
Definition left_behind (obj : RigObject) (s : Loader) : Prop :=
  (exists scene, sceneRef s = Some scene /\ obj ∈ scene) /\
  characterMeshRef s <> Some obj.

End RiggerLoad.

(** ** The auto-rigger modal: removing the skeleton of the model *)

Module RiggerSkeleton.

Import Three AutoRigger RiggerModal.

(** Every child names its parent, as [add] and [remove] keep it. *)
Definition well_formed (a : Arena) : bool :=
  forallb (fun '(p, o) =>
             forallb (fun c => bool_decide (a !! c ≫= parent = Some p)) (children o))
          (imap pair a).

(** [if (bone.parent) bone.parent.remove(bone)]. *)
Definition removeBone (a : Arena) (bone : nat) : Arena :=
  match a !! bone ≫= parent with
  | Some p => arena_remove p bone a
  | None => a
  end.

(** [handleRemoveSkeleton], "Remover todos los bones de la copia": the
    arena holds the copy, [cleanModel] is its root. *)
Definition removeBones (fuel : nat) (cleanModel : nat) (a : Arena) : Arena :=
  let bonesToRemove :=
    filter (fun child => isBone <$> a !! child = Some true)
           (traverse fuel a cleanModel) in
  foldl removeBone a bonesToRemove.

Definition skeletonRemovedToast : Toast :=
  {| title := "Esqueleto Eliminado";
     description := "El esqueleto existente ha sido removido del modelo";
     destructive := false |}.

(** [handleRemoveSkeleton]: what it does to the state of the modal; the
    clean copy takes the place of the model at the end of the scene. *)
Definition handleRemoveSkeleton (m : Modal) : Modal :=
  let r := rigger m in
  if negb (characterMeshRef r) then m
  else
    {| rigger :=
         AutoRigger.toast skeletonRemovedToast
           {| markers := markers r;
              sceneRef := (fun scene => filter (fun c => c <> CharacterMesh) scene
                                        ++ [CharacterMesh]) <$> sceneRef r;
              skeletonRef := skeletonRef r; bonesGroupRef := bonesGroupRef r;
              skeletons := skeletons r; bonesGenerated := bonesGenerated r;
              cameraRef := cameraRef r; characterMeshRef := characterMeshRef r;
              draggedMarkerRef := draggedMarkerRef r; cursor := cursor r;
              toasts := AutoRigger.toasts r |};
       currentStep := Opacity;
       hasSkeletonRemoved := true;
       isTranslucent := isTranslucent m;
       materials := materials m;
       markersRef := markersRef m |}.

(** What the removal of bones keeps of the relation between the arena
    before and after: the nodes with their names and bone flags; children
    are only taken away, and only those in [removed]; parents change only
    for nodes in [removed]. *)
Definition pruned (removed : list nat) (a a' : Arena) : Prop :=
  length a' = length a /\
  forall i o, a !! i = Some o ->
    exists o', a' !! i = Some o' /\
      name o' = name o /\ isBone o' = isBone o /\ position o' = position o /\
      quaternion o' = quaternion o /\
      (i ∉ removed -> parent o' = parent o) /\
      (forall c, c ∈ children o' -> c ∈ children o) /\
      (forall c, c ∈ children o -> c ∉ removed -> c ∈ children o').

End RiggerSkeleton.

(** ** The viewer: the render loop and the enthusiasm slider *)

Module RenderLoop.

Import Three ViewerPose.
Local Open Scope Q_scope.

(** What [animate] holds of the render in which [initViewer] created it:
    the loop is a closure over the state of that render. *)
Record Closure := {
  closure_isAnimationPlaying : bool;
  closure_animationEnthusiasm : Q
}.

(** The state of the component the enthusiasm block depends on, and the
    loop once it runs. *)
Record Component := {
  isAnimationPlaying : bool;
  animationEnthusiasm : Q;
  sceneRef : bool;
  animate : option Closure
}.

(** The component at its first render. *)
Definition mounted : Component :=
  {| isAnimationPlaying := true; animationEnthusiasm := 50;
     sceneRef := false; animate := None |}.

(** [initViewer], with the container at hand: nothing when the scene is
    there already; otherwise the scene is created and, when the renderer
    can be created ([webgl]), the loop is started. *)
Definition initViewer (webgl : bool) (c : Component) : Component :=
  if sceneRef c then c
  else
    {| isAnimationPlaying := isAnimationPlaying c;
       animationEnthusiasm := animationEnthusiasm c;
       sceneRef := true;
       animate :=
         if webgl
         then Some {| closure_isAnimationPlaying := isAnimationPlaying c;
                      closure_animationEnthusiasm := animationEnthusiasm c |}
         else None |}.

(** [handleEnthusiasmChange]. *)
Definition handleEnthusiasmChange (enthusiasm : Q) (c : Component) : Component :=
  {| isAnimationPlaying := isAnimationPlaying c;
     animationEnthusiasm := enthusiasm;
     sceneRef := sceneRef c;
     animate := animate c |}.

(** One pass of [animate] through the enthusiasm block, on the nodes of
    the model; [mixer] tells whether [animationMixerRef] holds a mixer. *)
Definition enthusiasmPass (M : Math) (c : Component) (mixer : bool)
    (neutralPoseRef : gmap nat NeutralData) (a : Arena) : option Arena :=
  match animate c with
  | Some k =>
      if mixer && closure_isAnimationPlaying k
      then enthusiasmBlock M (closure_animationEnthusiasm k) neutralPoseRef a
      else Some a
  | None => Some a
  end.

End RenderLoop.

Module MoreSamples.

Import Three Geometry.
Local Open Scope Q_scope.

(** The placeholder box with its root object at a height of 0.9. *)
Definition liftedBox : Model :=
  {| m_position := {| vx := 0; vy := 0.9; vz := 0 |};
     m_scale := {| vx := 1; vy := 1; vz := 1 |};
     m_points := [ {| vx := -0.5; vy := 0; vz := -0.2 |};
                   {| vx := 0.5; vy := 1.8; vz := 0.2 |} ] |}.

(** A character as the loaders deliver it: the bones below a group of
    their own, beside the skinned mesh. *)
Definition armatureModel : ReplacerModel.Node :=
  ReplacerModel.mkNode ReplacerModel.KGroup "Character"
    [ ReplacerModel.mkNode ReplacerModel.KGroup "Armature"
        [ ReplacerModel.mkNode ReplacerModel.KBone "Hips"
            [ ReplacerModel.mkNode ReplacerModel.KBone "Spine" [] ] ];
      ReplacerModel.mkNode (ReplacerModel.KSkinnedMesh true) "Body" [] ].

(** The auto-rigger, open, with an empty scene. *)
Definition readyRigger : RiggerLoad.Loader :=
  {| RiggerLoad.isOpen := true; RiggerLoad.sceneRef := Some [];
     RiggerLoad.rendererRef := true; RiggerLoad.characterMeshRef := None;
     RiggerLoad.placeholders := 0 |}.

(** The viewer with the sample arena as its model, playing the sample
    clip. *)
Definition walkingStage : ViewerControls.Stage :=
  {| ViewerControls.playback :=
       Viewer.onAnimationLoad [Samples.walkClip] Samples.idlePlayback;
     ViewerControls.sceneRef := true;
     ViewerControls.meshRef := Some Samples.sampleArena;
     ViewerControls.neutralPoseRef :=
       ViewerControls.captureNeutralPose Samples.sampleArena;
     ViewerControls.requested := ["walk.fbx"] |}.

(** The modal in the step "markers", every marker placed, no drag. *)
Definition markerStep : RiggerModal.Modal :=
  {| RiggerModal.rigger := RiggerModal.set_drag None "default" Samples.chinInFront;
     RiggerModal.currentStep := RiggerModal.Markers;
     RiggerModal.hasSkeletonRemoved := false;
     RiggerModal.isTranslucent := false;
     RiggerModal.materials := [];
     RiggerModal.markersRef := true |}.

(** An arena that holds an empty scene and nothing else. *)
Definition sceneOnly : Arena := [RiggerModal.new_Object3D].

(** A second clip for the rig. *)
Definition runClip : Viewer.AnimationClip :=
  {| Viewer.clip_name := "Run"; Viewer.clip_duration := 1;
     Viewer.clip_tracks := [ Samples.track "mixamorigHips.quaternion" ] |}.

(** A model in the arena: a group (0) with a bone (1) and a mesh (2); a
    second mesh (3) hangs below the bone. *)
Definition riggedArena : Arena :=
  [ set_children [1; 2]%nat (set_name "Character" RiggerModal.new_Object3D);
    set_children [3%nat] (set_parent (Some 0%nat) (set_name "Hips" new_Bone));
    set_parent (Some 0%nat) (set_name "Body" RiggerModal.new_Object3D);
    set_parent (Some 1%nat) (set_name "Sword" RiggerModal.new_Object3D) ].

(** The skeleton replacer, open and ready, with an empty scene. *)
Definition readyReplacer : Replacer.Loader :=
  {| Replacer.isOpen := true; Replacer.sceneRef := Some [];
     Replacer.cameraRef := true; Replacer.controlsRef := true;
     Replacer.characterMeshRef := None; Replacer.loadRequestIdRef := 0;
     Replacer.isRendererReady := true; Replacer.isLoading := false;
     Replacer.disposed := []; Replacer.toasts := [] |}.

(** A cube of side 1 around the origin of its root object, which sits at
    (1, 1, 1) with the scale 2: in the world, the cube from 0 to 2. *)
Definition offsetCube : Model :=
  {| m_position := {| vx := 1; vy := 1; vz := 1 |};
     m_scale := {| vx := 2; vy := 2; vz := 2 |};
     m_points := [ {| vx := -0.5; vy := -0.5; vz := -0.5 |};
                   {| vx := 0.5; vy := 0.5; vz := 0.5 |} ] |}.

End MoreSamples.

(** * Properties *)

(** ** The slider mappings *)

Section SliderFacts.

Local Open Scope Q_scope.

Lemma ltb_true a b : Num.ltb a b = true <-> a < b.
Proof.
  unfold Num.ltb. rewrite negb_true_iff, <- not_true_iff_false, Qle_bool_iff.
  split; [apply Qnot_le_lt | apply Qlt_not_le].
Qed.

Lemma ltb_false a b : Num.ltb a b = false <-> b <= a.
Proof. unfold Num.ltb. rewrite negb_false_iff. apply Qle_bool_iff. Qed.

Lemma leb_true a b : Num.leb a b = true <-> a <= b.
Proof. apply Qle_bool_iff. Qed.

Lemma leb_false a b : Num.leb a b = false <-> b < a.
Proof.
  unfold Num.leb. rewrite <- not_true_iff_false, Qle_bool_iff.
  split; [apply Qnot_le_lt | apply Qlt_not_le].
Qed.

Lemma eqb_true a b : Num.eqb a b = true <-> a == b.
Proof. apply Qeq_bool_iff. Qed.



Lemma enthusiasmFactor_low e :
  e <= 50 -> Sliders.enthusiasmFactor e == Num.line_through 0 0.2 50 1.0 e.
Proof.
  intros He. unfold Sliders.enthusiasmFactor, Num.line_through.
  destruct (Num.ltb e 50) eqn:E.
  - field.
  - apply ltb_false in E. assert (e == 50) as -> by lra. reflexivity.
Qed.

Lemma enthusiasmFactor_high e :
  50 <= e -> Sliders.enthusiasmFactor e == Num.line_through 50 1.0 100 2.0 e.
Proof.
  intros He. unfold Sliders.enthusiasmFactor, Num.line_through.
  destruct (Num.ltb e 50) eqn:E.
  - apply ltb_true in E. lra.
  - field.
Qed.

End SliderFacts.

Section SliderClaims.

Import Viewer.
Local Open Scope Q_scope.



End SliderClaims.

(** ** The enthusiasm block *)

Section EnthusiasmFacts.

Import Three ViewerPose.
Local Open Scope Q_scope.

Variable M : Math.

Lemma clamp_in_range x : -1 <= Num.clamp (-1) 1 x <= 1.
Proof.
  unfold Num.clamp.
  apply Q.max_case_strong; [intros a b Hab; by rewrite Hab | |];
    apply Q.min_case_strong; try (intros a b Hab; by rewrite Hab); intros; lra.
Qed.

Lemma q_lengthSq_nonneg a : 0 <= q_lengthSq a.
Proof. unfold q_lengthSq. nra. Qed.

Lemma safe_div_Some a b : ~ b == 0 -> Num.safe_div a b = Some (a / b).
Proof.
  intros Hb. unfold Num.safe_div.
  destruct (Qeq_bool b 0) eqn:E; [|done]. by apply Qeq_bool_iff in E.
Qed.

Lemma q_normalize_total a : is_Some (q_normalize M a).
Proof.
  unfold q_normalize, sqrt_checked.
  rewrite (proj2 (leb_true _ _) (q_lengthSq_nonneg a)). cbn.
  destruct (Num.eqb _ 0) eqn:E; [done|].
  rewrite safe_div_Some; [done|].
  intros H. apply eqb_true in H. congruence.
Qed.

Lemma acos_checked_clamp x :
  acos_checked M (Num.clamp (-1) 1 x) = Some (Math_acos M (Num.clamp (-1) 1 x)).
Proof.
  unfold acos_checked. destruct (clamp_in_range x) as [H1 H2].
  by rewrite (proj2 (leb_true _ _) H1), (proj2 (leb_true _ _) H2).
Qed.

(** The extrapolation written out, for the delta quaternion [deltaQ]. *)
Lemma extrapolateRotation_cases neutral current factor deltaQ :
  q_normalize M (q_multiply (q_invert neutral) current) = Some deltaQ ->
  let halfAngle := Math_acos M (Num.clamp (-1) 1 (qw deltaQ)) in
  let sinHalfAngle := Math_sin M halfAngle in
  extrapolateRotation M neutral current factor
  = Some (if Num.ltb 0.0001 sinHalfAngle
          then q_multiply neutral
                 (q_setFromAxisAngle M
                    {| vx := qx deltaQ / sinHalfAngle;
                       vy := qy deltaQ / sinHalfAngle;
                       vz := qz deltaQ / sinHalfAngle |}
                    (2 * halfAngle * factor))
          else neutral).
Proof.
  intros Hn halfAngle sinHalfAngle. unfold extrapolateRotation.
  rewrite Hn. cbn. rewrite acos_checked_clamp. cbn.
  fold halfAngle. fold sinHalfAngle.
  destruct (Num.ltb 0.0001 sinHalfAngle) eqn:E; [|done].
  apply ltb_true in E.
  assert (~ sinHalfAngle == 0) as Hs by lra.
  by rewrite !safe_div_Some.
Qed.

Lemma blendBone_total factor nd bone : is_Some (blendBone M factor nd bone).
Proof.
  unfold blendBone. destruct (Num.leb factor 1.0); [done|].
  destruct (q_normalize_total (q_multiply (q_invert (neutral_rotation nd)) (quaternion bone)))
    as [deltaQ Hd].
  by rewrite (extrapolateRotation_cases _ _ _ _ Hd).
Qed.

Lemma enthusiasmVisit_total factor np a i child :
  is_Some (enthusiasmVisit M factor np a i child).
Proof.
  unfold enthusiasmVisit.
  destruct (isBone child); [|done].
  destruct (np !! i); [|done].
  destruct (hasBoneParent a child); [apply blendBone_total|done].
Qed.

Lemma mapM_total {A B} (f : A -> option B) (l : list A) :
  (forall x, is_Some (f x)) -> is_Some (mapM f l).
Proof.
  intros Hf. induction l as [|x l IH]; [done|].
  destruct (Hf x) as [y Hy], IH as [k Hk]. exists (y :: k).
  apply mapM_Some. constructor; [done|]. by apply mapM_Some.
Qed.

Lemma enthusiasmBlock_total e np a : is_Some (enthusiasmBlock M e np a).
Proof.
  unfold enthusiasmBlock.
  destruct (_ && _); [|done].
  apply mapM_total. intros [i child]. apply enthusiasmVisit_total.
Qed.

(** What the block leaves at index [i]. *)
Lemma enthusiasmBlock_lookup e np a a' i child :
  Num.eqb e 50 = false -> (0 < size np)%nat ->
  enthusiasmBlock M e np a = Some a' ->
  a !! i = Some child ->
  exists child', a' !! i = Some child' /\
    enthusiasmVisit M (Sliders.enthusiasmFactor e) np a i child = Some child'.
Proof.
  intros He Hnp Hblock Hi. unfold enthusiasmBlock in Hblock.
  rewrite He, bool_decide_eq_true_2 in Hblock by done. cbn in Hblock.
  apply mapM_Some in Hblock.
  assert (imap pair a !! i = Some (i, child)) as Hi'
    by (by rewrite list_lookup_imap, Hi).
  destruct (Forall2_lookup_l _ _ _ _ _ Hblock Hi') as (child' & Hc' & Hv).
  by exists child'.
Qed.

End EnthusiasmFacts.

Section EnthusiasmPoseFacts.

Import Three ViewerPose.
Local Open Scope Q_scope.

Variable M : Math.

Lemma enthusiasmFactor_range e :
  0 <= e <= 100 -> 0.2 <= Sliders.enthusiasmFactor e <= 2.
Proof.
  intros [H0 H1]. unfold Sliders.enthusiasmFactor.
  destruct (Num.ltb e 50) eqn:E.
  - apply ltb_true in E.
    assert (e == e / 50 * 50) as Hx by field.
    remember (e / 50) as x. lra.
  - apply ltb_false in E.
    assert (e - 50 == (e - 50) / 50 * 50) as Hx by field.
    remember ((e - 50) / 50) as x. lra.
Qed.

Lemma enthusiasmFactor_below e :
  e < 50 -> Num.leb (Sliders.enthusiasmFactor e) 1.0 = true.
Proof.
  intros He. apply leb_true. unfold Sliders.enthusiasmFactor.
  rewrite (proj2 (ltb_true e 50) He).
  assert (e == e / 50 * 50) as Hx by field.
  remember (e / 50) as x. lra.
Qed.

Lemma enthusiasmFactor_above e :
  50 < e -> Num.leb (Sliders.enthusiasmFactor e) 1.0 = false.
Proof.
  intros He. apply leb_false. unfold Sliders.enthusiasmFactor.
  rewrite (proj2 (ltb_false e 50)) by lra.
  assert (e - 50 == (e - 50) / 50 * 50) as Hx by field.
  remember ((e - 50) / 50) as x. lra.
Qed.

Lemma enthusiasmFactor_at_zero e : e == 0 -> Sliders.enthusiasmFactor e == 0.2.
Proof.
  intros He. unfold Sliders.enthusiasmFactor.
  rewrite (proj2 (ltb_true e 50)) by lra. rewrite He. reflexivity.
Qed.

(** The pose [blendBone] gives a bone: the position on the line from the
    neutral to the animated position, at the factor; the rotation by
    [slerpQuaternions] up to the factor 1 and by the extrapolation above. *)
Lemma blendBone_pose factor nd bone bone' :
  blendBone M factor nd bone = Some bone' ->
  name bone' = name bone /\ isBone bone' = isBone bone /\
  parent bone' = parent bone /\ children bone' = children bone /\
  position bone'
  = {| vx := vx (neutral_position nd)
             + (vx (position bone) - vx (neutral_position nd)) * factor;
       vy := vy (neutral_position nd)
             + (vy (position bone) - vy (neutral_position nd)) * factor;
       vz := vz (neutral_position nd)
             + (vz (position bone) - vz (neutral_position nd)) * factor |} /\
  (Num.leb factor 1.0 = true ->
   quaternion bone'
   = q_slerpQuaternions M (neutral_rotation nd) (quaternion bone) factor) /\
  (Num.leb factor 1.0 = false ->
   extrapolateRotation M (neutral_rotation nd) (quaternion bone) factor
   = Some (quaternion bone')).
Proof.
  unfold blendBone. destruct (Num.leb factor 1.0) eqn:E.
  - intros [= <-]. by repeat split.
  - destruct (extrapolateRotation _ _ _ _) as [q|] eqn:Hq; [|done].
    cbn. intros [= <-]. by repeat split.
Qed.

Lemma enthusiasmBlock_length e np a a' :
  enthusiasmBlock M e np a = Some a' -> length a' = length a.
Proof.
  unfold enthusiasmBlock. destruct (_ && _); [|by intros [= <-]].
  intros H%mapM_Some. apply Forall2_length in H.
  by rewrite length_imap in H.
Qed.

End EnthusiasmPoseFacts.

Section EnthusiasmLoopFacts.

Import Three ViewerPose RenderLoop.
Local Open Scope Q_scope.

Lemma enthusiasmPass_changes M (changes : list Q) : forall c mixer np a,
  enthusiasmPass M (foldl (fun c e => handleEnthusiasmChange e c) c changes) mixer np a
  = enthusiasmPass M c mixer np a.
Proof.
  induction changes as [|e changes IH]; intros c mixer np a; [done|].
  cbn [foldl]. by rewrite IH.
Qed.

(** What the block leaves of a node. *)
Lemma enthusiasmBlock_node M e np a :
  ~ e == 50 ->
  exists a', enthusiasmBlock M e np a = Some a' /\
    forall i child, a !! i = Some child ->
      exists child', a' !! i = Some child' /\
        enthusiasmVisit M (Sliders.enthusiasmFactor e) np a i child = Some child'.
Proof.
  intros He.
  destruct (enthusiasmBlock_total M e np a) as [a' Ha']. exists a'.
  split; [done|]. intros i child Hi.
  assert (Num.eqb e 50 = false) as He'.
  { destruct (Num.eqb e 50) eqn:E; [|done]. by apply eqb_true in E. }
  destruct (decide (size np = 0%nat)) as [Hz|Hnz].
  - unfold enthusiasmBlock in Ha'. rewrite He', Hz in Ha'. cbn in Ha'.
    injection Ha' as <-. exists child. split; [done|].
    apply map_size_empty_inv in Hz. subst np.
    unfold enthusiasmVisit. rewrite lookup_empty. by destruct (isBone child).
  - apply (enthusiasmBlock_lookup M e np a a' i child He'); [lia|done|done].
Qed.

(** A point a fifth of the way from [n] to [c] is at [n] only if [c] is. *)
Lemma fifth_of_the_way (n c : Vector3) (f : Q) :
  f == 0.2 ->
  let p := {| vx := vx n + (vx c - vx n) * f;
              vy := vy n + (vy c - vy n) * f;
              vz := vz n + (vz c - vz n) * f |} in
  v3_eq p {| vx := vx n + (vx c - vx n) * 0.2;
             vy := vy n + (vy c - vy n) * 0.2;
             vz := vz n + (vz c - vz n) * 0.2 |} /\
  (v3_eq p n <-> v3_eq c n).
Proof.
  intros Hf p. unfold p, v3_eq. cbn. split.
  - rewrite Hf. by repeat split.
  - split; intros (Hx & Hy & Hz); rewrite ?Hf in *; repeat split; lra.
Qed.

End EnthusiasmLoopFacts.

Section EnthusiasmBlendClaims.

Import Three ViewerPose RenderLoop.
Local Open Scope Q_scope.

(** C5, as amended.  The enthusiasm control: input 0 gives the blend
    factor 0.2, input 50 gives 1.0 and input 100 gives 2.0 (on rationals
    and on binary64 numbers alike), with the straight line through
    neighbouring breakpoints in between, so that no input from 0 to 100
    gives a factor below 0.2.  At input 50 the block leaves every joint as
    the animation set it.  At every other input a joint that has a bone as
    parent and a captured neutral pose is put on the line from its neutral
    to its animated position, at the factor, and is given the rotation of
    [slerpQuaternions] at the factor (input below 50) or of the
    extrapolation (input above 50); every other node stays as it is.  At
    input 0 this is the blend at 0.2: the joint is at its neutral position
    only if the animation had left it there.  The input is the one the
    render loop holds: the loop is created once by [initViewer], and
    [handleEnthusiasmChange] changes the state only. *)
Theorem enthusiasm_mapping_and_blend :
  (Sliders.enthusiasmFactor 0 == 0.2 /\
   Sliders.enthusiasmFactor 50 == 1.0 /\
   Sliders.enthusiasmFactor 100 == 2.0) /\
  (forall e, 0 <= e <= 50 ->
     Sliders.enthusiasmFactor e == Num.line_through 0 0.2 50 1.0 e) /\
  (forall e, 50 <= e <= 100 ->
     Sliders.enthusiasmFactor e == Num.line_through 50 1.0 100 2.0 e) /\
  (Sliders.enthusiasmFactor_f64 0 = 0.2%float /\
   Sliders.enthusiasmFactor_f64 50 = 1%float /\
   Sliders.enthusiasmFactor_f64 100 = 2%float) /\
  (forall e, 0 <= e <= 100 -> 0.2 <= Sliders.enthusiasmFactor e <= 2) /\
  (forall M e neutralPoseRef a,
     e == 50 -> enthusiasmBlock M e neutralPoseRef a = Some a) /\
  (forall M e neutralPoseRef a,
     ~ e == 50 ->
     exists a', enthusiasmBlock M e neutralPoseRef a = Some a' /\
       length a' = length a /\
       forall i child, a !! i = Some child ->
         exists child', a' !! i = Some child' /\
           (isBone child = false \/ neutralPoseRef !! i = None \/
            hasBoneParent a child = false -> child' = child) /\
           forall neutralData,
             isBone child = true -> neutralPoseRef !! i = Some neutralData ->
             hasBoneParent a child = true ->
             let factor := Sliders.enthusiasmFactor e in
             let neutral := neutral_position neutralData in
             name child' = name child /\ isBone child' = true /\
             parent child' = parent child /\ children child' = children child /\
             position child'
             = {| vx := vx neutral + (vx (position child) - vx neutral) * factor;
                  vy := vy neutral + (vy (position child) - vy neutral) * factor;
                  vz := vz neutral + (vz (position child) - vz neutral) * factor |} /\
             (e < 50 ->
              quaternion child'
              = q_slerpQuaternions M (neutral_rotation neutralData)
                  (quaternion child) factor) /\
             (50 < e ->
              extrapolateRotation M (neutral_rotation neutralData)
                (quaternion child) factor = Some (quaternion child')) /\
             (e == 0 ->
              v3_eq (position child')
                {| vx := vx neutral + (vx (position child) - vx neutral) * 0.2;
                   vy := vy neutral + (vy (position child) - vy neutral) * 0.2;
                   vz := vz neutral + (vz (position child) - vz neutral) * 0.2 |} /\
              (v3_eq (position child') neutral <->
               v3_eq (position child) neutral))) /\
  (forall M c changes mixer neutralPoseRef a,
     enthusiasmPass M (foldl (fun c e => handleEnthusiasmChange e c) c changes)
       mixer neutralPoseRef a
     = enthusiasmPass M c mixer neutralPoseRef a) /\
  (forall M webgl changes mixer neutralPoseRef a,
     enthusiasmPass M
       (foldl (fun c e => handleEnthusiasmChange e c) (initViewer webgl mounted)
          changes)
       mixer neutralPoseRef a
     = Some a).
Proof.
  split; [by repeat split|].
  split; [intros e [_ He]; by apply enthusiasmFactor_low|].
  split; [intros e [He _]; by apply enthusiasmFactor_high|].
  split; [repeat split; vm_compute; reflexivity|].
  split; [apply enthusiasmFactor_range|].
  split.
  { intros M e np a He. unfold enthusiasmBlock.
    by rewrite (proj2 (eqb_true e 50) He). }
  split; [|split].
  - intros M e np a He.
    destruct (enthusiasmBlock_node M e np a He) as (a' & Ha' & Hnode).
    exists a'. split; [done|].
    split; [by apply (enthusiasmBlock_length M e np)|].
    intros i child Hi. destruct (Hnode i child Hi) as (child' & Hc' & Hv).
    exists child'. split; [done|]. unfold enthusiasmVisit in Hv. split.
    + intros [Hb|[Hn|Hp]].
      * rewrite Hb in Hv. by injection Hv.
      * rewrite Hn in Hv. destruct (isBone child); by injection Hv.
      * rewrite Hp in Hv. destruct (isBone child); [|by injection Hv].
        destruct (np !! i); by injection Hv.
    + intros nd Hb Hn Hp factor neutral. rewrite Hb, Hn, Hp in Hv.
      destruct (blendBone_pose M _ nd child child' Hv)
        as (H1 & H2 & H3 & H4 & Hpos & Hlow & Hhigh).
      split; [done|]. split; [congruence|]. split; [done|]. split; [done|].
      split; [exact Hpos|]. split; [|split].
      * intros Hlt. apply Hlow. by apply enthusiasmFactor_below.
      * intros Hgt. apply Hhigh. by apply enthusiasmFactor_above.
      * intros H0. rewrite Hpos.
        apply fifth_of_the_way. by apply enthusiasmFactor_at_zero.
  - intros M c changes mixer np a. apply enthusiasmPass_changes.
  - intros M webgl changes mixer np a. rewrite enthusiasmPass_changes.
    unfold enthusiasmPass, initViewer, mounted. cbn.
    destruct webgl; [|done]. cbn. by destruct (mixer && true).
Qed.

(** The sample arena at input 0: the spine, a fifth of the way from its
    neutral position (0, 1, 0) to its animated position (1, 2, 3). *)
Lemma enthusiasm_mapping_and_blend_witness :
  exists a' bone',
    enthusiasmBlock Samples.sampleMath 0 Samples.sampleNeutral Samples.sampleArena
    = Some a' /\
    a' !! 1%nat = Some bone' /\
    v3_eq (position bone') {| vx := 0.2; vy := 1.2; vz := 0.6 |}.
Proof.
  destruct (proj1 (proj2 (proj2 (proj2 (proj2 (proj2 (proj2
              enthusiasm_mapping_and_blend))))))
              Samples.sampleMath 0 Samples.sampleNeutral Samples.sampleArena)
    as (a' & Ha' & _ & Hnodes).
  { intros H. discriminate H. }
  destruct (Hnodes 1%nat _ eq_refl) as (bone' & Hb' & _ & Hpose).
  exists a', bone'. split; [exact Ha'|]. split; [exact Hb'|].
  destruct (Hpose {| neutral_position := {| vx := 0; vy := 1; vz := 0 |};
                     neutral_rotation := q_identity |} eq_refl eq_refl eq_refl)
    as (_ & _ & _ & _ & _ & _ & _ & H0).
  destruct (H0 (Qeq_refl 0)) as [(Hx & Hy & Hz) _].
  repeat split; [rewrite Hx|rewrite Hy|rewrite Hz]; reflexivity.
Defined.

(** At input 0 the spine of the sample arena is not at its neutral
    position. *)
Lemma enthusiasm_at_input_zero_is_not_neutral :
  exists a' bone',
    enthusiasmBlock Samples.sampleMath 0 Samples.sampleNeutral Samples.sampleArena
    = Some a' /\
    a' !! 1%nat = Some bone' /\
    Sliders.enthusiasmFactor 0 == 0.2 /\
    ~ v3_eq (position bone') {| vx := 0; vy := 1; vz := 0 |}.
Proof.
  eexists _, _. split; [vm_compute; reflexivity|].
  split; [reflexivity|]. split; [reflexivity|].
  intros (Hx & _). vm_compute in Hx. discriminate Hx.
Qed.

End EnthusiasmBlendClaims.

Section EnthusiasmClaims.

Import Three ViewerPose.
Local Open Scope Q_scope.

(** C10.  The extrapolation branch: the delta quaternion always normalizes,
    the argument of [acos] lies in [-1, 1], and the rotation always has a
    value.  When the sine of the half angle is at most 0.0001 the rotation
    is the captured neutral rotation and nothing is divided; otherwise the
    divisions are by a number above 0.0001.  So the block gives every bone
    a pose, whatever the factor. *)
Theorem extrapolation_is_total (M : Math) (neutral current : Quaternion) (factor : Q) :
  exists deltaQ halfAngle q,
    q_normalize M (q_multiply (q_invert neutral) current) = Some deltaQ /\
    -1 <= Num.clamp (-1) 1 (qw deltaQ) <= 1 /\
    acos_checked M (Num.clamp (-1) 1 (qw deltaQ)) = Some halfAngle /\
    extrapolateRotation M neutral current factor = Some q /\
    (Math_sin M halfAngle <= 0.0001 -> q = neutral) /\
    (0.0001 < Math_sin M halfAngle ->
       exists ax ay az,
         Num.safe_div (qx deltaQ) (Math_sin M halfAngle) = Some ax /\
         Num.safe_div (qy deltaQ) (Math_sin M halfAngle) = Some ay /\
         Num.safe_div (qz deltaQ) (Math_sin M halfAngle) = Some az /\
         q = q_multiply neutral
               (q_setFromAxisAngle M {| vx := ax; vy := ay; vz := az |}
                  (2 * halfAngle * factor))) /\
    (forall neutralData bone, is_Some (blendBone M factor neutralData bone)) /\
    (forall e neutralPoseRef a, is_Some (enthusiasmBlock M e neutralPoseRef a)).
Proof.
  destruct (q_normalize_total M (q_multiply (q_invert neutral) current)) as [deltaQ Hd].
  exists deltaQ, (Math_acos M (Num.clamp (-1) 1 (qw deltaQ))). eexists.
  split; [done|]. split; [apply clamp_in_range|].
  split; [apply acos_checked_clamp|].
  split; [by apply extrapolateRotation_cases|].
  split; [|split; [|split]].
  - intros Hs. by rewrite (proj2 (ltb_false _ _) Hs).
  - intros Hs. rewrite (proj2 (ltb_true _ _) Hs).
    assert (~ Math_sin M (Math_acos M (Num.clamp (-1) 1 (qw deltaQ))) == 0) by lra.
    do 3 eexists. rewrite !safe_div_Some by done. done.
  - intros nd bone. apply blendBone_total.
  - intros e np a. apply enthusiasmBlock_total.
Qed.

End EnthusiasmClaims.

(** ** Skeleton synthesis *)

Section SynthesisFacts.

Import Three AutoRigger.

Lemma map_get_set_ne k k' v (m : BoneMap) :
  k' <> k -> map_get (map_set k' v m) k = map_get m k.
Proof.
  intros Hne. unfold map_get. induction m as [|[k0 v0] m IH]; cbn.
  - by rewrite (proj2 (String.eqb_neq k' k) Hne).
  - destruct (String.eqb k0 k') eqn:E0; cbn.
    + apply String.eqb_eq in E0 as ->.
      by rewrite (proj2 (String.eqb_neq k' k) Hne).
    + destruct (String.eqb k0 k); [done|]. exact IH.
Qed.

(** A key that no placed marker carries is not entered in [boneMap]. *)
Lemma createBones_get_unplaced (ms : list RigMarker) k :
  Forall (fun m => id m = k -> placed m = false) ms ->
  map_get (createBones ms).2 k = None.
Proof.
  unfold createBones.
  assert (forall a bm, Forall (fun m => id m = k -> placed m = false) ms ->
            map_get (foldl (fun '(a, boneMap) marker =>
                        if placed marker
                        then (a ++ [set_name (boneName (id marker)) new_Bone],
                              map_set (id marker) (length a) boneMap)
                        else (a, boneMap)) (a, bm) ms).2 k = map_get bm k) as H.
  { induction ms as [|m ms IH]; intros a bm Hms; [done|].
    apply Forall_cons in Hms as [Hm Hms]. cbn.
    destruct (placed m) eqn:Hp.
    - rewrite IH by done. apply map_get_set_ne.
      intros Hk. specialize (Hm Hk). congruence.
    - by apply IH. }
  intros Hms. by rewrite H.
Qed.

Lemma createBoneHierarchy_without_groin (ms : list RigMarker) :
  Forall (fun m => id m = "groin" -> placed m = false) ms ->
  createBoneHierarchy ms = None.
Proof.
  intros Hms. unfold createBoneHierarchy.
  pose proof (createBones_get_unplaced ms "groin" Hms) as H.
  destruct (createBones ms) as [a bm].
  change (map_get bm "groin" = None) in H. by rewrite H.
Qed.

End SynthesisFacts.

(** The cases of a membership in a list that is written out. *)
Ltac each_member H tac :=
  first
    [ by apply elem_of_nil in H
    | apply elem_of_cons in H as [->|H]; [tac | each_member H tac] ].

(** A list of markers with the 13 ids, all placed, written out. *)
Ltac thirteen ms Hids Hplaced :=
  do 13 (destruct ms as [|[? ? ? ?] ms]; [done|]); destruct ms; [|done];
  unfold AutoRigger.MARKER_IDS in Hids; cbn in Hids; simplify_eq;
  unfold AutoRigger.allMarkersPlaced in Hplaced; cbn in Hplaced;
  repeat (apply andb_prop in Hplaced as [? Hplaced]); subst.

(** Refute a change of position through one of the table children. *)
Ltac refute_child Hc ids :=
  let ids := eval cbv in ids in
  lazymatch ids with
  | ?c :: ?rest =>
      first [ by (exfalso; apply (Hc c);
                  [apply (bool_decide_unpack _); vm_compute; exact I | reflexivity])
            | refute_child Hc rest ]
  end.

Section SynthesisClaims.

Import Three AutoRigger.

(** C1.  With all 13 markers placed, [createBoneHierarchy] returns a
    hierarchy of exactly 13 bones, named after the markers, that is a single
    tree under the groin joint.  The groin joint is the one returned and it
    is stored at the groin marker's position; for every (parent, child) pair
    of the table the child joint hangs under the parent joint and its stored
    position is the child marker's position minus the parent marker's. *)
Theorem synthesis_all_placed (ms : list RigMarker) :
  id <$> ms = MARKER_IDS ->
  allMarkersPlaced ms = true ->
  exists sk,
    createBoneHierarchy ms = Some sk /\
    length (bones sk) = 13%nat /\
    name <$> bones sk = boneName <$> MARKER_IDS /\
    Forall (fun o => isBone o = true) (bones sk) /\
    single_tree sk /\
    (exists groin groinPos,
       jointOf sk "groin" = Some (root sk, groin) /\
       getMarkerPosition ms "groin" = Some groinPos /\
       position groin = groinPos) /\
    Forall (fun '(parentId, childId) =>
              exists ip parentBone ic childBone parentPos childPos,
                jointOf sk parentId = Some (ip, parentBone) /\
                jointOf sk childId = Some (ic, childBone) /\
                parent childBone = Some ip /\
                ic ∈ children parentBone /\
                getMarkerPosition ms parentId = Some parentPos /\
                getMarkerPosition ms childId = Some childPos /\
                position childBone = v3_sub childPos parentPos)
           hierarchy_pairs.
Proof.
  intros Hids Hplaced. thirteen ms Hids Hplaced.
  eexists. split; [lazy -[v3_sub]; reflexivity|].
  split; [reflexivity|]. split; [reflexivity|].
  split; [repeat constructor|].
  split.
  { unfold single_tree. cbn [bones root length].
    split; [eexists; split; reflexivity|].
    split.
    { intros i o Hi Hne.
      do 13 (destruct i as [|i];
             [first [done
                    | cbn in Hi; simplify_eq; do 2 eexists;
                      split; [reflexivity|]; split; [reflexivity|];
                      cbn; set_solver]|]).
      done. }
    split.
    { intros p po c Hp Hc.
      do 13 (destruct p as [|p];
             [cbn in Hp; simplify_eq; cbn in Hc;
              each_member Hc ltac:(eexists; split; reflexivity)|]).
      done. }
    split.
    { vm_compute. apply NoDup_ListNoDup.
      repeat constructor; cbn; intuition congruence. }
    intros i Hi. vm_compute.
    do 13 (destruct i as [|i]; [set_solver|]). cbn in Hi. lia. }
  split; [do 2 eexists; repeat split; reflexivity|].
  repeat (apply Forall_cons; split;
          [do 6 eexists; repeat split; try reflexivity; cbn; set_solver|]).
  constructor.
Qed.

(** The scenario of the specification: all markers at their staging
    positions. *)
Lemma synthesis_all_placed_witness :
  exists sk,
    createBoneHierarchy Samples.stagedMarkers = Some sk /\
    length (bones sk) = 13%nat /\
    exists wrist,
      jointOf sk "leftWrist" = Some (6%nat, wrist) /\
      position wrist = v3_sub {| vx := -2.5; vy := 1.5 - inject_Z 6 * 0.3; vz := 0 |}
                              {| vx := -2.5; vy := 1.5 - inject_Z 4 * 0.3; vz := 0 |}.
Proof.
  destruct (synthesis_all_placed Samples.stagedMarkers eq_refl eq_refl)
    as (sk & Hsk & Hlen & _).
  exists sk. split; [exact Hsk|]. split; [exact Hlen|].
  vm_compute in Hsk. injection Hsk as <-.
  eexists. split; vm_compute; reflexivity.
Defined.

(** C2.  When no placed marker is the groin, [createBoneHierarchy] returns
    no hierarchy and [handleGenerateBones] leaves the scene, the bone group,
    the heap of hierarchies, the line segments and the markers as they
    were; with a viewport at hand the user is shown the error notice. *)
Theorem synthesis_without_groin (s : Rigger) :
  Forall (fun m => id m = "groin" -> placed m = false) (markers s) ->
  createBoneHierarchy (markers s) = None /\
  sceneRef (handleGenerateBones s) = sceneRef s /\
  bonesGroupRef (handleGenerateBones s) = bonesGroupRef s /\
  skeletons (handleGenerateBones s) = skeletons s /\
  skeletonRef (handleGenerateBones s) = skeletonRef s /\
  bonesGenerated (handleGenerateBones s) = bonesGenerated s /\
  markers (handleGenerateBones s) = markers s /\
  toasts (handleGenerateBones s)
  = (if bool_decide (is_Some (skeletonRef s) /\ is_Some (sceneRef s))
     then toasts s ++ [missingRootToast] else toasts s).
Proof.
  intros Hms. pose proof (createBoneHierarchy_without_groin _ Hms) as Hnone.
  split; [done|]. unfold handleGenerateBones. rewrite Hnone.
  destruct (skeletonRef s) as [lines|] eqn:Hl, (sceneRef s) as [scene|] eqn:Hs;
    cbn; rewrite ?Hl, ?Hs; repeat split; try done;
    case_bool_decide as Hd; try done;
    first [ destruct Hd; split; by eexists
          | by destruct Hd as [_ [? ?]]
          | by destruct Hd as [[? ?] _] ].
Qed.

Lemma synthesis_without_groin_witness :
  createBoneHierarchy (markers Samples.groinUnplaced) = None /\
  sceneRef (handleGenerateBones Samples.groinUnplaced)
  = Some [CharacterMesh; MarkersGroup; SkeletonGroup; BoneRoot 0] /\
  bonesGroupRef (handleGenerateBones Samples.groinUnplaced) = Some 0%nat /\
  toasts (handleGenerateBones Samples.groinUnplaced) = [missingRootToast].
Proof.
  assert (Forall (fun m => id m = "groin" -> placed m = false)
                 (markers Samples.groinUnplaced)) as H.
  { vm_compute. repeat constructor; intros; try reflexivity; discriminate. }
  destruct (synthesis_without_groin Samples.groinUnplaced H)
    as (H1 & H2 & H3 & _ & _ & _ & _ & H8).
  split; [exact H1|]. split; [exact H2|]. split; [exact H3|]. exact H8.
Defined.

End SynthesisClaims.

(** ** Re-synthesis in place *)

Section ResynthesisFacts.

Import Three AutoRigger.

Lemma alter_position_identity p i (a : Arena) :
  identity <$> alter (set_position p) i a = identity <$> a.
Proof.
  apply list_eq. intros j. rewrite !list_lookup_fmap.
  destruct (decide (i = j)) as [->|Hne].
  - rewrite list_lookup_alter_eq. by destruct (a !! j).
  - by rewrite list_lookup_alter_ne.
Qed.

Lemma updateBone_identity n p (a : Arena) i :
  identity <$> updateBone n p a i = identity <$> a.
Proof.
  unfold updateBone. destruct (a !! i) as [child|]; [|done].
  destruct (_ && _); [apply alter_position_identity|done].
Qed.

Lemma foldl_identity {B} (f : Arena -> B -> Arena) (l : list B) (a : Arena) :
  (forall a b, identity <$> f a b = identity <$> a) ->
  identity <$> foldl f a l = identity <$> a.
Proof.
  intros Hf. revert a. induction l as [|b l IH]; intros a; [done|].
  cbn. by rewrite IH, Hf.
Qed.

Lemma updateBones_identity ms sk :
  identity <$> bones (updateBones ms sk) = identity <$> bones sk /\
  root (updateBones ms sk) = root sk.
Proof.
  split; [|done]. unfold updateBones. cbn [bones].
  etrans; [apply foldl_identity|].
  - intros a [parentId childrenIds].
    destruct (getMarkerPosition ms parentId); [|done].
    apply foldl_identity. intros a' childId. unfold updateChild.
    destruct (getMarkerPosition ms childId); [|done].
    apply foldl_identity. intros a'' i. apply updateBone_identity.
  - destruct (getMarkerPosition ms "groin"); [apply alter_position_identity|done].
Qed.

Lemma resynthesis_fresh (ms ms' : list RigMarker) sk :
  id <$> ms = MARKER_IDS -> allMarkersPlaced ms = true ->
  id <$> ms' = MARKER_IDS -> allMarkersPlaced ms' = true ->
  createBoneHierarchy ms = Some sk ->
  createBoneHierarchy ms' = Some (updateBones ms' sk).
Proof.
  intros Hids Hplaced Hids' Hplaced' Hsk.
  thirteen ms Hids Hplaced. thirteen ms' Hids' Hplaced'.
  lazy -[v3_sub] in Hsk. injection Hsk as <-.
  lazy -[v3_sub]. reflexivity.
Qed.

Lemma moveMarker_absent d p (ms : list RigMarker) :
  d ∉ id <$> ms -> moveMarker d p ms = ms.
Proof.
  intros Hd. unfold moveMarker. induction ms as [|m ms IH]; [done|].
  cbn in *. apply not_elem_of_cons in Hd as [Hne Hd].
  rewrite (proj2 (String.eqb_neq (id m) d)) by done. by rewrite IH.
Qed.

Lemma resynthesis_local (ms : list RigMarker) d p sk i o o' :
  id <$> ms = MARKER_IDS -> allMarkersPlaced ms = true ->
  createBoneHierarchy ms = Some sk ->
  bones sk !! i = Some o ->
  bones (updateBones (moveMarker d p ms) sk) !! i = Some o' ->
  name o <> boneName d ->
  (forall c, (d, c) ∈ hierarchy_pairs -> name o <> boneName c) ->
  position o' = position o.
Proof.
  intros Hids Hplaced Hsk Hi Hi' Hd Hc.
  destruct (decide (d ∈ MARKER_IDS)) as [Hin|Hout].
  - thirteen ms Hids Hplaced.
    lazy -[v3_sub] in Hsk. injection Hsk as <-.
    unfold MARKER_IDS in Hin.
    each_member Hin ltac:(
      lazy -[v3_sub] in Hi';
      do 13 (destruct i as [|i];
             [cbn in Hi, Hi'; simplify_eq;
              first [ reflexivity
                    | by (exfalso; apply Hd)
                    | refute_child Hc constr:(MARKER_IDS) ]|]);
      done).
  - rewrite (moveMarker_absent d p ms) in Hi' by (by rewrite Hids).
    assert (createBoneHierarchy ms = Some (updateBones ms sk)) as H
      by (by apply (resynthesis_fresh ms ms)).
    rewrite Hsk in H. injection H as H. rewrite <- H in Hi'. congruence.
Qed.

End ResynthesisFacts.

Section ResynthesisClaims.

Import Three AutoRigger.

(** Re-synthesis.  [updateBonesFromMarkers] recomputes positions on the
    bones that exist: names, bone flags, parents and children stay as they
    were, and the bone group stays the same object of the scene.  With all
    markers placed the result is the hierarchy a new synthesis would build.
    After one marker has moved, a bone that is neither that marker's joint
    nor the joint of one of its table children keeps its position. *)
Theorem resynthesis_in_place :
  (forall ms sk,
     identity <$> bones (updateBones ms sk) = identity <$> bones sk /\
     root (updateBones ms sk) = root sk) /\
  (forall s,
     bonesGroupRef (updateBonesFromMarkers s) = bonesGroupRef s /\
     sceneRef (updateBonesFromMarkers s) = sceneRef s /\
     length (skeletons (updateBonesFromMarkers s)) = length (skeletons s)) /\
  (forall ms ms' sk,
     id <$> ms = MARKER_IDS -> allMarkersPlaced ms = true ->
     id <$> ms' = MARKER_IDS -> allMarkersPlaced ms' = true ->
     createBoneHierarchy ms = Some sk ->
     createBoneHierarchy ms' = Some (updateBones ms' sk)) /\
  (forall ms dragged p sk i o o',
     id <$> ms = MARKER_IDS -> allMarkersPlaced ms = true ->
     createBoneHierarchy ms = Some sk ->
     bones sk !! i = Some o ->
     bones (updateBones (moveMarker dragged p ms) sk) !! i = Some o' ->
     name o <> boneName dragged ->
     (forall c, (dragged, c) ∈ hierarchy_pairs -> name o <> boneName c) ->
     position o' = position o).
Proof.
  split; [apply updateBones_identity|]. split.
  - intros s. unfold updateBonesFromMarkers.
    destruct (bonesGroupRef s) as [r|] eqn:Hr, (skeletonRef s); try done.
    destruct (skeletons s !! r); [|done]. cbn. by rewrite length_insert.
  - split; [apply resynthesis_fresh|apply resynthesis_local].
Qed.

(** The staged markers, the wrist marker moved, and the hierarchy updated. *)
Lemma resynthesis_in_place_witness :
  exists sk,
    createBoneHierarchy Samples.stagedMarkers = Some sk /\
    createBoneHierarchy
      (moveMarker "leftWrist" {| vx := 1; vy := 1; vz := 1 |} Samples.stagedMarkers)
    = Some (updateBones
              (moveMarker "leftWrist" {| vx := 1; vy := 1; vz := 1 |}
                 Samples.stagedMarkers) sk).
Proof.
  destruct (createBoneHierarchy Samples.stagedMarkers) as [sk|] eqn:Hsk;
    [|vm_compute in Hsk; discriminate Hsk].
  exists sk. split; [reflexivity|].
  exact (proj1 (proj2 (proj2 resynthesis_in_place)) Samples.stagedMarkers
           (moveMarker "leftWrist" {| vx := 1; vy := 1; vz := 1 |} Samples.stagedMarkers)
           sk eq_refl eq_refl eq_refl eq_refl Hsk).
Defined.

End ResynthesisClaims.

(** ** Dragging a marker *)

Section DragClaims.

Import Three Geometry AutoRigger.
Local Open Scope Q_scope.

(** On a hit of the model the marker goes to the nearest hit, the head of
    the list. *)
Lemma drag_snaps_to_surface ev ms dragged hit rest :
  modelIntersects ev = hit :: rest ->
  newPosition ev ms dragged = Some (point hit).
Proof. intros H. unfold newPosition. by rewrite H. Qed.

(** Off the model, when the ray meets the plane through the marker at
    distance [t], the marker goes to that point of the ray. *)
Lemma drag_moves_on_plane ev ms dragged m t :
  modelIntersects ev = [] ->
  findMarker ms dragged = Some m ->
  distanceToPlane (ray ev)
    (setFromNormalAndCoplanarPoint (cameraDirection ev) (marker_position m)) = Some t ->
  newPosition ev ms dragged = Some (at_ (ray ev) t).
Proof.
  intros H Hm Ht. unfold newPosition, intersectPlane. by rewrite H, Hm, Ht.
Qed.

(** Off the model and off the plane, the marker goes to the origin: the
    vector handed to [intersectPlane] is left at zero and is used. *)
Lemma drag_without_intersection ev ms dragged m :
  modelIntersects ev = [] ->
  findMarker ms dragged = Some m ->
  distanceToPlane (ray ev)
    (setFromNormalAndCoplanarPoint (cameraDirection ev) (marker_position m)) = None ->
  newPosition ev ms dragged = Some v3_zero.
Proof.
  intros H Hm Ht. unfold newPosition, intersectPlane. by rewrite H, Hm, Ht.
Qed.

(** The point the ray reaches at the distance [distanceToPlane] returns
    lies on the plane. *)
Lemma distanceToPlane_on_plane r pl t :
  distanceToPlane r pl = Some t ->
  0 <= t /\ distanceToPoint pl (at_ r t) == 0.
Proof.
  unfold distanceToPlane.
  destruct (Num.eqb (v3_dot (normal pl) (direction r)) 0) eqn:Hden.
  - destruct (Num.eqb (distanceToPoint pl (origin r)) 0) eqn:Hon; [|done].
    intros [= <-]. apply eqb_true in Hon. split; [lra|].
    revert Hon. unfold distanceToPoint, at_, v3_dot; cbn. intros Hon.
    etransitivity; [|exact Hon]. ring.
  - rewrite safe_div_Some by (intros H; apply eqb_true in H; congruence). cbn.
    destruct (Num.leb 0 _) eqn:Hpos; [|done]. intros [= <-].
    apply leb_true in Hpos. split; [done|].
    assert (~ v3_dot (normal pl) (direction r) == 0) as Hne
      by (intros H; apply eqb_true in H; congruence).
    revert Hne. unfold distanceToPoint, at_, v3_dot; cbn. intros Hne.
    field. exact Hne.
Qed.

Lemma coplanar_point_on_plane n p :
  distanceToPoint (setFromNormalAndCoplanarPoint n p) p == 0.
Proof. unfold distanceToPoint, setFromNormalAndCoplanarPoint, v3_dot; cbn. ring. Qed.

(** The drag on the model and on the plane.  Over the model the dragged
    marker is given the point of the first hit, which is the nearest when
    the hits come nearest first.  Beside the model, when the ray meets the
    plane through the marker with the camera direction as normal, the
    marker is given the point where it does so; that point lies on the
    plane, as the marker does. *)
Theorem drag_on_surface_or_plane :
  (forall ev s dragged hit rest,
     cameraRef s = true -> characterMeshRef s = true ->
     draggedMarkerRef s = Some dragged ->
     modelIntersects ev = hit :: rest ->
     markers (handleMouseMove ev s) = moveMarker dragged (point hit) (markers s) /\
     (StronglySorted (fun a b => distance a <= distance b) (hit :: rest) ->
      Forall (fun other => distance hit <= distance other) rest)) /\
  (forall ev s dragged m t,
     cameraRef s = true -> characterMeshRef s = true ->
     draggedMarkerRef s = Some dragged ->
     modelIntersects ev = [] ->
     findMarker (markers s) dragged = Some m ->
     distanceToPlane (ray ev)
       (setFromNormalAndCoplanarPoint (cameraDirection ev) (marker_position m)) = Some t ->
     markers (handleMouseMove ev s) = moveMarker dragged (at_ (ray ev) t) (markers s) /\
     0 <= t /\
     distanceToPoint
       (setFromNormalAndCoplanarPoint (cameraDirection ev) (marker_position m))
       (at_ (ray ev) t) == 0 /\
     distanceToPoint
       (setFromNormalAndCoplanarPoint (cameraDirection ev) (marker_position m))
       (marker_position m) == 0).
Proof.
  split.
  - intros ev s dragged hit rest Hc Hm Hd Hhit. split.
    + unfold handleMouseMove. rewrite Hc, Hm, Hd. cbn.
      by rewrite (drag_snaps_to_surface ev _ dragged hit rest Hhit).
    + intros Hsorted. by apply StronglySorted_inv in Hsorted as [_ H].
  - intros ev s dragged m t Hc Hm Hd Hmiss Hfind Ht.
    destruct (distanceToPlane_on_plane _ _ _ Ht) as [Hpos Hon].
    split; [|split; [done|split; [done|apply coplanar_point_on_plane]]].
    unfold handleMouseMove. rewrite Hc, Hm, Hd. cbn.
    by rewrite (drag_moves_on_plane ev _ dragged m t Hmiss Hfind Ht).
Qed.

(** The chin marker dragged over the model goes to the nearer of two hits. *)
Lemma drag_on_surface_or_plane_witness :
  getMarkerPosition
    (markers (handleMouseMove Samples.pointerOnModel Samples.chinInFront)) "chin"
  = Some {| vx := 0; vy := 0; vz := 0.5 |}.
Proof.
  rewrite (proj1 (proj1 drag_on_surface_or_plane Samples.pointerOnModel
                    Samples.chinInFront "chin" _ _ eq_refl eq_refl eq_refl eq_refl)).
  reflexivity.
Defined.

(** C6, at the input where it fails.  The chin marker lies behind the
    camera and the pointer ray meets neither the model nor the marker's
    plane; [handleMouseMove] moves the marker from (0, 0, 3) to the
    origin. *)
Theorem drag_without_intersection_moves_marker :
  modelIntersects Samples.pointerOffModel = [] /\
  distanceToPlane (ray Samples.pointerOffModel)
    (setFromNormalAndCoplanarPoint (cameraDirection Samples.pointerOffModel)
       {| vx := 0; vy := 0; vz := 3 |}) = None /\
  getMarkerPosition (markers Samples.chinBehindCamera) "chin"
  = Some {| vx := 0; vy := 0; vz := 3 |} /\
  getMarkerPosition
    (markers (handleMouseMove Samples.pointerOffModel Samples.chinBehindCamera)) "chin"
  = Some v3_zero.
Proof. repeat split; vm_compute; reflexivity. Qed.

End DragClaims.

(** ** Loading a clip *)

Section ClipLoadClaims.

Import Viewer.
Local Open Scope Q_scope.

Lemma hasMixamoTracks_spec clip :
  hasMixamoTracks clip = true <->
  exists track, track ∈ clip_tracks clip /\
                startsWith "mixamorig" (track_name track) = true.
Proof.
  unfold hasMixamoTracks. rewrite existsb_exists.
  split; intros (t & Ht & Hp); exists t; (split; [|done]);
    by apply list_elem_of_In.
Qed.

(** The state after a clip has been accepted. *)
Lemma onAnimationLoad_accepted clip rest p :
  hasMixamoTracks clip = true ->
  let p' := onAnimationLoad (clip :: rest) p in
  originalAnimationClipRef p' = Some (length (clips p)) /\
  clips p' !! length (clips p) = Some clip /\
  animationActionRef p' = Some (length (actions p)) /\
  (exists act, actions p' !! length (actions p) = Some act /\
     running act = true /\ paused act = false /\ time act = 0 /\
     (length (clips p) <= action_clip act < length (clips p'))%nat /\
     animationMixerRef p'
     = Some {| actionsByClip := {[ action_clip act := length (actions p) ]} |} /\
     (inPlace p = false -> action_clip act = length (clips p))) /\
  isAnimationPlaying p' = true /\
  inPlace p' = inPlace p /\
  rootBoneRef p' = rootBoneRef p /\
  toasts p' = toasts p ++ [loadedToast (clip_name clip)].
Proof.
  intros Hc. unfold onAnimationLoad. rewrite Hc. cbn.
  assert (forall (l : list AnimationAction) x f,
            alter f (length l) (l ++ [x]) !! length l = Some (f x)) as Halter.
  { intros l x f. by rewrite list_lookup_alter_eq, list_lookup_middle. }
  destruct (inPlace p) eqn:Hin.
  - unfold createInPlaceClip. cbn.
    rewrite list_lookup_middle by done.
    destruct (rootBoneRef p) as [r|] eqn:Hr; cbn;
      rewrite lookup_empty; cbn; rewrite ?Halter;
      rewrite ?lookup_app_l by (rewrite !length_app; cbn; lia);
      rewrite ?list_lookup_middle by done;
      (repeat split; try done); eexists; (split; [first [apply Halter | reflexivity]|]); cbn;
      rewrite ?length_app; cbn; repeat split; try done; try lia;
      try by rewrite insert_empty.
  - cbn. rewrite lookup_empty. cbn. rewrite list_lookup_middle by done.
    (repeat split; try done); eexists; (split; [first [apply Halter | reflexivity]|]); cbn;
      rewrite ?length_app; cbn; repeat split; try done; try lia;
      try by rewrite insert_empty.
Qed.

(** C4, as amended.  A loaded clip is accepted exactly when one of its
    tracks has a name that starts with the rig's prefix.  An accepted clip
    is stored as the original clip and played by a new action.  A clip
    without such a track is answered with the incompatibility notice, which
    is not the notice of a load failure; no action is created, none is
    current that was not before, no clip is stored and the play state stays
    as it was. *)
Theorem compatibility_gate (clip : AnimationClip) (rest : list AnimationClip)
    (p : Playback) :
  let p' := onAnimationLoad (clip :: rest) p in
  (hasMixamoTracks clip = true <->
   exists track, track ∈ clip_tracks clip /\
                 startsWith "mixamorig" (track_name track) = true) /\
  (last (toasts p') = Some (loadedToast (clip_name clip)) <->
   hasMixamoTracks clip = true) /\
  (if hasMixamoTracks clip then
     originalAnimationClipRef p' = Some (length (clips p)) /\
     clips p' !! length (clips p) = Some clip /\
     exists a act, animationActionRef p' = Some a /\
       actions p' !! a = Some act /\ (length (actions p) <= a)%nat /\
       running act = true /\ paused act = false
   else
     toasts p' = toasts p ++ [incompatibleToast] /\
     actions p' = actions p /\
     animationActionRef p' = animationActionRef p /\
     clips p' = clips p /\
     originalAnimationClipRef p' = originalAnimationClipRef p /\
     isAnimationPlaying p' = isAnimationPlaying p) /\
  incompatibleToast <> loadFailureToast.
Proof.
  intros p'. split; [apply hasMixamoTracks_spec|].
  destruct (hasMixamoTracks clip) eqn:Hc.
  - destruct (onAnimationLoad_accepted clip rest p Hc)
      as (Ho & Hcl & Ha & (act & Hact & Hrun & Hp & _) & _ & _ & _ & Ht).
    fold p' in Ho, Hcl, Ha, Hact, Ht.
    split; [|split; [|done]].
    + rewrite Ht, last_snoc. done.
    + split; [done|]. split; [done|]. by exists (length (actions p)), act.
  - assert (p' = toast incompatibleToast
                   (set_animationMixerRef (Some new_AnimationMixer) p)) as ->.
    { unfold p', onAnimationLoad. by rewrite Hc. }
    cbn. split; [|split; [|done]].
    + rewrite last_snoc. split; [intros [=]|done].
    + done.
Qed.

(** The clip without the prefix, loaded into the idle viewer: a mixer is
    there afterwards where none was before. *)
Lemma rejected_clip_leaves_mixer :
  hasMixamoTracks Samples.foreignClip = false /\
  animationMixerRef Samples.idlePlayback = None /\
  animationMixerRef (onAnimationLoad [Samples.foreignClip] Samples.idlePlayback)
  = Some new_AnimationMixer /\
  actions (onAnimationLoad [Samples.foreignClip] Samples.idlePlayback) = [].
Proof. repeat split. Qed.

End ClipLoadClaims.

(** ** In-place playback *)

Section InPlaceFacts.

Import Viewer.
Local Open Scope Q_scope.

Lemma inPlaceEffect_spec c clip p act :
  loaded c clip p -> currentAction p = Some act ->
  let p' := inPlaceEffect p in
  loaded c clip p' /\
  isAnimationPlaying p' = isAnimationPlaying p /\
  inPlace p' = inPlace p /\
  rootBoneRef p' = rootBoneRef p /\
  exists act', currentAction p' = Some act' /\
    time act' = time act /\ paused act' = paused act /\
    running act' = true /\ clipInUse c clip p' act'.
Proof.
  intros (Ho & Hc & m & a & act0 & Hm & Ha & Hact & Hp & Hr & Hlt & Hcache) Hcur.
  assert (act0 = act) as ->.
  { unfold currentAction in Hcur. rewrite Ha in Hcur. cbn in Hcur. congruence. }
  assert (forall k, delete (action_clip act) (actionsByClip m) !! k = None) as Hdel.
  { intros k. destruct (delete _ _ !! k) as [a'|] eqn:E; [|done].
    apply lookup_delete_Some in E as [Hne E]. apply Hcache in E. congruence. }
  assert (forall (l : list AnimationAction) x f,
            alter f (length l) (l ++ [x]) !! length l = Some (f x)) as Halter.
  { intros l x f. by rewrite list_lookup_alter_eq, list_lookup_middle. }
  assert (c < length (clips p))%nat as Hclt by (by eapply lookup_lt_Some).
  unfold inPlaceEffect. rewrite Hm, Ho, Ha, Hcur. cbn.
  unfold uncacheClip. cbn. rewrite Hm. cbn.
  assert (forall n, paused (if isAnimationPlaying p
                            then play (set_time (time act) (reset n))
                            else set_paused true (play (set_time (time act) (reset n))))
                    = paused act) as Hpaused
    by (intros n; rewrite Hp; by destruct (isAnimationPlaying p)).
  assert (forall n, running (if isAnimationPlaying p
                             then play (set_time (time act) (reset n))
                             else set_paused true (play (set_time (time act) (reset n))))
                    = true) as Hrunning
    by (intros n; by destruct (isAnimationPlaying p)).
  assert (forall n, time (if isAnimationPlaying p
                          then play (set_time (time act) (reset n))
                          else set_paused true (play (set_time (time act) (reset n))))
                    = time act) as Htime
    by (intros n; by destruct (isAnimationPlaying p)).
  assert (forall n, action_clip (if isAnimationPlaying p
                          then play (set_time (time act) (reset n))
                          else set_paused true (play (set_time (time act) (reset n))))
                    = action_clip n) as Hclip
    by (intros n; by destruct (isAnimationPlaying p)).
  destruct (inPlace p) eqn:Hin; [destruct (rootBoneRef p) as [r|] eqn:Hroot|].
  - unfold createInPlaceClip. cbn. rewrite Hroot, Hc. cbn.
    rewrite Hdel. cbn. rewrite Halter.
    split.
    { unfold loaded; cbn. split; [done|]. split; [by rewrite lookup_app_l|].
      eexists _, _, _. split; [reflexivity|]. split; [reflexivity|].
      split; [apply Halter|]. rewrite Hpaused, Hrunning, Hclip, Hp. cbn.
      split; [done|]. split; [done|].
      split; [rewrite length_app; cbn; lia|].
      intros k a' Hk. apply lookup_insert_Some in Hk as [[<- _]|[_ Hk]]; [done|].
      by rewrite Hdel in Hk. }
    repeat split; try done.
    eexists. split; [reflexivity|].
    rewrite Htime, Hpaused, Hrunning. repeat split; try done.
    unfold clipInUse. cbn. rewrite Hin, Hroot, Hclip. cbn.
    by rewrite list_lookup_middle.
  - unfold createInPlaceClip. cbn. rewrite Hroot. cbn.
    rewrite Hdel. cbn. rewrite Halter.
    split.
    { unfold loaded; cbn. split; [done|]. split; [done|].
      eexists _, _, _. split; [reflexivity|]. split; [reflexivity|].
      split; [apply Halter|]. rewrite Hpaused, Hrunning, Hclip, Hp. cbn.
      split; [done|]. split; [done|]. split; [done|].
      intros k a' Hk. apply lookup_insert_Some in Hk as [[<- _]|[_ Hk]]; [done|].
      by rewrite Hdel in Hk. }
    repeat split; try done.
    eexists. split; [reflexivity|].
    rewrite Htime, Hpaused, Hrunning. repeat split; try done.
    unfold clipInUse. cbn. by rewrite Hin, Hroot, Hclip.
  - cbn. rewrite Hdel. cbn. rewrite Halter.
    split.
    { unfold loaded; cbn. split; [done|]. split; [done|].
      eexists _, _, _. split; [reflexivity|]. split; [reflexivity|].
      split; [apply Halter|]. rewrite Hpaused, Hrunning, Hclip, Hp. cbn.
      split; [done|]. split; [done|]. split; [done|].
      intros k a' Hk. apply lookup_insert_Some in Hk as [[<- _]|[_ Hk]]; [done|].
      by rewrite Hdel in Hk. }
    repeat split; try done.
    eexists. split; [reflexivity|].
    rewrite Htime, Hpaused, Hrunning. repeat split; try done.
    unfold clipInUse. cbn. by rewrite Hin, Hclip.
Qed.

Lemma loaded_currentAction c clip p :
  loaded c clip p -> exists act, currentAction p = Some act.
Proof.
  intros (_ & _ & m & a & act & _ & Ha & Hact & _). exists act.
  unfold currentAction. by rewrite Ha.
Qed.

Lemma step_loaded c clip p e : loaded c clip p -> loaded c clip (step p e).
Proof.
  intros Hl. destruct e as [enabled| |speed|t]; cbn.
  - unfold handleInPlaceChange. case_bool_decide; [done|].
    assert (loaded c clip (set_inPlace enabled p)) as Hl' by exact Hl.
    destruct (loaded_currentAction _ _ _ Hl') as [act Hact].
    by destruct (inPlaceEffect_spec c clip _ act Hl' Hact) as [? _].
  - destruct Hl as (Ho & Hc & m & a & act & Hm & Ha & Hact & Hp & Hr & Hlt & Hcache).
    unfold handleToggleAnimation. rewrite Ha. unfold loaded.
    destruct (isAnimationPlaying p) eqn:Hplay;
      (split; [done|]; split; [done|]; exists m, a; eexists;
       split; [done|]; split; [done|];
       split; [cbn; by rewrite list_lookup_alter_eq, Hact|]; cbn;
       repeat split; done).
  - destruct Hl as (Ho & Hc & m & a & act & Hm & Ha & Hact & Hp & Hr & Hlt & Hcache).
    unfold handleSpeedChange. cbn. rewrite Ha. unfold loaded.
    split; [done|]; split; [done|]; exists m, a; eexists.
    split; [done|]; split; [done|].
    split; [cbn; by rewrite list_lookup_alter_eq, Hact|]; cbn.
    repeat split; done.
  - destruct Hl as (Ho & Hc & m & a & act & Hm & Ha & Hact & Hp & Hr & Hlt & Hcache).
    unfold frame, currentAction. rewrite Ha. cbn. rewrite Hact.
    unfold loaded. destruct (paused act) eqn:Hpa.
    + split; [done|]; split; [done|]; exists m, a, act. repeat split; try done; congruence.
    + split; [done|]; split; [done|]; exists m, a; eexists.
      split; [done|]; split; [done|].
      split; [cbn; by rewrite list_lookup_alter_eq, Hact|]; cbn.
      repeat split; try done; congruence.
Qed.

Lemma run_loaded c clip p es : loaded c clip p -> loaded c clip (run p es).
Proof.
  revert p. induction es as [|e es IH]; intros p Hl; [done|].
  cbn. apply IH. by apply step_loaded.
Qed.

Lemma onAnimationLoad_loaded clip rest p :
  hasMixamoTracks clip = true ->
  loaded (length (clips p)) clip (onAnimationLoad (clip :: rest) p).
Proof.
  intros Hc.
  destruct (onAnimationLoad_accepted clip rest p Hc)
    as (Ho & Hcl & Ha & (act & Hact & Hrun & Hp & _ & Hlt & Hm & _) & Hplay & _).
  split; [done|]. split; [done|].
  eexists _, _, act. split; [exact Hm|]. split; [exact Ha|]. split; [exact Hact|].
  rewrite Hplay, Hp, Hrun. repeat split; try done; try lia.
  cbn. intros k a' Hk. by apply lookup_singleton_Some in Hk as [-> _].
Qed.

End InPlaceFacts.

Section InPlaceClaims.

Import Viewer.
Local Open Scope Q_scope.

(** C3.  A clip has been loaded and accepted, and any sequence of in-place
    toggles, play/pause toggles, speed changes and frames has passed.  The
    original clip is still the object it was, with the tracks it had.  A
    further in-place toggle leaves it so, keeps the play state, and leaves
    a running action at the time and with the pause flag of the action
    before.  When the toggle changes the mode, the action plays the
    original clip itself, or, with in-place on and a root bone known, a new
    clip with the original's tracks less the root's position tracks; so
    toggling off restores the original track count and names. *)
Theorem in_place_toggling (clip : AnimationClip) (rest : list AnimationClip)
    (p0 : Playback) (es : list Event) :
  hasMixamoTracks clip = true ->
  let c := length (clips p0) in
  let q := run (onAnimationLoad (clip :: rest) p0) es in
  originalAnimationClipRef q = Some c /\
  clips q !! c = Some clip /\
  exists act, currentAction q = Some act /\
    forall enabled,
      let q' := handleInPlaceChange enabled q in
      originalAnimationClipRef q' = Some c /\
      clips q' !! c = Some clip /\
      isAnimationPlaying q' = isAnimationPlaying q /\
      exists act', currentAction q' = Some act' /\
        time act' = time act /\
        paused act' = paused act /\
        running act' = true /\
        (inPlace q <> enabled -> clipInUse c clip q' act') /\
        (inPlace q = true -> enabled = false ->
         exists restored, clips q' !! action_clip act' = Some restored /\
           action_clip act' = c /\
           length (clip_tracks restored) = length (clip_tracks clip) /\
           track_name <$> clip_tracks restored = track_name <$> clip_tracks clip).
Proof.
  intros Hclip c q.
  assert (loaded c clip q) as Hq
    by (apply run_loaded; by apply onAnimationLoad_loaded).
  pose proof Hq as (Ho & Hc & m & a & act & Hm & Ha & Hact & Hp & Hr & _).
  assert (currentAction q = Some act) as Hcur
    by (unfold currentAction; by rewrite Ha).
  split; [done|]. split; [done|]. exists act. split; [done|].
  intros enabled q'. unfold q', handleInPlaceChange.
  case_bool_decide as Hsame.
  - split; [done|]. split; [done|]. split; [done|].
    exists act. repeat split; try done.
    intros Hin ->. congruence.
  - assert (loaded c clip (set_inPlace enabled q)) as Hl by exact Hq.
    destruct (inPlaceEffect_spec c clip _ act Hl Hcur)
      as ((Ho' & Hc' & _) & Hplay & Hin' & _ & act' & Hcur' & Ht & Hpa & Hrun & Huse).
    split; [done|]. split; [done|]. split; [done|].
    exists act'. repeat split; try done.
    intros _ ->. exists clip.
    unfold clipInUse in Huse. rewrite Hin' in Huse. cbn in Huse.
    rewrite Huse. done.
Qed.

(** The sample clip, loaded into the idle viewer and taken through the
    sample toggles. *)
Lemma in_place_toggling_witness :
  clips (run (onAnimationLoad [Samples.walkClip] Samples.idlePlayback) Samples.toggles)
    !! 0%nat = Some Samples.walkClip.
Proof.
  exact (proj1 (proj2 (in_place_toggling Samples.walkClip [] Samples.idlePlayback
                         Samples.toggles eq_refl))).
Defined.

End InPlaceClaims.

(** ** Request-id fencing *)

Section Fencing.

Variable C : LoadingComponent.

Hypothesis ids_grow : forall s e, lc_requestId C s <= lc_requestId C (lc_step C s e).
Hypothesis issue_increments :
  forall s url, lc_issues C url s ->
    lc_requestId C (lc_step C s (lc_issue C url)) = S (lc_requestId C s).
Hypothesis stale_discarded :
  forall s r o, r <> lc_requestId C s ->
    (forall x, lc_inScene C x (lc_step C s (lc_deliver C r o)) <-> lc_inScene C x s) /\
    Loaded o ∈ lc_disposed C (lc_step C s (lc_deliver C r o)).
Hypothesis others_keep_out :
  forall s e o, (forall r, e <> lc_deliver C r o) ->
    ~ lc_inScene C (Loaded o) s -> ~ lc_inScene C (Loaded o) (lc_step C s e).
Hypothesis disposed_grows :
  forall s e x, x ∈ lc_disposed C s -> x ∈ lc_disposed C (lc_step C s e).

Lemma run_ids_grow s es : lc_requestId C s <= lc_requestId C (lc_run C s es).
Proof.
  revert s. induction es as [|e es IH]; intros s; cbn; [lia|].
  etrans; [apply (ids_grow s e)|apply IH].
Qed.

Lemma run_keeps_out s es o :
  Forall (fun e => forall r, e <> lc_deliver C r o) es ->
  ~ lc_inScene C (Loaded o) s -> ~ lc_inScene C (Loaded o) (lc_run C s es).
Proof.
  revert s. induction es as [|e es IH]; intros s Hes Hs; [done|].
  apply Forall_cons in Hes as [He Hes]. cbn. apply IH; [done|].
  by apply others_keep_out.
Qed.

Lemma run_disposed_grows s es x :
  x ∈ lc_disposed C s -> x ∈ lc_disposed C (lc_run C s es).
Proof.
  revert s. induction es as [|e es IH]; intros s Hs; [done|].
  cbn. apply IH. by apply disposed_grows.
Qed.

Lemma fencing_superseded : superseded_never_shown C.
Proof.
  intros s0 urlA between urlB later o after HA sA a s1 HB s2 Hout Hafter s3.
  assert (a <> lc_requestId C s2) as Hstale.
  { pose proof (run_ids_grow sA between) as H1.
    pose proof (issue_increments s1 urlB HB) as H2.
    pose proof (run_ids_grow (lc_step C s1 (lc_issue C urlB)) later) as H3.
    fold s1 in H1. fold s2 in H3. unfold a. lia. }
  destruct (stale_discarded s2 a o Hstale) as [Hsame Hdisp].
  split; [done|]. split; [done|]. split.
  - apply run_keeps_out; [done|]. intros Hin. apply Hout. by apply Hsame.
  - by apply run_disposed_grows.
Qed.

Lemma fencing_latest_only : latest_only C.
Proof.
  intros s r o Hout Hin.
  destruct (decide (r = lc_requestId C s)) as [|Hne]; [done|].
  destruct (stale_discarded s r o Hne) as [Hsame _].
  by apply Hsame in Hin.
Qed.

End Fencing.

Section ViewerFencing.
Import ViewerLoad.

Lemma loadPlaceholder_requestId s :
  loadRequestIdRef (loadPlaceholder s) = loadRequestIdRef s.
Proof. unfold loadPlaceholder. by destruct (sceneRef s). Qed.

Lemma loadPlaceholder_disposed s : disposed (loadPlaceholder s) = disposed s.
Proof. unfold loadPlaceholder. by destruct (sceneRef s). Qed.

Lemma viewer_ids_grow s e : loadRequestIdRef s <= loadRequestIdRef (step s e).
Proof.
  destruct e as [url|r o|r]; cbn.
  - unfold modelEffect. destruct (sceneRef s); [|lia].
    destruct (negb (hasWebGL s) || negb (isRendererReady s)); [lia|].
    destruct (meshRef s), url as [url|];
      try destruct (Url.truthy url && Url.loadable url);
      rewrite ?loadPlaceholder_requestId; cbn; lia.
  - unfold onLoad. case_bool_decide; cbn; [lia|]. destruct (sceneRef s); cbn; lia.
  - unfold onError. case_bool_decide; cbn; [lia|].
    rewrite loadPlaceholder_requestId. lia.
Qed.

Lemma viewer_issue_increments s url :
  issues s -> loadRequestIdRef (modelEffect url s) = S (loadRequestIdRef s).
Proof.
  intros ([scene Hs] & Hw & Hr). unfold modelEffect. rewrite Hs, Hw, Hr. cbn.
  destruct (meshRef s), url as [url|];
    try destruct (Url.truthy url && Url.loadable url);
    by rewrite ?loadPlaceholder_requestId.
Qed.

Lemma viewer_stale_discarded s r o :
  r <> loadRequestIdRef s ->
  (forall x, inScene x (onLoad r o s) <-> inScene x s) /\
  Loaded o ∈ disposed (onLoad r o s).
Proof.
  intros Hne. unfold onLoad. rewrite bool_decide_eq_true_2 by done.
  split; [done|]. cbn. set_solver.
Qed.

Lemma inScene_loadPlaceholder s o :
  inScene (Loaded o) (loadPlaceholder s) -> inScene (Loaded o) s.
Proof.
  unfold loadPlaceholder. destruct (sceneRef s) as [scene|] eqn:Hs; [|done].
  unfold inScene; cbn. intros [(sc & [= <-] & Hin)|[=]].
  apply elem_of_app in Hin as [Hin|Hin%list_elem_of_singleton]; [|done].
  left. rewrite Hs. by exists scene.
Qed.

Lemma viewer_others_keep_out s e o :
  (forall r, e <> OnLoad r o) ->
  ~ inScene (Loaded o) s -> ~ inScene (Loaded o) (step s e).
Proof.
  intros He Hout. destruct e as [url|r o'|r]; cbn.
  - unfold modelEffect. destruct (sceneRef s) as [scene|] eqn:Hs; [|done].
    destruct (negb (hasWebGL s) || negb (isRendererReady s)); [done|].
    assert (Loaded o ∉ scene) as Hscene.
    { intros Hin. apply Hout. left. by exists scene. }
    assert (forall s', sceneRef s' = Some scene \/
                       (exists mesh, sceneRef s' = Some (filter (fun c => c <> mesh) scene)) ->
                       meshRef s' = None \/ meshRef s' = meshRef s ->
                       ~ inScene (Loaded o) s') as Hclean.
    { intros s' Hsc Hme [(sc & Hsc' & Hin)|Hm].
      - destruct Hsc as [Hsc|[mesh Hsc]]; rewrite Hsc in Hsc'; simplify_eq; [done|].
        apply list_elem_of_filter in Hin as [_ Hin]. done.
      - destruct Hme as [Hme|Hme]; [congruence|].
        apply Hout. right. congruence. }
    destruct (meshRef s) as [mesh|] eqn:Hmesh, url as [url|];
      try destruct (Url.truthy url && Url.loadable url);
      try (intros Hin%inScene_loadPlaceholder; revert Hin);
      apply Hclean; cbn; eauto.
  - assert (o' <> o) as Hne by (intros ->; by apply (He r)).
    unfold onLoad. case_bool_decide; [done|].
    destruct (sceneRef s) as [scene|] eqn:Hs; [|done].
    unfold inScene; cbn. intros [(sc & [= <-] & Hin)|[= ->]]; [|done].
    apply elem_of_app in Hin as [Hin|Hin%list_elem_of_singleton]; [|congruence].
    apply Hout. left. by exists scene.
  - unfold onError. case_bool_decide; [done|].
    intros Hin. apply Hout. apply inScene_loadPlaceholder.
    destruct Hin as [Hin|Hin]; [left|right]; exact Hin.
Qed.

Lemma viewer_disposed_grows s e x : x ∈ disposed s -> x ∈ disposed (step s e).
Proof.
  intros Hx. destruct e as [url|r o|r]; cbn.
  - unfold modelEffect. destruct (sceneRef s); [|done].
    destruct (negb (hasWebGL s) || negb (isRendererReady s)); [done|].
    destruct (meshRef s), url as [url|];
      try destruct (Url.truthy url && Url.loadable url);
      rewrite ?loadPlaceholder_disposed; cbn; set_solver.
  - unfold onLoad. case_bool_decide; cbn; [set_solver|]. by destruct (sceneRef s).
  - unfold onError. case_bool_decide; cbn; [done|].
    by rewrite loadPlaceholder_disposed.
Qed.

End ViewerFencing.

Section ReplacerFencing.
Import Replacer.

Lemma finally_fields r s :
  sceneRef (finally r s) = sceneRef s /\
  characterMeshRef (finally r s) = characterMeshRef s /\
  disposed (finally r s) = disposed s /\
  loadRequestIdRef (finally r s) = loadRequestIdRef s.
Proof. unfold finally. by case_bool_decide. Qed.

Lemma inScene_finally x r s : inScene x (finally r s) <-> inScene x s.
Proof.
  destruct (finally_fields r s) as (H1 & H2 & _). unfold inScene. by rewrite H1, H2.
Qed.

Lemma resume_requestId r obj s :
  loadRequestIdRef (loadModel_resume r obj s) = loadRequestIdRef s.
Proof.
  unfold loadModel_resume.
  case_bool_decide; rewrite (proj2 (proj2 (proj2 (finally_fields _ _)))).
  - by destruct obj.
  - destruct (sceneRef s), obj; try done. by destruct (cameraRef s && controlsRef s).
Qed.

Lemma resume_disposed r obj s x :
  x ∈ disposed s -> x ∈ disposed (loadModel_resume r obj s).
Proof.
  intros Hx. unfold loadModel_resume.
  case_bool_decide; rewrite (proj1 (proj2 (proj2 (finally_fields _ _)))).
  - destruct obj; cbn; set_solver.
  - destruct (sceneRef s), obj; try done. by destruct (cameraRef s && controlsRef s).
Qed.

(** Without an object, [loadModel] shows nothing new. *)
Lemma resume_null_keeps_out r s o :
  ~ inScene (Loaded o) s -> ~ inScene (Loaded o) (loadModel_resume r None s).
Proof.
  intros Hout. unfold loadModel_resume.
  case_bool_decide; rewrite inScene_finally; [done|]. by destruct (sceneRef s).
Qed.

Lemma replacer_ids_grow s e : loadRequestIdRef s <= loadRequestIdRef (step s e).
Proof.
  destruct e as [url|r o|r]; cbn.
  - unfold modelEffect. destruct url as [url|], (sceneRef s); try lia.
    destruct (negb (isOpen s) || negb (Url.truthy url) || negb (isRendererReady s)); [lia|].
    destruct (loadable url); [cbn; lia|]. rewrite resume_requestId. cbn. lia.
  - rewrite resume_requestId. lia.
  - unfold loadModel_catch. rewrite (proj2 (proj2 (proj2 (finally_fields _ _)))).
    destruct (_ && _); cbn; lia.
Qed.

Lemma replacer_issue_increments s url :
  issues url s -> loadRequestIdRef (modelEffect url s) = S (loadRequestIdRef s).
Proof.
  intros ((u & -> & Hu) & [scene Hs] & Ho & Hr).
  unfold modelEffect. rewrite Hs, Ho, Hu, Hr. cbn.
  destruct (loadable u); [done|]. by rewrite resume_requestId.
Qed.

Lemma replacer_stale_discarded s r o :
  r <> loadRequestIdRef s ->
  (forall x, inScene x (loadModel_resume r (Some o) s) <-> inScene x s) /\
  Loaded o ∈ disposed (loadModel_resume r (Some o) s).
Proof.
  intros Hne. unfold loadModel_resume. rewrite bool_decide_eq_true_2 by done.
  split.
  - intros x. by rewrite inScene_finally.
  - rewrite (proj1 (proj2 (proj2 (finally_fields _ _)))). cbn. set_solver.
Qed.

Lemma replacer_others_keep_out s e o :
  (forall r, e <> Resolved r o) ->
  ~ inScene (Loaded o) s -> ~ inScene (Loaded o) (step s e).
Proof.
  intros He Hout. destruct e as [url|r o'|r]; cbn.
  - unfold modelEffect. destruct url as [url|], (sceneRef s) as [scene|] eqn:Hs; try done.
    destruct (negb (isOpen s) || negb (Url.truthy url) || negb (isRendererReady s)); [done|].
    assert (~ inScene (Loaded o)
              {| isOpen := isOpen s; sceneRef := Some scene; cameraRef := cameraRef s;
                 controlsRef := controlsRef s; characterMeshRef := characterMeshRef s;
                 loadRequestIdRef := S (loadRequestIdRef s);
                 isRendererReady := isRendererReady s; isLoading := true;
                 disposed := disposed s; toasts := toasts s |}) as Hout'.
    { unfold inScene in *. cbn. by rewrite Hs in Hout. }
    destruct (loadable url); [done|]. by apply resume_null_keeps_out.
  - assert (o' <> o) as Hne by (intros ->; by apply (He r)).
    unfold loadModel_resume. case_bool_decide; rewrite inScene_finally.
    + unfold inScene in *. by cbn.
    + destruct (sceneRef s) as [scene|] eqn:Hs; [|done].
      assert (Loaded o ∉ scene) as Hscene.
      { intros Hin. apply Hout. left. by exists scene. }
      assert (characterMeshRef s <> Some (Loaded o)) as Hmesh.
      { intros Hm. apply Hout. by right. }
      destruct (cameraRef s && controlsRef s); unfold inScene; cbn;
        (intros [(sc & [= <-] & Hin)|Hm]; [|congruence]).
      * apply elem_of_app in Hin as [Hin|Hin%list_elem_of_singleton]; [|congruence].
        destruct (characterMeshRef s);
          [apply list_elem_of_filter in Hin as [_ Hin]|]; done.
      * destruct (characterMeshRef s);
          [apply list_elem_of_filter in Hin as [_ Hin]|]; done.
  - unfold loadModel_catch. rewrite inScene_finally.
    destruct (_ && _); [|done]. unfold inScene in *. by cbn.
Qed.

Lemma replacer_disposed_grows s e x : x ∈ disposed s -> x ∈ disposed (step s e).
Proof.
  intros Hx. destruct e as [url|r o|r]; cbn.
  - unfold modelEffect. destruct url as [url|], (sceneRef s); try done.
    destruct (negb (isOpen s) || negb (Url.truthy url) || negb (isRendererReady s)); [done|].
    destruct (loadable url); [done|]. by apply resume_disposed.
  - by apply resume_disposed.
  - unfold loadModel_catch. rewrite (proj1 (proj2 (proj2 (finally_fields _ _)))).
    by destruct (_ && _).
Qed.

End ReplacerFencing.

(** C7.  In the viewer and in the skeleton replacer alike: when a request
    A is issued, a request B is issued while A is in flight, and then the
    object of A arrives, the arrival leaves what the scene shows as it is
    and disposes the object, and the object is not shown at any later time;
    and an object that does enter the scene on its arrival belongs to the
    request issued last. *)
Theorem request_id_fencing :
  superseded_never_shown viewerLoading /\ latest_only viewerLoading /\
  superseded_never_shown replacerLoading /\ latest_only replacerLoading.
Proof.
  split; [|split; [|split]].
  - apply fencing_superseded.
    + apply viewer_ids_grow.
    + intros s url. apply viewer_issue_increments.
    + apply viewer_stale_discarded.
    + apply viewer_others_keep_out.
    + apply viewer_disposed_grows.
  - apply fencing_latest_only. apply viewer_stale_discarded.
  - apply fencing_superseded.
    + apply replacer_ids_grow.
    + apply replacer_issue_increments.
    + apply replacer_stale_discarded.
    + apply replacer_others_keep_out.
    + apply replacer_disposed_grows.
  - apply fencing_latest_only. apply replacer_stale_discarded.
Qed.

(** Model B is requested while model A loads; B arrives as object 7, then A
    as object 5. *)
Lemma request_id_fencing_witness :
  ~ ViewerLoad.inScene (Loaded 5)
      (ViewerLoad.run Samples.readyViewer
         [ ViewerLoad.ModelEffect (Some "a.fbx"); ViewerLoad.ModelEffect (Some "b.glb");
           ViewerLoad.OnLoad 2 7; ViewerLoad.OnLoad 1 5 ]) /\
  Loaded 5 ∈ ViewerLoad.disposed
      (ViewerLoad.run Samples.readyViewer
         [ ViewerLoad.ModelEffect (Some "a.fbx"); ViewerLoad.ModelEffect (Some "b.glb");
           ViewerLoad.OnLoad 2 7; ViewerLoad.OnLoad 1 5 ]).
Proof.
  assert (ViewerLoad.issues Samples.readyViewer) as Hready
    by (split; [by eexists|split; reflexivity]).
  assert (ViewerLoad.issues
            (ViewerLoad.modelEffect (Some "a.fbx") Samples.readyViewer)) as Hready'
    by (split; [by eexists|split; reflexivity]).
  destruct (proj1 request_id_fencing Samples.readyViewer (Some "a.fbx") []
              (Some "b.glb") [ViewerLoad.OnLoad 2 7] 5%nat [] Hready Hready')
    as (_ & _ & Hout & Hdisp).
  - intros [(scene & [= <-] & Hin)|[=]].
    apply list_elem_of_singleton in Hin. discriminate Hin.
  - constructor.
  - split; [exact Hout|exact Hdisp].
Defined.

(** ** Normalization of a loaded model *)

Section NormalizationFacts.

Import Three Geometry.
Local Open Scope Q_scope.

Lemma Qmin_list_ext x x' l l' :
  x == x' -> Forall2 Qeq l l' -> Qmin_list x l == Qmin_list x' l'.
Proof.
  intros Hx Hl. revert x x' Hx.
  induction Hl as [|y y' l l' Hy Hl IH]; intros x x' Hx; cbn; [done|].
  apply IH. by rewrite Hx, Hy.
Qed.

Lemma Qmax_list_ext x x' l l' :
  x == x' -> Forall2 Qeq l l' -> Qmax_list x l == Qmax_list x' l'.
Proof.
  intros Hx Hl. revert x x' Hx.
  induction Hl as [|y y' l l' Hy Hl IH]; intros x x' Hx; cbn; [done|].
  apply IH. by rewrite Hx, Hy.
Qed.

Lemma Qmin_affine a k x y : 0 <= k -> Qmin (a + x * k) (a + y * k) == a + Qmin x y * k.
Proof.
  intros Hk.
  destruct (Q.min_spec x y) as [[H ->]|[H ->]];
    destruct (Q.min_spec (a + x * k) (a + y * k)) as [[H' ->]|[H' ->]];
    try reflexivity; nra.
Qed.

Lemma Qmax_affine a k x y : 0 <= k -> Qmax (a + x * k) (a + y * k) == a + Qmax x y * k.
Proof.
  intros Hk.
  destruct (Q.max_spec x y) as [[H ->]|[H ->]];
    destruct (Q.max_spec (a + x * k) (a + y * k)) as [[H' ->]|[H' ->]];
    try reflexivity; nra.
Qed.

Lemma Qmin_list_affine a k x l :
  0 <= k ->
  Qmin_list (a + x * k) ((fun y => a + y * k) <$> l) == a + Qmin_list x l * k.
Proof.
  intros Hk. revert x. induction l as [|y l IH]; intros x; cbn; [reflexivity|].
  rewrite <- IH. apply Qmin_list_ext; [by apply Qmin_affine|].
  apply Forall2_same_length_lookup. split; [done|]. intros i u v Hu Hv.
  rewrite Hu in Hv. by injection Hv as ->.
Qed.

Lemma Qmax_list_affine a k x l :
  0 <= k ->
  Qmax_list (a + x * k) ((fun y => a + y * k) <$> l) == a + Qmax_list x l * k.
Proof.
  intros Hk. revert x. induction l as [|y l IH]; intros x; cbn; [reflexivity|].
  rewrite <- IH. apply Qmax_list_ext; [by apply Qmax_affine|].
  apply Forall2_same_length_lookup. split; [done|]. intros i u v Hu Hv.
  rewrite Hu in Hv. by injection Hv as ->.
Qed.

(** The box of points that are moved by [P] after a scaling by [k]. *)
Lemma box_of_affine (pts : list Vector3) (f g : Vector3 -> Vector3) (P : Vector3) k mn mx :
  0 <= k ->
  (forall v, v3_eq (g v) (v3_add P (v3_multiplyScalar (f v) k))) ->
  box_of_points (f <$> pts) = Some (mn, mx) ->
  exists mn' mx',
    box_of_points (g <$> pts) = Some (mn', mx') /\
    v3_eq mn' (v3_add P (v3_multiplyScalar mn k)) /\
    v3_eq mx' (v3_add P (v3_multiplyScalar mx k)).
Proof.
  intros Hk Hg Hbox. destruct pts as [|p pts]; [done|].
  cbn in Hbox. injection Hbox as <- <-. cbn.
  do 2 eexists. split; [reflexivity|].
  assert (forall (proj : Vector3 -> Q) (a : Q),
            (forall v, proj (g v) == a + proj (f v) * k) ->
            Forall2 Qeq (proj <$> (g <$> pts))
                        ((fun y => a + y * k) <$> (proj <$> (f <$> pts)))) as Hall.
  { intros proj a Hp. rewrite <- !list_fmap_compose.
    apply Forall2_fmap, Forall_Forall2_diag, Forall_forall. intros v _. apply Hp. }
  unfold v3_eq; cbn.
  repeat split.
  - rewrite <- Qmin_list_affine by done.
    apply Qmin_list_ext; [apply Hg|]. apply Hall. intros v. apply Hg.
  - rewrite <- Qmin_list_affine by done.
    apply Qmin_list_ext; [apply Hg|]. apply Hall. intros v. apply Hg.
  - rewrite <- Qmin_list_affine by done.
    apply Qmin_list_ext; [apply Hg|]. apply Hall. intros v. apply Hg.
  - rewrite <- Qmax_list_affine by done.
    apply Qmax_list_ext; [apply Hg|]. apply Hall. intros v. apply Hg.
  - rewrite <- Qmax_list_affine by done.
    apply Qmax_list_ext; [apply Hg|]. apply Hall. intros v. apply Hg.
  - rewrite <- Qmax_list_affine by done.
    apply Qmax_list_ext; [apply Hg|]. apply Hall. intros v. apply Hg.
Qed.


Lemma maxDim_pos_box o :
  0 < maxDim o -> exists mn mx, setFromObject o = Some (mn, mx).
Proof.
  unfold maxDim. destruct (setFromObject o) as [[mn mx]|]; [by eexists _, _|].
  cbn. intros H. vm_compute in H. discriminate H.
Qed.

(** A model that is moved to [P] after a scaling by [k], with [P] as the
    two [onLoad] callbacks compute it, is on the grid and centred. *)
Lemma normalized_on_grid (o o' : Model) k mn mx :
  0 <= k ->
  setFromObject o = Some (mn, mx) ->
  m_points o' = m_points o ->
  m_position o'
  = {| vx := - vx (v3_multiplyScalar (getCenter (Some (mn, mx))) k);
       vy := -2 - vy (v3_multiplyScalar mn k);
       vz := - vz (v3_multiplyScalar (getCenter (Some (mn, mx))) k) |} ->
  (forall v, v3_eq (localToWorld o' v)
               (v3_add (m_position o') (v3_multiplyScalar (localToWorld o v) k))) ->
  on_grid_and_centred o'.
Proof.
  intros Hk Hbox Hpts Hpos Hworld.
  unfold setFromObject, worldPoints in Hbox.
  destruct (box_of_affine (m_points o) (localToWorld o) (localToWorld o')
              (m_position o') k mn mx Hk Hworld Hbox)
    as (mn' & mx' & Hbox' & (Hx1 & Hy1 & Hz1) & (Hx2 & Hy2 & Hz2)).
  exists mn', mx'. unfold setFromObject, worldPoints. rewrite Hpts.
  split; [done|]. rewrite Hpos in *. cbn in *.
  split; [rewrite Hy1; ring|].
  split; [rewrite Hx1, Hx2|rewrite Hz1, Hz2]; ring.
Qed.

Lemma scale_nonneg a d : 0 < a -> 0 < d -> 0 <= a / d.
Proof. intros Ha Hd. apply Qle_shift_div_l; [done|]. lra. Qed.

Lemma rigger_normalize_on_grid (o : Model) :
  v3_eq (m_position o) v3_zero ->
  v3_eq (m_scale o) {| vx := 1; vy := 1; vz := 1 |} ->
  0 < maxDim o ->
  exists o', AutoRigger.onLoad_normalize o = Some o' /\ on_grid_and_centred o'.
Proof.
  intros (Hx & Hy & Hz) (Sx & Sy & Sz) Hdim.
  destruct (maxDim_pos_box o Hdim) as (mn & mx & Hbox).
  unfold AutoRigger.onLoad_normalize. fold (maxDim o).
  rewrite safe_div_Some by lra. rewrite Hbox. cbn.
  eexists. split; [reflexivity|].
  eapply (normalized_on_grid o _ (3 / maxDim o) mn mx);
    [by apply scale_nonneg|done|done|done|].
  intros v. unfold v3_eq, localToWorld; cbn in *.
  rewrite Hx, Hy, Hz, Sx, Sy, Sz. repeat split; ring.
Qed.

(** The box of a model the viewer has normalized, for any place and scale
    of the root object: the least Y and the centre are off the grid by the
    position the root had, times the scale factor. *)
Lemma viewer_normalize_box (o : Model) :
  0 < maxDim o ->
  exists o' mn' mx',
    ViewerLoad.onLoad_normalize o = Some o' /\
    setFromObject o' = Some (mn', mx') /\
    vy mn' == -2 - 4 / maxDim o * vy (m_position o) /\
    vx (getCenter (Some (mn', mx'))) == - (4 / maxDim o * vx (m_position o)) /\
    vz (getCenter (Some (mn', mx'))) == - (4 / maxDim o * vz (m_position o)).
Proof.
  intros Hdim.
  destruct (maxDim_pos_box o Hdim) as (mn & mx & Hbox).
  unfold ViewerLoad.onLoad_normalize. fold (maxDim o).
  rewrite safe_div_Some by lra. rewrite Hbox. cbn.
  set (k := 4 / maxDim o).
  set (o' := {| m_position := _ |}).
  assert (0 <= k) as Hk by (by apply scale_nonneg).
  destruct (box_of_affine (m_points o) (localToWorld o) (localToWorld o')
              (v3_sub (m_position o') (v3_multiplyScalar (m_position o) k))
              k mn mx Hk)
    as (mn' & mx' & Hbox' & (Hx1 & Hy1 & Hz1) & (Hx2 & Hy2 & Hz2)).
  - intros v. unfold v3_eq, localToWorld. cbn. repeat split; ring.
  - exact Hbox.
  - exists o', mn', mx'. split; [done|]. split; [exact Hbox'|].
    cbn in *. fold k. split; [rewrite Hy1; ring|].
    split; [rewrite Hx1, Hx2|rewrite Hz1, Hz2]; ring.
Qed.

Lemma scale_pos a d : 0 < a -> 0 < d -> 0 < a / d.
Proof. intros Ha Hd. apply Qlt_shift_div_l; [done|]. lra. Qed.

Lemma Qmult_pos_zero k x : 0 < k -> k * x == 0 -> x == 0.
Proof. intros Hk H. nra. Qed.

End NormalizationFacts.

Section NormalizationClaims.

Import Three Geometry.
Local Open Scope Q_scope.

(** C8.  The normalization takes the box of the model in the world and
    then scales and places the root object as if that object were at the
    origin.  In the viewer, a model with a positive largest dimension ends
    with the least Y of its box at -2 minus the former Y of the root
    object times the scale factor, and with its centre off X = 0 and Z = 0
    in the same way: its feet are on the grid, and it is centred, exactly
    when the root object was at the origin.  The cube of side 1 whose
    root object is at (1, 1, 1) with the scale 2 ends with its least Y at
    -4 in the viewer and at -2.75 in the auto-rigger.  With the root object
    at the origin (in the auto-rigger: and the scale 1) both put the model
    on the grid; a model without geometry is given no scale at all. *)
Theorem normalization_misses_the_grid :
  (forall o : Model,
     0 < maxDim o ->
     exists o' mn' mx',
       ViewerLoad.onLoad_normalize o = Some o' /\
       setFromObject o' = Some (mn', mx') /\
       vy mn' == -2 - 4 / maxDim o * vy (m_position o) /\
       vx (getCenter (Some (mn', mx'))) == - (4 / maxDim o * vx (m_position o)) /\
       vz (getCenter (Some (mn', mx'))) == - (4 / maxDim o * vz (m_position o)) /\
       (on_grid_and_centred o' <-> v3_eq (m_position o) v3_zero)) /\
  (exists o' mn' mx',
     ViewerLoad.onLoad_normalize MoreSamples.offsetCube = Some o' /\
     setFromObject o' = Some (mn', mx') /\
     vy mn' == -4 /\ ~ on_grid_and_centred o') /\
  (exists o' mn' mx',
     AutoRigger.onLoad_normalize MoreSamples.offsetCube = Some o' /\
     setFromObject o' = Some (mn', mx') /\
     vy mn' == -2.75 /\ ~ on_grid_and_centred o') /\
  (forall o : Model,
     v3_eq (m_position o) v3_zero ->
     v3_eq (m_scale o) {| vx := 1; vy := 1; vz := 1 |} ->
     0 < maxDim o ->
     exists o', AutoRigger.onLoad_normalize o = Some o' /\ on_grid_and_centred o') /\
  (setFromObject Samples.bonesOnly = None /\
   maxDim Samples.bonesOnly == 0 /\
   ViewerLoad.onLoad_normalize Samples.bonesOnly = None /\
   AutoRigger.onLoad_normalize Samples.bonesOnly = None).
Proof.
  split; [|split; [|split; [|split]]].
  - intros o Hdim.
    destruct (viewer_normalize_box o Hdim)
      as (o' & mn' & mx' & Ho' & Hbox' & Hy & Hx & Hz).
    exists o', mn', mx'. split; [done|]. split; [done|].
    split; [done|]. split; [done|]. split; [done|].
    assert (0 < 4 / maxDim o) as Hk by (apply scale_pos; [lra|done]).
    unfold on_grid_and_centred. rewrite Hbox'. split.
    + intros (mn2 & mx2 & [= <- <-] & Hy2 & Hx2 & Hz2).
      rewrite Hy in Hy2. rewrite Hx in Hx2. rewrite Hz in Hz2.
      unfold v3_eq. cbn.
      repeat split; apply (Qmult_pos_zero _ _ Hk); lra.
    + intros (Px & Py & Pz). cbn in Px, Py, Pz.
      exists mn', mx'. split; [done|].
      rewrite Hy, Hx, Hz, Px, Py, Pz. repeat split; ring.
  - eexists _, _, _. split; [reflexivity|]. split; [reflexivity|].
    split; [reflexivity|].
    intros (mn2 & mx2 & [= <- <-] & Hy & _). vm_compute in Hy. discriminate Hy.
  - eexists _, _, _. split; [reflexivity|]. split; [reflexivity|].
    split; [reflexivity|].
    intros (mn2 & mx2 & [= <- <-] & Hy & _). vm_compute in Hy. discriminate Hy.
  - apply rigger_normalize_on_grid.
  - by repeat split.
Qed.

End NormalizationClaims.

(** ** The auto-rigger modal: markers, pointer events and reset *)

(** ** The workflow of the auto-rigger modal *)

Section StagingFacts.

Import Three AutoRigger.
Local Open Scope Q_scope.

Lemma handleMarkerClick_lookup markerId (ms : list RigMarker) i m :
  ms !! i = Some m ->
  handleMarkerClick markerId ms !! i
  = Some (if String.eqb (id m) markerId
          then {| id := id m; label := label m;
                  marker_position :=
                    {| vx := -2.5;
                       vy := 1.5 - inject_Z (findIndex markerId ms) * 0.3;
                       vz := 0 |};
                  placed := true |}
          else m).
Proof.
  intros Hm. unfold handleMarkerClick. by rewrite list_lookup_fmap, Hm.
Qed.

Lemma handleMarkerClick_ids markerId (ms : list RigMarker) :
  id <$> handleMarkerClick markerId ms = id <$> ms.
Proof.
  unfold handleMarkerClick. rewrite <- list_fmap_compose.
  apply list_fmap_ext. intros i m _. cbn. by destruct (String.eqb (id m) markerId).
Qed.

(** [findIndex] yields the place of the first marker that carries the id. *)
Lemma findIndex_first markerId (ms : list RigMarker) i m :
  ms !! i = Some m -> id m = markerId ->
  exists k mk, findIndex markerId ms = Z.of_nat k /\ (k <= i)%nat /\
    ms !! k = Some mk /\ id mk = markerId /\
    forall j mj, (j < k)%nat -> ms !! j = Some mj -> id mj <> markerId.
Proof.
  revert i. induction ms as [|m0 ms IH]; intros i Hm Hid; [done|].
  cbn. destruct (String.eqb (id m0) markerId) eqn:E.
  - apply String.eqb_eq in E. exists 0%nat, m0. repeat split; try done; try lia.
  - apply String.eqb_neq in E. destruct i as [|i]; [cbn in Hm; congruence|].
    destruct (IH i Hm Hid) as (k & mk & Hk & Hle & Hmk & Hidk & Hfirst).
    exists (S k), mk. rewrite Hk.
    split; [destruct (Z.of_nat k) eqn:Ek; lia|]. split; [lia|]. split; [done|]. split; [done|].
    intros [|j] mj Hj Hmj; [cbn in Hmj; congruence|].
    apply (Hfirst j); [lia|done].
Qed.

Lemma findIndex_NoDup markerId (ms : list RigMarker) i m :
  NoDup (id <$> ms) -> ms !! i = Some m -> id m = markerId ->
  findIndex markerId ms = Z.of_nat i.
Proof.
  intros Hnd Hm Hid.
  destruct (findIndex_first markerId ms i m Hm Hid) as (k & mk & -> & _ & Hmk & Hidk & _).
  f_equal. eapply NoDup_lookup; [exact Hnd| |].
  - by rewrite list_lookup_fmap, Hmk.
  - rewrite list_lookup_fmap, Hm. cbn. congruence.
Qed.

(** A run of clicks keeps every marker in its place, and places the markers
    whose id was clicked. *)
Lemma clicks_lookup (clicks : list string) (ms : list RigMarker) i m :
  ms !! i = Some m ->
  exists m', foldl (fun ms c => handleMarkerClick c ms) ms clicks !! i = Some m' /\
    id m' = id m /\
    (placed m = true \/ id m ∈ clicks -> placed m' = true).
Proof.
  revert ms m. induction clicks as [|c clicks IH]; intros ms m Hm.
  - exists m. split; [done|]. split; [done|]. intros [H|H]; [done|].
    by apply elem_of_nil in H.
  - cbn. pose proof (handleMarkerClick_lookup c ms i m Hm) as H1.
    destruct (IH _ _ H1) as (m' & Hm' & Hid & Hp).
    exists m'. split; [done|].
    destruct (String.eqb (id m) c) eqn:E.
    + split; [exact Hid|]. intros _. by apply Hp; left.
    + split; [exact Hid|]. intros [H|H].
      * apply Hp. by left.
      * apply Hp. right. apply elem_of_cons in H as [H|H]; [|done].
        apply String.eqb_neq in E. congruence.
Qed.

Lemma clicks_length (clicks : list string) (ms : list RigMarker) :
  length (foldl (fun ms c => handleMarkerClick c ms) ms clicks) = length ms.
Proof.
  revert ms. induction clicks as [|c clicks IH]; intros ms; [done|].
  cbn. rewrite IH. unfold handleMarkerClick. by rewrite length_fmap.
Qed.

End StagingFacts.

Section StagingClaims.

Import Three AutoRigger.
Local Open Scope Q_scope.

(** X3.  A click on a marker button places every marker that carries the
    id at the staging position (-2.5, 1.5 - 0.3 k, 0), where k is the place
    of the first marker with that id (the marker's own place when ids are
    unique); all other markers, and the ids and the order of the list,
    stay as they were, and an id that no marker carries changes nothing.
    Once every id in the list has been clicked, in whatever order and
    however often, all markers are placed. *)
Theorem marker_staging (ms : list RigMarker) (markerId : string) :
  let ms' := handleMarkerClick markerId ms in
  id <$> ms' = id <$> ms /\
  (forall i m, ms !! i = Some m -> id m <> markerId -> ms' !! i = Some m) /\
  (forall i m, ms !! i = Some m -> id m = markerId ->
     exists k, findIndex markerId ms = Z.of_nat k /\ (k <= i)%nat /\
       (NoDup (id <$> ms) -> k = i) /\
       ms' !! i
       = Some {| id := id m; label := label m;
                 marker_position :=
                   {| vx := -2.5; vy := 1.5 - inject_Z (Z.of_nat k) * 0.3; vz := 0 |};
                 placed := true |}) /\
  (markerId ∉ id <$> ms -> ms' = ms) /\
  (forall clicks,
     (forall m, m ∈ ms -> id m ∈ clicks) ->
     allMarkersPlaced (foldl (fun ms c => handleMarkerClick c ms) ms clicks) = true).
Proof.
  intros ms'. split; [apply handleMarkerClick_ids|].
  split; [|split; [|split]].
  - intros i m Hm Hne. unfold ms'. rewrite (handleMarkerClick_lookup _ _ _ _ Hm).
    by rewrite (proj2 (String.eqb_neq _ _) Hne).
  - intros i m Hm Hid.
    destruct (findIndex_first markerId ms i m Hm Hid) as (k & mk & Hk & Hle & _).
    exists k. split; [done|]. split; [done|]. split.
    + intros Hnd. pose proof (findIndex_NoDup markerId ms i m Hnd Hm Hid). lia.
    + unfold ms'. rewrite (handleMarkerClick_lookup _ _ _ _ Hm), Hk.
      by rewrite (proj2 (String.eqb_eq _ _) Hid).
  - intros Hnot. unfold ms', handleMarkerClick.
    rewrite <- (list_fmap_id ms) at 2. apply list_fmap_ext. intros i m Hm. cbn.
    destruct (String.eqb (id m) markerId) eqn:E; [|done].
    apply String.eqb_eq in E. exfalso. apply Hnot.
    apply list_elem_of_fmap. exists m. split; [done|]. by eapply list_elem_of_lookup_2.
  - intros clicks Hall. unfold allMarkersPlaced. apply forallb_forall.
    intros m' Hin. apply list_elem_of_In, list_elem_of_lookup in Hin as [i Hi].
    assert (is_Some (ms !! i)) as [m Hm].
    { apply lookup_lt_is_Some. rewrite <- (clicks_length clicks ms).
      by eapply lookup_lt_Some. }
    destruct (clicks_lookup clicks ms i m Hm) as (m'' & Hm'' & _ & Hp).
    rewrite Hi in Hm''. injection Hm'' as <-.
    apply Hp. right. apply Hall. by eapply list_elem_of_lookup_2.
Qed.

End StagingClaims.

Section ModalFacts.

Import Three AutoRigger RiggerModal.
Local Open Scope Q_scope.

Lemma shape_lookup ms ms' i k :
  shape ms = shape ms' -> ms !! i = Some k ->
  exists k', ms' !! i = Some k' /\ id k' = id k /\ label k' = label k /\
             placed k' = placed k.
Proof.
  intros Hs Hk.
  assert (shape ms' !! i = Some (id k, label k, placed k)) as H.
  { rewrite <- Hs. unfold shape. by rewrite list_lookup_fmap, Hk. }
  unfold shape in H. rewrite list_lookup_fmap in H.
  destruct (ms' !! i) as [k'|]; [|done]. cbn in H. injection H as H1 H2 H3.
  by exists k'.
Qed.

Lemma moveMarker_shape d p ms : shape (moveMarker d p ms) = shape ms.
Proof.
  unfold shape, moveMarker. rewrite <- list_fmap_compose.
  apply list_fmap_ext. intros i k _. cbn. by destruct (String.eqb (id k) d).
Qed.

Lemma moveMarker_other d p ms i k :
  ms !! i = Some k -> id k <> d -> moveMarker d p ms !! i = Some k.
Proof.
  intros Hk Hne. unfold moveMarker. rewrite list_lookup_fmap, Hk. cbn.
  by rewrite (proj2 (String.eqb_neq _ _) Hne).
Qed.

(** A key of [markerMeshesRef] is the id of a placed marker. *)
Lemma markerMeshes_placed ms x :
  x ∈ markerMeshes ms -> exists k, k ∈ ms /\ id k = x /\ placed k = true.
Proof.
  unfold markerMeshes.
  assert (forall keys,
            x ∈ foldl (fun keys marker =>
                         if placed marker
                         then if bool_decide (id marker ∈ keys) then keys
                              else keys ++ [id marker]
                         else keys) keys ms ->
            x ∈ keys \/ exists k, k ∈ ms /\ id k = x /\ placed k = true) as H.
  { induction ms as [|m ms IH]; intros keys Hx; [by left|].
    cbn in Hx. apply IH in Hx as [Hx|(k & Hk & Hid & Hp)].
    - destruct (placed m) eqn:Hp; [|by left].
      case_bool_decide; [by left|].
      apply elem_of_app in Hx as [Hx|Hx]; [by left|].
      apply list_elem_of_singleton in Hx. right. exists m.
      split; [left|done].
    - right. exists k. split; [by right|done]. }
  intros Hx. apply H in Hx as [Hx|Hx]; [by apply elem_of_nil in Hx|done].
Qed.

Lemma handleMouseMove_markers ev r :
  markers (handleMouseMove ev r) = markers r \/
  exists d p, draggedMarkerRef r = Some d /\
    markers (handleMouseMove ev r) = moveMarker d p (markers r).
Proof.
  unfold handleMouseMove.
  destruct (negb (cameraRef r) || negb (characterMeshRef r)); [by left|].
  destruct (draggedMarkerRef r) as [d|]; [|by left].
  destruct (newPosition ev (markers r) d) as [p|]; [|by left].
  right. by exists d, p.
Qed.

Lemma handleMouseMove_dragged ev r :
  draggedMarkerRef (handleMouseMove ev r) = draggedMarkerRef r.
Proof.
  unfold handleMouseMove.
  destruct (negb (cameraRef r) || negb (characterMeshRef r)); [done|].
  destruct (draggedMarkerRef r) as [d|] eqn:Hd; [|by cbn].
  destruct (newPosition ev (markers r) d); by cbn.
Qed.

Lemma pointerStep_invariant m0 m e :
  NoDup (id <$> markers (rigger m0)) ->
  drag_invariant m0 m -> drag_invariant m0 (pointerStep m e).
Proof.
  intros Hnd (Hstep & Hshape & Hdrag & Hkeep). unfold pointerStep.
  destruct (listening m); [|done].
  destruct e as [hits|ev|].
  - unfold handleMouseDown.
    destruct (negb (cameraRef (rigger m)) || negb (markersRef m)); [done|].
    destruct hits as [|i hits]; [done|].
    destruct (markerMeshes (markers (rigger m)) !! i) as [markerId|] eqn:Hi; [|done].
    split; [done|]. split; [done|]. split; [|done]. cbn.
    intros d [= <-].
    apply list_elem_of_lookup_2, markerMeshes_placed in Hi as (k & Hk & Hid & Hp).
    apply list_elem_of_lookup in Hk as [j Hj].
    destruct (shape_lookup _ _ _ _ Hshape Hj) as (k' & Hk' & Hid' & _ & Hp').
    exists k'. split; [by eapply list_elem_of_lookup_2|]. split; congruence.
  - split; [done|]. cbn. rewrite handleMouseMove_dragged.
    destruct (handleMouseMove_markers ev (rigger m)) as [->|(d & p & Hd & ->)]; [done|].
    rewrite moveMarker_shape. split; [done|]. split; [done|].
    intros i k Hk Hp. apply moveMarker_other; [by apply Hkeep|].
    intros <-. destruct (Hdrag _ Hd) as (k0 & Hk0 & Hid0 & Hp0).
    apply list_elem_of_lookup in Hk0 as [j Hj].
    assert (i = j) as ->.
    { eapply NoDup_lookup; [exact Hnd| |]; rewrite list_lookup_fmap.
      - by rewrite Hk.
      - rewrite Hj. cbn. congruence. }
    congruence.
  - split; [done|]. split; [done|]. split; [|done]. cbn. intros d [=].
Qed.

Lemma pointerRun_invariant m0 m es :
  NoDup (id <$> markers (rigger m0)) ->
  drag_invariant m0 m -> drag_invariant m0 (pointerRun m es).
Proof.
  intros Hnd. revert m. induction es as [|e es IH]; intros m Hm; [done|].
  cbn. apply IH. by apply pointerStep_invariant.
Qed.

(** Without a drag, or without listeners, a move changes no marker. *)
Lemma moves_without_drag m evs :
  listening m = false \/ draggedMarkerRef (rigger m) = None ->
  markers (rigger (pointerRun m (MouseMove <$> evs))) = markers (rigger m).
Proof.
  revert m. induction evs as [|ev evs IH]; intros m Hm; [done|].
  cbn. unfold pointerStep at 2.
  destruct (listening m) eqn:Hl.
  - destruct Hm as [Hm|Hm]; [done|]. rewrite IH.
    + cbn. destruct (handleMouseMove_markers ev (rigger m))
        as [->|(d & p & Hd & _)]; [done|congruence].
    + right. cbn. by rewrite handleMouseMove_dragged.
  - apply IH. by left.
Qed.

Lemma reset_unplaced (ms : list RigMarker) k :
  k ∈ (fun m => {| id := id m; label := label m;
                   marker_position := marker_position m;
                   placed := false |}) <$> ms ->
  placed k = false.
Proof. intros Hk. by apply list_elem_of_fmap in Hk as (m & -> & _). Qed.

End ModalFacts.

Section ModalClaims.

Import Three AutoRigger RiggerModal.
Local Open Scope Q_scope.

(** X4.  [handleReset] returns the modal to its first step: every marker
    is unplaced and keeps its id, label and position; the line segments of
    the skeleton are cleared; with a scene at hand the root bone leaves the
    scene and [bonesGroupRef] is emptied, everything else in the scene
    stays.  A synthesis right after the reset fails with the missing-root
    notice.  The materials are not touched while [isTranslucent] is set to
    false: after a reset of a translucent model every material is still at
    opacity 0.3, and the next click on the button leaves it there. *)
Theorem reset_returns_to_start (m : Modal) :
  let m' := handleReset m in
  let r := rigger m in
  let r' := rigger m' in
  currentStep m' = Upload /\
  bonesGenerated r' = false /\
  (fun k => (id k, label k, marker_position k)) <$> markers r'
  = (fun k => (id k, label k, marker_position k)) <$> markers r /\
  Forall (fun k => placed k = false) (markers r') /\
  (forall lines, skeletonRef r' = Some lines -> lines = []) /\
  (forall b scene, bonesGroupRef r = Some b -> sceneRef r = Some scene ->
     bonesGroupRef r' = None /\
     exists scene', sceneRef r' = Some scene' /\ (BoneRoot b ∉ scene') /\
       forall c, c <> BoneRoot b -> (c ∈ scene' <-> c ∈ scene)) /\
  createBoneHierarchy (markers r') = None /\
  (is_Some (skeletonRef r) -> is_Some (sceneRef r) ->
   handleGenerateBones r' = AutoRigger.toast missingRootToast r') /\
  materials m' = materials m /\
  isTranslucent m' = false /\
  (characterMeshRef r = true -> isTranslucent m = false ->
   let t := handleReset (handleToggleTranslucent m) in
   isTranslucent t = false /\
   Forall (fun mat => transparent mat = true /\ opacity mat = 0.3) (materials t) /\
   materials (handleToggleTranslucent t) = materials t).
Proof.
  intros m' r r'.
  assert (createBoneHierarchy (markers r') = None) as Hnone.
  { apply createBoneHierarchy_without_groin, Forall_forall.
    intros k Hk _. by apply reset_unplaced in Hk. }
  split; [done|]. split; [done|]. split.
  { cbn. rewrite <- list_fmap_compose. by apply list_fmap_ext. }
  split.
  { apply Forall_forall. intros k Hk. by apply reset_unplaced in Hk. }
  split.
  { cbn. intros lines. destruct (skeletonRef (rigger m)); cbn; congruence. }
  split.
  { intros b scene Hb Hs. cbn. fold r. rewrite Hb, Hs. cbn. split; [done|].
    eexists. split; [reflexivity|]. split.
    - intros Hin. by apply list_elem_of_filter in Hin as [Hne _].
    - intros c Hc. rewrite list_elem_of_filter. split; [by intros [_ ?]|done]. }
  split; [done|]. split.
  { intros [lines Hl] [scene Hs]. unfold handleGenerateBones.
    rewrite Hnone.
    assert (is_Some (skeletonRef r')) as [l' ->] by (cbn; fold r; by rewrite Hl).
    assert (is_Some (sceneRef r')) as [s' ->]; [|done].
    cbn. fold r. rewrite Hs. by destruct (bonesGroupRef r). }
  split; [done|]. split; [done|].
  intros Hmesh Htr t. unfold t, handleToggleTranslucent. fold r.
  rewrite Hmesh, Htr. cbn. rewrite Hmesh. cbn.
  split; [done|]. split.
  - apply Forall_forall. intros mat Hmat.
    by apply list_elem_of_fmap in Hmat as (? & -> & _).
  - rewrite <- list_fmap_compose. by apply list_fmap_ext.
Qed.

(** X5.  From a state without a drag, and with ids that are unique, no
    sequence of pointer events (button down, move, button up or leave)
    changes the id, the label or the placed flag of a marker, or the
    number or order of the markers; a marker that is not placed keeps its
    position, since only the mesh of a placed marker can be picked up; and
    once the button is up, further moves change no marker at all. *)
Theorem pointer_events_move_only_placed_markers (m : Modal) (es : list PointerEvent) :
  NoDup (id <$> markers (rigger m)) ->
  draggedMarkerRef (rigger m) = None ->
  let m' := pointerRun m es in
  (fun k => (id k, label k, placed k)) <$> markers (rigger m')
  = (fun k => (id k, label k, placed k)) <$> markers (rigger m) /\
  (forall i k, markers (rigger m) !! i = Some k -> placed k = false ->
     markers (rigger m') !! i = Some k) /\
  (forall d, draggedMarkerRef (rigger m') = Some d ->
     exists k, k ∈ markers (rigger m) /\ id k = d /\ placed k = true) /\
  (forall evs,
     markers (rigger (pointerRun m' (MouseUp :: (MouseMove <$> evs))))
     = markers (rigger m')).
Proof.
  intros Hnd Hnone m'.
  assert (drag_invariant m m) as Hinit.
  { split; [done|]. split; [done|]. split; [|done]. intros d. congruence. }
  destruct (pointerRun_invariant m m es Hnd Hinit) as (_ & Hshape & Hdrag & Hkeep).
  fold m' in Hshape, Hdrag, Hkeep.
  split; [exact Hshape|]. split; [exact Hkeep|]. split; [exact Hdrag|].
  intros evs. cbn. rewrite moves_without_drag.
  - unfold pointerStep. by destruct (listening m').
  - unfold pointerStep. destruct (listening m') eqn:Hl; [by right|by left].
Qed.

(** The chin marker is picked up, dragged over the model and let go. *)
Lemma pointer_events_move_only_placed_markers_witness :
  (fun k => (id k, label k, placed k)) <$>
    markers (rigger (pointerRun MoreSamples.markerStep
                       [MouseDown [0%nat]; MouseMove Samples.pointerOnModel; MouseUp]))
  = (fun k => (id k, label k, placed k)) <$> markers (rigger MoreSamples.markerStep).
Proof.
  refine (proj1 (pointer_events_move_only_placed_markers MoreSamples.markerStep
                   [MouseDown [0%nat]; MouseMove Samples.pointerOnModel; MouseUp]
                   _ eq_refl)).
  apply (bool_decide_unpack _). vm_compute. exact I.
Defined.

End ModalClaims.

Section VisualizationClaims.

Import Three AutoRigger RiggerLines.
Local Open Scope Q_scope.

(** X6.  With all 13 markers placed, the skeleton that "generate bones"
    draws joins the markers: there is one line for each (parent, child)
    pair of the table, drawn in the order of the traversal, and it runs
    from the position of the parent marker to the position of the child
    marker. *)
Theorem skeleton_lines_join_the_markers (ms : list RigMarker) :
  id <$> ms = MARKER_IDS ->
  allMarkersPlaced ms = true ->
  drawingOrder ≡ₚ hierarchy_pairs /\
  exists sk,
    createBoneHierarchy ms = Some sk /\
    Forall2 (fun '(from, to) '(parentId, childId) =>
               exists parentPos childPos,
                 getMarkerPosition ms parentId = Some parentPos /\
                 getMarkerPosition ms childId = Some childPos /\
                 v3_eq from parentPos /\ v3_eq to childPos)
            (skeletonLines sk) drawingOrder /\
    (forall s, markers s = ms -> is_Some (skeletonRef s) -> is_Some (sceneRef s) ->
       skeletonRef (handleGenerateBones s) = Some (skeletonLines sk)).
Proof.
  intros Hids Hplaced. split.
  { apply (bool_decide_unpack _). vm_compute. exact I. }
  assert (exists sk,
            createBoneHierarchy ms = Some sk /\
            Forall2 (fun '(from, to) '(parentId, childId) =>
                       exists parentPos childPos,
                         getMarkerPosition ms parentId = Some parentPos /\
                         getMarkerPosition ms childId = Some childPos /\
                         v3_eq from parentPos /\ v3_eq to childPos)
                    (skeletonLines sk) drawingOrder) as (sk & Hsk & Hlines).
  { thirteen ms Hids Hplaced.
    eexists. split; [lazy -[v3_sub]; reflexivity|].
    lazy -[v3_sub v3_add v3_eq].
    repeat (apply Forall2_cons; split;
            [do 2 eexists; split; [reflexivity|]; split; [reflexivity|];
             split; unfold v3_eq; cbn; repeat split; ring|]).
    constructor. }
  exists sk. split; [done|]. split; [done|].
  intros s Hm [l Hl] [scene Hs]. unfold handleGenerateBones.
  by rewrite Hl, Hs, Hm, Hsk.
Qed.

(** The markers at their staging positions. *)
Lemma skeleton_lines_join_the_markers_witness :
  drawingOrder ≡ₚ hierarchy_pairs.
Proof.
  exact (proj1 (skeleton_lines_join_the_markers Samples.stagedMarkers
                  eq_refl eq_refl)).
Defined.

End VisualizationClaims.

(** ** The auto-rigger modal: placeholder and translucency *)

Section PlaceholderClaims.

Import Three AutoRigger RiggerModal.
Local Open Scope Q_scope.

Lemma filter_Forall_id {A} (P : A -> Prop) `{!forall x, Decision (P x)} (l : list A) :
  Forall P l -> filter P l = l.
Proof.
  induction 1 as [|x l Hx Hl IH]; [done|].
  rewrite filter_cons_True by done. by rewrite IH.
Qed.

(** X7.  [loadPlaceholder] of the modal adds the capsule to the scene and
    then to a new group that it stores in [characterMeshRef]; the second
    [add] takes the capsule out of the scene, and the group is never added
    to it.  Afterwards the scene has the children it had before, the
    capsule is the only child of the group, and the group has no parent:
    nothing of the placeholder is in the scene. *)
Theorem placeholder_leaves_the_scene (a : Arena) (scene : nat) (so : Object3D) :
  a !! scene = Some so ->
  Forall (fun c => (c < length a)%nat) (children so) ->
  let characterMesh := length a in
  let a' := (loadPlaceholder scene a).1 in
  let group := (loadPlaceholder scene a).2 in
  group = S (length a) /\
  (exists so', a' !! scene = Some so' /\ children so' = children so /\
     (characterMesh ∉ children so') /\ (group ∉ children so')) /\
  (exists mesh, a' !! characterMesh = Some mesh /\ parent mesh = Some group /\
     position mesh = {| vx := 0; vy := -0.5; vz := 0 |}) /\
  (exists g, a' !! group = Some g /\ parent g = None /\
     children g = [characterMesh]) /\
  (forall i, (i < length a)%nat -> i <> scene -> a' !! i = a !! i).
Proof.
  intros Hs Hwf characterMesh a' group.
  assert (scene < length a)%nat as Hlt by (by eapply lookup_lt_Some).
  assert (filter (fun k => k <> length a) (children so) = children so) as Hfilter.
  { apply filter_Forall_id. eapply Forall_impl; [exact Hwf|]. cbn. intros c Hc. lia. }
  set (mesh0 := set_position {| vx := 0; vy := -0.5; vz := 0 |} new_Object3D).
  set (a1 := alter (fun o => set_children (children o ++ [length a]) o) scene
               (alter (set_parent (Some scene)) (length a) (a ++ [mesh0]))).
  assert (arena_add scene (length a) (a ++ [mesh0]) = a1) as Ha1.
  { unfold arena_add. rewrite decide_False by lia.
    by rewrite list_lookup_middle. }
  assert (length a1 = S (length a)) as Hlen1.
  { unfold a1. rewrite !length_alter, length_app. cbn. lia. }
  assert (a1 !! length a = Some (set_parent (Some scene) mesh0)) as Hmesh1.
  { unfold a1. rewrite list_lookup_alter_ne by lia.
    by rewrite list_lookup_alter_eq, list_lookup_middle. }
  assert (a1 !! scene = Some (set_children (children so ++ [length a]) so)) as Hscene1.
  { unfold a1. rewrite list_lookup_alter_eq, list_lookup_alter_ne by lia.
    by rewrite lookup_app_l, Hs. }
  unfold a', group, loadPlaceholder. cbv zeta. fold mesh0. rewrite Ha1.
  cbn [fst snd]. rewrite Hlen1.
  unfold arena_add. rewrite decide_False by lia.
  rewrite lookup_app_l by lia. rewrite Hmesh1. cbn.
  unfold arena_remove.
  split; [done|]. split; [|split; [|split]].
  - eexists. split.
    + rewrite list_lookup_alter_ne by lia. rewrite list_lookup_alter_ne by lia.
      rewrite list_lookup_alter_ne by lia. rewrite list_lookup_alter_eq.
      rewrite lookup_app_l by lia. rewrite Hscene1. reflexivity.
    + cbn. rewrite filter_app, Hfilter. cbn.
      rewrite decide_False by (intros H; by apply H). cbn. rewrite app_nil_r.
      split; [done|]. split; intros Hin.
      * eapply Forall_forall in Hwf; [|exact Hin]. cbn in Hwf. lia.
      * eapply Forall_forall in Hwf; [|exact Hin]. cbn in Hwf. lia.
  - eexists. split.
    + rewrite list_lookup_alter_ne by lia. rewrite list_lookup_alter_eq.
      rewrite list_lookup_alter_eq. rewrite list_lookup_alter_ne by lia.
      rewrite lookup_app_l by lia. rewrite Hmesh1. reflexivity.
    + done.
  - eexists. split.
    + rewrite list_lookup_alter_eq. rewrite list_lookup_alter_ne by lia.
      rewrite list_lookup_alter_ne by lia. rewrite list_lookup_alter_ne by lia.
      rewrite <- Hlen1. rewrite list_lookup_middle by done. reflexivity.
    + done.
  - intros i Hi Hne.
    rewrite list_lookup_alter_ne by lia. rewrite list_lookup_alter_ne by lia.
    rewrite list_lookup_alter_ne by lia. rewrite list_lookup_alter_ne by lia.
    rewrite lookup_app_l by lia. unfold a1.
    rewrite list_lookup_alter_ne by lia. rewrite list_lookup_alter_ne by lia.
    by rewrite lookup_app_l.
Qed.

(** The placeholder in a scene that is empty. *)
Lemma placeholder_leaves_the_scene_witness :
  (loadPlaceholder 0 MoreSamples.sceneOnly).2 = 2%nat.
Proof.
  exact (proj1 (placeholder_leaves_the_scene MoreSamples.sceneOnly 0 new_Object3D
                  eq_refl (Forall_nil_2 _))).
Defined.

(** X8.  Two clicks on the translucency button bring the flag back, but
    not the materials: whatever opacity and transparency a material had
    before, after the two clicks it is opaque (opacity 1, not transparent)
    when the model was not translucent, and at opacity 0.3 and transparent
    when it was.  Without a model the button does nothing. *)
Theorem translucency_forgets_opacity (m : Modal) :
  let m2 := handleToggleTranslucent (handleToggleTranslucent m) in
  (characterMeshRef (rigger m) = false -> m2 = m) /\
  (characterMeshRef (rigger m) = true ->
   isTranslucent (handleToggleTranslucent m) = negb (isTranslucent m) /\
   isTranslucent m2 = isTranslucent m /\
   length (materials m2) = length (materials m) /\
   Forall (fun mat => transparent mat = isTranslucent m /\
                      opacity mat = if isTranslucent m then 0.3 else 1.0)
          (materials m2)).
Proof.
  intros m2. unfold m2, handleToggleTranslucent. split; intros Hmesh.
  - rewrite Hmesh. cbn. by rewrite Hmesh.
  - rewrite Hmesh. cbn. rewrite Hmesh. cbn.
    split; [done|]. split; [by destruct (isTranslucent m)|].
    split; [by rewrite !length_fmap|].
    apply Forall_forall. intros mat Hmat.
    apply list_elem_of_fmap in Hmat as (? & -> & _). cbn.
    by destruct (isTranslucent m).
Qed.

End PlaceholderClaims.

(** ** The auto-rigger modal: model loads and skeleton removal *)

Section RiggerLoadFacts.

Import RiggerLoad.

Lemma loadPlaceholder_left_behind o scene s :
  Delivered o ∈ scene ->
  left_behind (Delivered o) (loadPlaceholder scene s).
Proof.
  intros Hin. split; [|done]. eexists. split; [reflexivity|].
  apply list_elem_of_filter. split; [done|]. apply elem_of_app. by left.
Qed.

(** No event but the delivery of the object itself changes that it is
    left behind. *)
Lemma step_left_behind o s e :
  e <> OnLoad o -> left_behind (Delivered o) s -> left_behind (Delivered o) (step s e).
Proof.
  intros He [(scene & Hs & Hin) Hcm]. destruct e as [url|o'|]; cbn.
  - unfold modelEffect. rewrite Hs. destruct url as [url|]; [|by split; [eexists|]].
    destruct (negb (isOpen s) || negb (Url.truthy url) || negb (rendererRef s));
      [by split; [eexists|]|].
    assert (Delivered o ∈ match characterMeshRef s with
                          | Some old => filter (fun c => c <> old) scene
                          | None => scene
                          end) as Hin'.
    { destruct (characterMeshRef s) as [old|]; [|done].
      apply list_elem_of_filter. split; [congruence|done]. }
    destruct (Url.loadable url).
    + split; [by eexists|done].
    + by apply loadPlaceholder_left_behind.
  - unfold onLoad. rewrite Hs. split.
    + eexists. split; [reflexivity|]. apply elem_of_app. by left.
    + cbn. congruence.
  - unfold onError. rewrite Hs. by apply loadPlaceholder_left_behind.
Qed.

Lemma run_left_behind o es : forall s,
  Forall (fun e => e <> OnLoad o) es ->
  left_behind (Delivered o) s -> left_behind (Delivered o) (run s es).
Proof.
  induction es as [|e es IH]; intros s Hes Hs; [done|].
  apply Forall_cons in Hes as [He Hes].
  change (run s (e :: es)) with (run (step s e) es).
  apply IH; [done|]. by apply step_left_behind.
Qed.

Lemma modelEffect_loadable url s scene :
  sceneRef s = Some scene -> isOpen s = true -> rendererRef s = true ->
  Url.truthy url = true -> Url.loadable url = true ->
  modelEffect (Some url) s
  = {| isOpen := isOpen s;
       sceneRef := Some match characterMeshRef s with
                        | Some old => filter (fun c => c <> old) scene
                        | None => scene
                        end;
       rendererRef := rendererRef s; characterMeshRef := None;
       placeholders := placeholders s |}.
Proof.
  intros Hs Ho Hr Ht Hl. unfold modelEffect. by rewrite Hs, Ho, Hr, Ht, Hl.
Qed.

End RiggerLoadFacts.

Section RiggerLoadClaims.

Import RiggerLoad.

(** X9.  The auto-rigger loads models without request ids.  When the
    url changes from A to B while A loads, and the object of B arrives
    before the object of A, both objects are in the scene and
    [characterMeshRef] names the object of A.  The object of B is then
    never taken out again by a later load, unless a loader delivers it a
    second time: every later effect removes only the object
    [characterMeshRef] names. *)
Theorem rigger_loads_are_not_fenced (s : Loader) (scene : list RigObject)
    (urlA urlB : string) (oA oB : nat) (later : list Event) :
  sceneRef s = Some scene -> isOpen s = true -> rendererRef s = true ->
  Url.truthy urlA = true -> Url.loadable urlA = true ->
  Url.truthy urlB = true -> Url.loadable urlB = true ->
  oA <> oB ->
  Forall (fun e => e <> OnLoad oB) later ->
  let s' := run s [ ModelEffect (Some urlA); ModelEffect (Some urlB);
                    OnLoad oB; OnLoad oA ] in
  characterMeshRef s' = Some (Delivered oA) /\
  (exists scene', sceneRef s' = Some (scene' ++ [Delivered oB; Delivered oA])) /\
  left_behind (Delivered oB) (run s' later).
Proof.
  intros Hs Ho Hr HtA HlA HtB HlB Hne Hlater s'.
  assert (characterMeshRef s' = Some (Delivered oA) /\
          exists scene', sceneRef s' = Some (scene' ++ [Delivered oB; Delivered oA]))
    as [Hcm [scene' Hscene]].
  { unfold s'. cbn [run foldl step].
    rewrite (modelEffect_loadable urlA s scene) by done.
    erewrite (modelEffect_loadable urlB) by done.
    cbn. split; [done|]. eexists. by rewrite <- app_assoc. }
  split; [done|]. split; [by exists scene'|].
  apply run_left_behind; [done|]. split.
  - exists (scene' ++ [Delivered oB; Delivered oA]). split; [done|].
    apply elem_of_app. right. apply elem_of_cons. by left.
  - rewrite Hcm. congruence.
Qed.

(** Model B is requested while model A loads; B arrives as object 7, then
    A as object 5; a third model is requested and fails. *)
Lemma rigger_loads_are_not_fenced_witness :
  left_behind (Delivered 7)
    (run (run MoreSamples.readyRigger
            [ ModelEffect (Some "a.fbx"); ModelEffect (Some "b.glb");
              OnLoad 7; OnLoad 5 ])
         [ ModelEffect (Some "c.obj"); OnError ]) /\
  sceneRef
    (run (run MoreSamples.readyRigger
            [ ModelEffect (Some "a.fbx"); ModelEffect (Some "b.glb");
              OnLoad 7; OnLoad 5 ])
         [ ModelEffect (Some "c.obj"); OnError ])
  = Some [Delivered 7].
Proof.
  split; [|reflexivity].
  refine (proj2 (proj2 (rigger_loads_are_not_fenced MoreSamples.readyRigger []
                          "a.fbx" "b.glb" 5 7 [ModelEffect (Some "c.obj"); OnError]
                          eq_refl eq_refl eq_refl eq_refl eq_refl eq_refl eq_refl
                          _ _))).
  - intros H. discriminate H.
  - repeat constructor; intros H; discriminate H.
Defined.

End RiggerLoadClaims.

Section RiggerSkeletonFacts.

Import Three AutoRigger RiggerModal RiggerSkeleton.

Lemma well_formed_spec (a : Arena) p o c :
  well_formed a = true -> a !! p = Some o -> c ∈ children o ->
  a !! c ≫= parent = Some p.
Proof.
  unfold well_formed. rewrite forallb_forall. intros H Hp Hc.
  specialize (H (p, o)). cbn in H.
  assert (In (p, o) (imap pair a)) as Hin.
  { apply list_elem_of_In, list_elem_of_lookup. exists p.
    by rewrite list_lookup_imap, Hp. }
  specialize (H Hin). rewrite forallb_forall in H.
  specialize (H c (proj1 (list_elem_of_In _ _) Hc)).
  by apply bool_decide_eq_true in H.
Qed.

Lemma pruned_refl l a : pruned l a a.
Proof. split; [done|]. intros i o Ho. exists o. by repeat split. Qed.

Lemma pruned_trans l1 l2 a a' a'' :
  pruned l1 a a' -> pruned l2 a' a'' -> pruned (l1 ++ l2) a a''.
Proof.
  intros [Hlen1 H1] [Hlen2 H2]. split; [congruence|].
  intros i o Ho.
  destruct (H1 i o Ho) as (o' & Ho' & Hn & Hb & Hp & Hq & Hpar & Hsub & Hkeep).
  destruct (H2 i o' Ho') as (o'' & Ho'' & Hn' & Hb' & Hp' & Hq' & Hpar' & Hsub' & Hkeep').
  exists o''. split; [done|].
  split; [congruence|]. split; [congruence|]. split; [congruence|].
  split; [congruence|]. split; [|split].
  - intros Hi. rewrite Hpar', Hpar; [done| |]; intros ?; apply Hi, elem_of_app; auto.
  - auto.
  - intros c Hc Hnot. apply Hkeep'; [apply Hkeep; [done|]|];
      intros ?; apply Hnot, elem_of_app; auto.
Qed.

Lemma removeBone_pruned a bone : pruned [bone] a (removeBone a bone).
Proof.
  unfold removeBone. destruct (a !! bone ≫= parent) as [p|] eqn:Hp;
    [|apply pruned_refl].
  unfold arena_remove. split; [by rewrite !length_alter|].
  intros i o Ho.
  destruct (decide (bone = i)) as [->|Hbi], (decide (p = i)) as [->|Hpi].
  - rewrite list_lookup_alter_eq, list_lookup_alter_eq, Ho. cbn.
    eexists. split; [reflexivity|]. cbn. repeat split; try done.
    + intros Hi. exfalso. apply Hi. by apply list_elem_of_singleton.
    + by intros c [_ Hc]%list_elem_of_filter.
    + intros c Hc Hnot. apply list_elem_of_filter. split; [|done].
      intros ->. apply Hnot. by apply list_elem_of_singleton.
  - rewrite list_lookup_alter_eq, list_lookup_alter_ne, Ho by done. cbn.
    eexists. split; [reflexivity|]. cbn. repeat split; try done.
    intros Hi. exfalso. apply Hi. by apply list_elem_of_singleton.
  - rewrite list_lookup_alter_ne, list_lookup_alter_eq, Ho by done. cbn.
    eexists. split; [reflexivity|]. cbn. repeat split; try done.
    + by intros c [_ Hc]%list_elem_of_filter.
    + intros c Hc Hnot. apply list_elem_of_filter. split; [|done].
      intros ->. apply Hnot. by apply list_elem_of_singleton.
  - rewrite !list_lookup_alter_ne, Ho by done. exists o. by repeat split.
Qed.

Lemma removeBones_pruned (l : list nat) : forall a, pruned l a (foldl removeBone a l).
Proof.
  induction l as [|b l IH]; intros a; [apply pruned_refl|].
  cbn [foldl]. change (b :: l) with ([b] ++ l).
  eapply pruned_trans; [apply removeBone_pruned|apply IH].
Qed.

(** A bone of the list is no longer among the children of the parent it
    had. *)
Lemma removeBone_detaches a bone p o' :
  a !! bone ≫= parent = Some p ->
  removeBone a bone !! p = Some o' -> bone ∉ children o'.
Proof.
  intros Hp. unfold removeBone. rewrite Hp. unfold arena_remove.
  destruct (decide (bone = p)) as [->|Hne].
  - rewrite list_lookup_alter_eq, list_lookup_alter_eq.
    destruct (a !! p) as [o|]; [|done]. cbn. intros [= <-]. cbn.
    by intros [? _]%list_elem_of_filter.
  - rewrite list_lookup_alter_ne, list_lookup_alter_eq by done.
    destruct (a !! p) as [o|]; [|done]. cbn. intros [= <-]. cbn.
    by intros [? _]%list_elem_of_filter.
Qed.

Lemma removeBones_detaches (l : list nat) a bone p o' :
  bone ∈ l -> a !! bone ≫= parent = Some p ->
  foldl removeBone a l !! p = Some o' -> bone ∉ children o'.
Proof.
  intros Hin Hp Ho'.
  apply list_elem_of_split_l in Hin as (l1 & l2 & -> & Hfirst).
  rewrite foldl_app in Ho'. cbn [foldl] in Ho'.
  set (a1 := foldl removeBone a l1) in *.
  set (a2 := removeBone a1 bone) in *.
  destruct (removeBones_pruned l1 a) as [_ H1]. fold a1 in H1.
  assert (a1 !! bone ≫= parent = Some p) as Hp1.
  { destruct (a !! bone) as [ob|] eqn:Hb; [|done]. cbn in Hp.
    destruct (H1 bone ob Hb) as (ob' & -> & _ & _ & _ & _ & Hpar & _).
    cbn. by rewrite Hpar. }
  destruct (removeBones_pruned l2 a2) as [Hlen2 H2].
  destruct (a2 !! p) as [o2|] eqn:Ho2.
  - destruct (H2 p o2 Ho2) as (o'' & Ho'' & _ & _ & _ & _ & _ & Hsub & _).
    rewrite Ho' in Ho''. injection Ho'' as <-.
    intros Hc%Hsub. by apply (removeBone_detaches a1 bone p o2 Hp1 Ho2).
  - apply lookup_ge_None in Ho2. apply lookup_lt_Some in Ho'. lia.
Qed.

Lemma traverse_pruned l a a' :
  pruned l a a' -> forall fuel r i, i ∈ traverse fuel a' r -> i ∈ traverse fuel a r.
Proof.
  intros [Hlen H] fuel. induction fuel as [|fuel IH]; intros r i; [done|].
  cbn [traverse]. rewrite !elem_of_cons. intros [->|Hin]; [by left|]. right.
  destruct (a' !! r) as [o'|] eqn:Ho'; [|by apply elem_of_nil in Hin].
  destruct (a !! r) as [o|] eqn:Ho.
  - destruct (H r o Ho) as (o2 & Ho2 & _ & _ & _ & _ & _ & Hsub & _).
    rewrite Ho' in Ho2. injection Ho2 as <-.
    apply list_elem_of_In, in_flat_map in Hin as (c & Hc & Hi).
    apply list_elem_of_In, in_flat_map. exists c. split.
    + by apply list_elem_of_In, Hsub, list_elem_of_In.
    + by apply list_elem_of_In, IH, list_elem_of_In.
  - apply lookup_ge_None in Ho. apply lookup_lt_Some in Ho'. lia.
Qed.

(** A node the traversal reaches, other than its start, is a child. *)
Lemma traverse_child a : forall fuel r i,
  i ∈ traverse fuel a r -> i = r \/ exists p o, a !! p = Some o /\ i ∈ children o.
Proof.
  induction fuel as [|fuel IH]; intros r i; [by intros ?%elem_of_nil|].
  cbn [traverse]. rewrite elem_of_cons. intros [->|Hin]; [by left|]. right.
  destruct (a !! r) as [o|] eqn:Ho; [|by apply elem_of_nil in Hin].
  apply list_elem_of_In, in_flat_map in Hin as (c & Hc & Hi).
  apply list_elem_of_In in Hc, Hi.
  destruct (IH c i Hi) as [->|H]; [|done]. by exists r, o.
Qed.

End RiggerSkeletonFacts.

Section RiggerSkeletonClaims.

Import Three AutoRigger RiggerModal RiggerSkeleton.

(** X10.  "Remove skeleton" in the auto-rigger takes every bone of the
    copy out of the children of its parent.  In the copy no bone is left
    below the model; a model that is itself a bone stays.  The nodes keep
    their names, bone flags and positions, no node gains a child and no
    node loses a child that is not a bone: what hung below a bone is no
    longer reached, everything else is.  The modal then shows the step
    "opacity" with the skeleton marked as removed, whether or not the model
    had a bone. *)
Theorem rigger_skeleton_removal (fuel model : nat) (a : Arena) :
  well_formed a = true ->
  let a' := removeBones fuel model a in
  length a' = length a /\
  (forall i o, a !! i = Some o ->
     exists o', a' !! i = Some o' /\
       name o' = name o /\ isBone o' = isBone o /\ position o' = position o /\
       (forall c, c ∈ children o' -> c ∈ children o) /\
       (forall c oc, c ∈ children o -> a !! c = Some oc -> isBone oc = false ->
          c ∈ children o')) /\
  (forall i o', i ∈ traverse fuel a' model -> a' !! i = Some o' ->
     isBone o' = true -> i = model) /\
  (forall m, characterMeshRef (rigger m) = true ->
     currentStep (handleRemoveSkeleton m) = Opacity /\
     hasSkeletonRemoved (handleRemoveSkeleton m) = true /\
     markers (rigger (handleRemoveSkeleton m)) = markers (rigger m) /\
     AutoRigger.toasts (rigger (handleRemoveSkeleton m))
     = AutoRigger.toasts (rigger m) ++ [skeletonRemovedToast]).
Proof.
  intros Hwf a'.
  set (bonesToRemove := filter (fun child => isBone <$> a !! child = Some true)
                               (traverse fuel a model)).
  assert (a' = foldl removeBone a bonesToRemove) as Ha' by done.
  pose proof (removeBones_pruned bonesToRemove a) as Hpr. rewrite <- Ha' in Hpr.
  split; [by destruct Hpr|]. split; [|split].
  - intros i o Ho. destruct Hpr as [_ H].
    destruct (H i o Ho) as (o' & Ho' & Hn & Hb & Hp & _ & _ & Hsub & Hkeep).
    exists o'. repeat split; try done.
    intros c oc Hc Hoc Hbone. apply Hkeep; [done|].
    intros [Hcb _]%list_elem_of_filter. rewrite Hoc in Hcb. cbn in Hcb. congruence.
  - intros i o' Hi Ho' Hbone.
    destruct (traverse_child a' fuel model i Hi) as [->|(p & op' & Hp' & Hc')];
      [done|exfalso].
    pose proof (traverse_pruned _ _ _ Hpr fuel model i Hi) as Hi0.
    destruct Hpr as [Hlen H].
    assert (is_Some (a !! i)) as [o Ho].
    { apply lookup_lt_is_Some. rewrite <- Hlen. by eapply lookup_lt_Some. }
    assert (is_Some (a !! p)) as [op Hp].
    { apply lookup_lt_is_Some. rewrite <- Hlen. by eapply lookup_lt_Some. }
    destruct (H i o Ho) as (o2 & Ho2 & _ & Hb & _).
    rewrite Ho' in Ho2. injection Ho2 as <-.
    destruct (H p op Hp) as (op2 & Hop2 & _ & _ & _ & _ & _ & Hsub & _).
    rewrite Hp' in Hop2. injection Hop2 as <-.
    assert (a !! i ≫= parent = Some p) as Hpar
      by (eapply well_formed_spec; [done|exact Hp|by apply Hsub]).
    assert (i ∈ bonesToRemove) as Hin.
    { apply list_elem_of_filter. split; [|done]. rewrite Ho. cbn. congruence. }
    rewrite Ha' in Hp'.
    by apply (removeBones_detaches bonesToRemove a i p op' Hin Hpar Hp').
  - intros m Hm. unfold handleRemoveSkeleton. rewrite Hm. done.
Qed.

(** The sample model: the bone goes, and with it the mesh below it. *)
Lemma rigger_skeleton_removal_witness :
  length (removeBones 4 0 MoreSamples.riggedArena) = 4%nat /\
  traverse 4 (removeBones 4 0 MoreSamples.riggedArena) 0 = [0; 2]%nat.
Proof.
  split; [|reflexivity].
  exact (proj1 (rigger_skeleton_removal 4 0 MoreSamples.riggedArena eq_refl)).
Defined.

End RiggerSkeletonClaims.

(** ** The viewer: speed, frames and clearing *)

Section ControlFacts.

Import Three Viewer ViewerPose ViewerControls.
Local Open Scope Q_scope.

(** The action an in-place toggle creates has the time scale of a new
    action. *)
Lemma inPlaceEffect_timeScale c clip p :
  loaded c clip p ->
  exists act', currentAction (inPlaceEffect p) = Some act' /\ timeScale act' = 1.
Proof.
  intros (Ho & Hc & m & a & act & Hm & Ha & Hact & Hp & Hr & Hlt & Hcache).
  assert (currentAction p = Some act) as Hcur
    by (unfold currentAction; by rewrite Ha).
  assert (forall k, delete (action_clip act) (actionsByClip m) !! k = None) as Hdel.
  { intros k. destruct (delete _ _ !! k) as [a'|] eqn:E; [|done].
    apply lookup_delete_Some in E as [Hne E]. apply Hcache in E. congruence. }
  assert (forall (l : list AnimationAction) x f,
            alter f (length l) (l ++ [x]) !! length l = Some (f x)) as Halter.
  { intros l x f. by rewrite list_lookup_alter_eq, list_lookup_middle. }
  unfold inPlaceEffect. rewrite Hm, Ho, Ha, Hcur. cbn.
  unfold uncacheClip. cbn. rewrite Hm. cbn.
  destruct (inPlace p) eqn:Hin; [destruct (rootBoneRef p) as [r|] eqn:Hroot|].
  - unfold createInPlaceClip. cbn. rewrite Hroot, Hc. cbn.
    rewrite Hdel. cbn. unfold currentAction. cbn. rewrite Halter.
    eexists. split; [reflexivity|]. by destruct (isAnimationPlaying p).
  - unfold createInPlaceClip. cbn. rewrite Hroot. cbn.
    rewrite Hdel. cbn. unfold currentAction. cbn. rewrite Halter.
    eexists. split; [reflexivity|]. by destruct (isAnimationPlaying p).
  - cbn. rewrite Hdel. cbn. unfold currentAction. cbn. rewrite Halter.
    eexists. split; [reflexivity|]. by destruct (isAnimationPlaying p).
Qed.

Lemma inPlaceEffect_animationSpeed p :
  animationSpeed (inPlaceEffect p) = animationSpeed p.
Proof.
  unfold inPlaceEffect, createInPlaceClip, clipAction, uncacheClip.
  repeat case_match; simplify_eq; cbn in *; repeat case_match; simplify_eq; done.
Qed.

Lemma timeScale_normal_only_at_50 speed :
  Sliders.timeScale speed == 1 -> speed == 50.
Proof.
  unfold Sliders.timeScale. destruct (Num.ltb speed 50) eqn:E.
  - apply ltb_true in E. intros H.
    assert (speed == speed / 50 * 50) as Hx by field.
    remember (speed / 50) as x. lra.
  - apply ltb_false in E. intros H.
    assert (speed - 50 == (speed - 50) / 50 * 50) as Hx by field.
    remember ((speed - 50) / 50) as x. lra.
Qed.

End ControlFacts.

Section ControlClaims.

Import Three Viewer ViewerPose ViewerControls.
Local Open Scope Q_scope.

(** X11.  The speed set with the slider does not outlast an in-place
    toggle.  After a clip has been loaded and any sequence of controls has
    passed, [handleSpeedChange] stores the mapped time scale on the current
    action; a toggle of "in place" that changes the mode then replaces the
    action by a new one whose time scale is 1, while [animationSpeed]
    still holds the slider's value: unless that value is 50, the animation
    no longer plays at the speed shown. *)
Theorem in_place_toggle_resets_speed (clip : AnimationClip)
    (rest : list AnimationClip) (p0 : Playback) (es : list Event)
    (speed : Q) (enabled : bool) :
  hasMixamoTracks clip = true ->
  let q := handleSpeedChange speed (run (onAnimationLoad (clip :: rest) p0) es) in
  inPlace q <> enabled ->
  (exists act, currentAction q = Some act /\
     timeScale act = Sliders.timeScale speed) /\
  let q' := handleInPlaceChange enabled q in
  animationSpeed q' = speed /\
  exists act', currentAction q' = Some act' /\ timeScale act' = 1 /\
    (~ speed == 50 -> ~ timeScale act' == Sliders.timeScale speed).
Proof.
  intros Hclip q Hne.
  set (c := length (clips p0)).
  assert (loaded c clip (run (onAnimationLoad (clip :: rest) p0) es)) as Hl0
    by (apply run_loaded; by apply onAnimationLoad_loaded).
  assert (loaded c clip q) as Hq by (apply (step_loaded c clip _ (SpeedChange speed) Hl0)).
  assert (animationSpeed q = speed) as Hspeed.
  { unfold q, handleSpeedChange. cbn. by destruct (animationActionRef _). }
  clearbody c. unfold q in *. clear q.
  generalize dependent (run (onAnimationLoad (clip :: rest) p0) es).
  intros p1 Hne Hl0 Hq Hspeed.
  split.
  - destruct Hl0 as (_ & _ & m & a & act & _ & Ha & Hact & _).
    unfold handleSpeedChange, currentAction. cbn. rewrite Ha. cbn. rewrite Ha. cbn.
    rewrite list_lookup_alter_eq, Hact. cbn. by eexists.
  - generalize dependent (handleSpeedChange speed p1). clear p1 Hl0.
    intros q Hne Hq Hspeed.
    unfold handleInPlaceChange. rewrite bool_decide_eq_false_2 by done.
    assert (loaded c clip (set_inPlace enabled q)) as Hl by exact Hq.
    destruct (inPlaceEffect_timeScale c clip _ Hl) as (act' & Hcur & Hts).
    split.
    + by rewrite inPlaceEffect_animationSpeed.
    + exists act'. split; [done|]. split; [done|].
      intros Hs Heq. apply Hs, timeScale_normal_only_at_50. by rewrite <- Heq, Hts.
Qed.

(** The sample clip in the idle viewer, the slider at 80, in-place on. *)
Lemma in_place_toggle_resets_speed_witness :
  animationSpeed
    (handleInPlaceChange true
       (handleSpeedChange 80
          (run (onAnimationLoad [Samples.walkClip] Samples.idlePlayback) [])))
  = 80.
Proof.
  exact (proj1 (proj2 (in_place_toggle_resets_speed Samples.walkClip []
                         Samples.idlePlayback [] 80 true eq_refl
                         (fun H => eq_ind false (fun b => if b then False else True)
                                     I true H)))).
Defined.

(** X12.  [handleFrameChange] stores the frame and the time frame/30 on the
    current action and touches nothing else of it; the frame the render
    loop computes from that time, the floor of time * 30, is the frame that
    was asked for.  Without a current action, or with a duration of 0, the
    call changes nothing; with an empty array it has no finite time to
    store.  On binary64 numbers the product (f / 30) * 30 can fall below f:
    it does at frame 123, not at frame 122. *)
Theorem frame_scrub_round_trip (p : Playback) (a : nat) (act : AnimationAction)
    (targetFrame : Z) (more : list Z) :
  animationActionRef p = Some a ->
  actions p !! a = Some act ->
  ~ animationDuration p == 0 ->
  (exists p',
     handleFrameChange (targetFrame :: more) p = Some p' /\
     currentFrame p' = targetFrame /\
     totalFrames p' = totalFrames p /\
     isAnimationPlaying p' = isAnimationPlaying p /\
     currentAction p' = Some (set_time (inject_Z targetFrame / 30) act) /\
     (is_Some (animationMixerRef p) -> isAnimationPlaying p = true ->
      currentFrame (updateCurrentFrame p') = targetFrame)) /\
  handleFrameChange [] p = None /\
  handleFrameChange (targetFrame :: more) (set_animationActionRef None p) =
    Some (set_animationActionRef None p) /\
  handleFrameChange (targetFrame :: more)
    (set_frames (currentFrame p) (totalFrames p) 0 p) =
    Some (set_frames (currentFrame p) (totalFrames p) 0 p) /\
  PrimFloat.eqb (frameProduct_f64 (targetTime_f64 122)) 122 = true /\
  PrimFloat.ltb (frameProduct_f64 (targetTime_f64 123)) 123 = true.
Proof.
  intros Ha Hact Hd.
  assert (Num.eqb (animationDuration p) 0 = false) as Hd'.
  { destruct (Num.eqb _ _) eqn:E; [|done]. by apply eqb_true in E. }
  split; [|split; [|split; [|split; [|split]]]].
  - unfold handleFrameChange. rewrite Ha, Hd'. cbn [head mbind option_bind].
    set (p' := set_frames targetFrame (totalFrames p) (animationDuration p)
                 (set_actions (alter (set_time (inject_Z targetFrame / 30)) a (actions p)) p)).
    exists p'. split; [reflexivity|].
    split; [done|]. split; [done|]. split; [done|].
    assert (currentAction p' = Some (set_time (inject_Z targetFrame / 30) act)) as Hcur.
    { unfold currentAction. cbn. rewrite Ha. cbn.
      by rewrite list_lookup_alter_eq, Hact. }
    split; [exact Hcur|].
    intros [m Hm] Hplay. unfold updateCurrentFrame.
    assert (animationMixerRef p' = Some m) as -> by exact Hm.
    assert (isAnimationPlaying p' = true) as -> by exact Hplay.
    rewrite bool_decide_eq_true_2 by (by eexists). cbn [andb].
    rewrite Hcur.
    change (Qfloor (inject_Z targetFrame / 30 * 30) = targetFrame).
    transitivity (Qfloor (inject_Z targetFrame)); [|apply Qfloor_Z].
    apply Qfloor_comp. field.
  - unfold handleFrameChange. by rewrite Ha, Hd'.
  - done.
  - unfold handleFrameChange. cbn. rewrite Ha. done.
  - reflexivity.
  - reflexivity.
Qed.

(** Frame 30 of the sample clip, scrubbed while it plays. *)
Lemma frame_scrub_round_trip_witness :
  handleFrameChange [] (onAnimationLoad [Samples.walkClip] Samples.idlePlayback) = None.
Proof.
  refine (proj1 (proj2 (frame_scrub_round_trip
                          (onAnimationLoad [Samples.walkClip] Samples.idlePlayback)
                          0%nat _ 30%Z [] eq_refl eq_refl _))).
  cbn. intros H. discriminate H.
Defined.

End ControlClaims.

Section ClearFacts.

Import Three Viewer ViewerPose ViewerControls.
Local Open Scope Q_scope.

Lemma captureNeutralPose_lookup (a : Arena) i :
  captureNeutralPose a !! i
  = o ← a !! i;
    if isBone o
    then Some {| neutral_position := position o; neutral_rotation := quaternion o |}
    else None.
Proof.
  unfold captureNeutralPose.
  induction a as [|x a IH] using rev_ind; [done|].
  rewrite imap_app, foldl_app. cbn. rewrite Nat.add_0_r.
  destruct (decide (i = length a)) as [->|Hne].
  - rewrite list_lookup_middle by done. cbn.
    destruct (isBone x); [by rewrite lookup_insert_eq|].
    rewrite IH. by rewrite lookup_ge_None_2.
  - assert ((a ++ [x]) !! i = a !! i) as ->.
    { destruct (decide (i < length a)%nat); [by rewrite lookup_app_l|].
      rewrite !lookup_ge_None_2; [done|lia|rewrite length_app; cbn; lia]. }
    destruct (isBone x); [|done]. by rewrite lookup_insert_ne.
Qed.

(** The pose captured from [a0] brings every pose of [a0] back to [a0]. *)
Lemma restore_captured (a0 a : Arena) :
  posed a0 a -> imap (restoreVisit (captureNeutralPose a0)) a = a0.
Proof.
  intros [Hlen Hposed]. apply list_eq. intros i.
  rewrite list_lookup_imap.
  destruct (a !! i) as [o|] eqn:Ho; cbn.
  - assert (is_Some (a0 !! i)) as [o0 Ho0].
    { apply lookup_lt_is_Some. rewrite <- Hlen. by eapply lookup_lt_Some. }
    destruct (Hposed i o0 o Ho0 Ho) as (Hn & Hb & Hp & Hc & Hsame).
    rewrite Ho0. f_equal. unfold restoreVisit. rewrite Hb.
    rewrite captureNeutralPose_lookup, Ho0. cbn.
    destruct (isBone o0) eqn:Hb0; [|by apply Hsame].
    destruct o, o0; cbn in *; by subst.
  - symmetry. apply lookup_ge_None_2. rewrite <- Hlen. by apply lookup_ge_None_1.
Qed.

(** Without a bone the pose has nothing to differ in. *)
Lemma posed_without_bones (a0 a : Arena) :
  posed a0 a -> size (captureNeutralPose a0) = 0%nat -> a = a0.
Proof.
  intros [Hlen Hposed] Hsize. apply map_size_empty_inv in Hsize.
  apply list_eq. intros i.
  destruct (a !! i) as [o|] eqn:Ho.
  - assert (is_Some (a0 !! i)) as [o0 Ho0].
    { apply lookup_lt_is_Some. rewrite <- Hlen. by eapply lookup_lt_Some. }
    destruct (Hposed i o0 o Ho0 Ho) as (_ & _ & _ & _ & Hsame).
    rewrite Ho0. f_equal. apply Hsame.
    pose proof (captureNeutralPose_lookup a0 i) as H.
    rewrite Hsize, lookup_empty, Ho0 in H. cbn in H.
    by destruct (isBone o0).
  - symmetry. apply lookup_ge_None_2. rewrite <- Hlen. by apply lookup_ge_None_1.
Qed.

Lemma stop_stop act : stop (stop act) = stop act.
Proof. done. Qed.

Lemma stop_all_lookup (l : list nat) (acts : list AnimationAction) a :
  foldr (fun a acts => alter stop a acts) acts l !! a
  = if bool_decide (a ∈ l) then stop <$> acts !! a else acts !! a.
Proof.
  induction l as [|b l IH]; [done|]. cbn.
  destruct (decide (a = b)) as [->|Hne].
  - rewrite list_lookup_alter_eq, IH.
    rewrite (bool_decide_eq_true_2 (b ∈ b :: l)) by left.
    case_bool_decide; [|done]. by destruct (acts !! b).
  - rewrite list_lookup_alter_ne by done. rewrite IH.
    case_bool_decide as H1; case_bool_decide as H2; try done.
    + exfalso. apply H2. by right.
    + apply elem_of_cons in H2 as [?|?]; done.
Qed.

Lemma stopAllAction_values m a :
  a ∈ (map_to_list (actionsByClip m)).*2 <-> exists k, actionsByClip m !! k = Some a.
Proof.
  rewrite list_elem_of_fmap. split.
  - intros ([k a'] & -> & Hin). exists k. by apply elem_of_map_to_list in Hin.
  - intros [k Hk]. exists (k, a). split; [done|]. by apply elem_of_map_to_list.
Qed.

Lemma stopAllAction_lookup m acts a k :
  actionsByClip m !! k = Some a ->
  stopAllAction m acts !! a = stop <$> acts !! a.
Proof.
  intros Hk. unfold stopAllAction. rewrite stop_all_lookup.
  rewrite bool_decide_eq_true_2; [done|]. apply stopAllAction_values. by exists k.
Qed.

Lemma stopAllAction_stopped m acts :
  (forall k a, actionsByClip m !! k = Some a ->
     forall act, acts !! a = Some act -> stop act = act) ->
  stopAllAction m acts = acts.
Proof.
  intros H. apply list_eq. intros a. unfold stopAllAction. rewrite stop_all_lookup.
  case_bool_decide as Hk; [|done]. apply stopAllAction_values in Hk as [k Hk].
  destruct (acts !! a) as [act|] eqn:Hact; [|done]. cbn. f_equal.
  by eapply H.
Qed.

(** A playback state that has been cleared is cleared to itself. *)
Lemma clearPlayback_fixed (p : Playback) :
  animationActionRef p = None -> originalAnimationClipRef p = None ->
  isAnimationPlaying p = false -> currentFrame p = 0%Z -> totalFrames p = 0%Z ->
  animationDuration p = 0 ->
  (forall m, animationMixerRef p = Some m -> stopAllAction m (actions p) = actions p) ->
  clearPlayback p = p.
Proof.
  destruct p as [cl acts mixer ar oc rb pl ip sp cf tf du ts]. cbn.
  intros -> -> -> -> -> -> H. unfold clearPlayback. cbn.
  destruct mixer as [m|]; [|done]. cbn. by rewrite (H m eq_refl).
Qed.

(** Without a current action and an original clip no control touches an
    action. *)
Lemma step_without_action p e :
  animationActionRef p = None -> originalAnimationClipRef p = None ->
  let q := step p e in
  animationActionRef q = None /\ originalAnimationClipRef q = None /\
  actions q = actions p /\ isAnimationPlaying q = isAnimationPlaying p /\
  animationMixerRef q = animationMixerRef p.
Proof.
  intros Ha Ho. destruct e as [enabled| |speed|t]; cbn.
  - unfold handleInPlaceChange. case_bool_decide; [done|].
    unfold inPlaceEffect. cbn. rewrite Ho. by destruct (animationMixerRef p) eqn:Hm.
  - unfold handleToggleAnimation. by rewrite Ha.
  - unfold handleSpeedChange. cbn. by rewrite Ha.
  - unfold frame. by rewrite Ha.
Qed.

Lemma run_without_action p es :
  animationActionRef p = None -> originalAnimationClipRef p = None ->
  let q := run p es in
  animationActionRef q = None /\ originalAnimationClipRef q = None /\
  actions q = actions p /\ isAnimationPlaying q = isAnimationPlaying p /\
  animationMixerRef q = animationMixerRef p.
Proof.
  revert p. induction es as [|e es IH]; intros p Ha Ho; [done|].
  destruct (step_without_action p e Ha Ho) as (Ha' & Ho' & Hacts & Hplay & Hm).
  destruct (IH _ Ha' Ho') as (? & ? & ? & ? & ?).
  change (run p (e :: es)) with (run (step p e) es). cbv zeta.
  repeat split; try done; congruence.
Qed.

End ClearFacts.

Section ClearClaims.

Import Three Viewer ViewerPose ViewerControls.
Local Open Scope Q_scope.

(** X13.  [handleClearAnimation] ends the playback and brings the model
    back to the pose it was loaded in.  Afterwards there is no current
    action and no original clip, the play state is off and the frame
    counters and the duration are 0; every action the mixer held is
    stopped, at time 0; the mixer itself stays.  When the neutral pose is
    the one captured from the loaded model, and the model has since changed
    only in the positions and rotations of its bones, the model is again
    exactly as loaded.  From then on play/pause, speed, in-place and frame
    controls touch no action, and the play state stays off, until another
    animation is loaded; and a second call changes nothing. *)
Theorem clear_animation_restores_the_loaded_pose (s : Stage) :
  let s' := handleClearAnimation s in
  let p := playback s in
  let p' := playback s' in
  (animationActionRef p' = None /\ originalAnimationClipRef p' = None /\
   isAnimationPlaying p' = false /\ currentFrame p' = 0%Z /\
   totalFrames p' = 0%Z /\ animationDuration p' = 0) /\
  (forall m k a act,
     animationMixerRef p = Some m -> actionsByClip m !! k = Some a ->
     actions p' !! a = Some act -> running act = false /\ time act = 0) /\
  (is_Some (animationMixerRef p) -> is_Some (animationMixerRef p')) /\
  (forall a0 a,
     meshRef s = Some a -> neutralPoseRef s = captureNeutralPose a0 ->
     posed a0 a -> meshRef s' = Some a0) /\
  (forall es,
     let q := run p' es in
     actions q = actions p' /\ currentAction q = None /\
     isAnimationPlaying q = false) /\
  (forall frameValues, handleFrameChange frameValues p' = Some p') /\
  handleClearAnimation s' = s'.
Proof.
  intros s' p p'.
  assert (animationActionRef p' = None /\ originalAnimationClipRef p' = None /\
          isAnimationPlaying p' = false) as (Ha & Ho & Hplay) by done.
  assert (forall m, animationMixerRef p = Some m ->
            actions p' = stopAllAction m (actions p)) as Hacts.
  { intros m Hm. unfold p', s'. cbn. unfold clearPlayback. fold p. rewrite Hm. cbn.
    destruct (originalAnimationClipRef p); [|done].
    unfold uncacheClip. cbn. by rewrite Hm. }
  assert (forall m k a act,
            animationMixerRef p = Some m -> actionsByClip m !! k = Some a ->
            actions p' !! a = Some act -> stop act = act) as Hstop.
  { intros m k a act Hm Hk Hact.
    rewrite (Hacts m Hm), (stopAllAction_lookup _ _ _ _ Hk) in Hact.
    destruct (actions p !! a); [|done]. cbn in Hact. by injection Hact as <-. }
  split; [done|]. split; [|split; [|split; [|split; [|split]]]].
  - intros m k a act Hm Hk Hact. rewrite <- (Hstop m k a act Hm Hk Hact). done.
  - intros [m Hm]. unfold p', s'. cbn. unfold clearPlayback. fold p. rewrite Hm. cbn.
    destruct (originalAnimationClipRef p); [|by eexists].
    unfold uncacheClip. cbn. rewrite Hm. by eexists.
  - intros a0 a Hmesh Hnp Hposed. unfold s'. cbn.
    rewrite Hmesh, Hnp. cbn. case_bool_decide as Hsize.
    + by rewrite restore_captured.
    + f_equal. apply posed_without_bones; [done|lia].
  - intros es q.
    destruct (run_without_action p' es Ha Ho) as (Ha' & _ & Hacts' & Hplay' & _).
    unfold q. split; [done|]. split; [|congruence].
    unfold currentAction. by rewrite Ha'.
  - intros frameValues. unfold handleFrameChange. by rewrite Ha.
  - unfold handleClearAnimation at 1. fold p'.
    assert (clearPlayback p' = p') as ->.
    { apply clearPlayback_fixed; try done.
      intros m' Hm'. apply stopAllAction_stopped. intros k a Hk act Hact.
      unfold p', s' in Hm'. cbn in Hm'. unfold clearPlayback in Hm'. fold p in Hm'.
      destruct (animationMixerRef p) as [m|] eqn:Hm; [|cbn in Hm'; congruence].
      apply (Hstop m k a act eq_refl); [|done].
      cbn in Hm'. destruct (originalAnimationClipRef p) as [c|].
      - unfold uncacheClip in Hm'. cbn in Hm'. rewrite Hm in Hm'. cbn in Hm'.
        injection Hm' as <-. cbn in Hk. by apply lookup_delete_Some in Hk as [_ Hk].
      - cbn in Hm'. assert (m = m') as -> by congruence. done. }
    assert (restorePose (neutralPoseRef s') (meshRef s') = meshRef s') as ->; [|done].
    unfold s'. cbn. unfold restorePose.
    destruct (meshRef s) as [a|]; [|done].
    case_bool_decide as Hsize; rewrite ?bool_decide_eq_true_2 by done;
      rewrite ?bool_decide_eq_false_2 by done; [|done].
    f_equal. apply list_eq. intros i. rewrite !list_lookup_imap.
    destruct (a !! i) as [o|]; [|done]. cbn. f_equal.
    unfold restoreVisit. destruct (isBone o) eqn:Hb; [|by rewrite Hb].
    destruct (neutralPoseRef s !! i); cbn; by rewrite Hb.
Qed.

End ClearClaims.

(** ** The viewer: the effect on the animation url *)

Section AnimationLoadFacts.

Import Three Viewer ViewerPose ViewerControls.
Local Open Scope Q_scope.

Lemma cleanPreviousAnimation_fields mesh p :
  let p' := cleanPreviousAnimation mesh p in
  animationActionRef p' = None /\
  originalAnimationClipRef p' = originalAnimationClipRef p /\
  isAnimationPlaying p' = isAnimationPlaying p /\
  inPlace p' = inPlace p /\
  clips p' = clips p /\
  toasts p' = toasts p /\
  totalFrames p' = totalFrames p /\
  currentFrame p' = currentFrame p /\
  (is_Some mesh -> animationMixerRef p' = None).
Proof.
  unfold cleanPreviousAnimation.
  destruct (animationActionRef p) eqn:Ha; cbn;
    destruct (animationMixerRef p) eqn:Hm; cbn;
    destruct mesh; cbn; rewrite ?Ha, ?Hm; repeat split; try done;
    by intros [? ?].
Qed.

Lemma cleanPreviousAnimation_action mesh p a act :
  animationActionRef p = Some a -> actions p !! a = Some act ->
  exists act', actions (cleanPreviousAnimation mesh p) !! a = Some act' /\
    running act' = false /\ time act' = 0 /\ paused act' = false /\
    action_clip act' = action_clip act.
Proof.
  intros Hcur Hact. unfold cleanPreviousAnimation. rewrite Hcur. cbn.
  assert (alter (fun act => reset (stop act)) a (actions p) !! a
          = Some (reset (stop act))) as H1
    by (by rewrite list_lookup_alter_eq, Hact).
  destruct (animationMixerRef p) as [m|]; [destruct mesh|]; cbn.
  - unfold stopAllAction. rewrite stop_all_lookup, H1.
    case_bool_decide; by eexists.
  - by eexists.
  - by eexists.
Qed.

(** What the effect does after the clean-up. *)
Lemma animationEffect_cases animationUrl s :
  let p := cleanPreviousAnimation (meshRef s) (playback s) in
  let s' := animationEffect animationUrl s in
  sceneRef s' = sceneRef s /\ meshRef s' = meshRef s /\
  ((exists url, animationUrl = Some url /\ Url.truthy url = true /\
      is_Some (meshRef s) /\ sceneRef s = true /\ animationLoadable url = true /\
      playback s' = p /\ requested s' = requested s ++ [url]) \/
   (exists url, animationUrl = Some url /\ Url.truthy url = true /\
      is_Some (meshRef s) /\ sceneRef s = true /\ animationLoadable url = false /\
      playback s' = Viewer.toast unsupportedFormatToast p /\
      requested s' = requested s) \/
   ((animationUrl = None \/ animationUrl = Some "" \/ meshRef s = None \/
     sceneRef s = false) /\
    playback s' = set_frames 0 0 0 p /\ requested s' = requested s)).
Proof.
  intros p s'. unfold s', animationEffect. fold p.
  destruct animationUrl as [url|]; [|by repeat split; right; right; split; [left|]].
  destruct (Url.truthy url) eqn:Ht; cbn [andb].
  - destruct (meshRef s) as [a|] eqn:Hmesh.
    + rewrite bool_decide_eq_true_2 by done. cbn [andb].
      destruct (sceneRef s) eqn:Hs.
      * destruct (animationLoadable url) eqn:Hl; (split; [done|]; split; [done|]).
        -- left. by exists url.
        -- right; left. by exists url.
      * repeat split; try done. right; right. split; [|done]. by right; right; right.
    + rewrite bool_decide_eq_false_2 by (by intros [? ?]). cbn.
      repeat split; try done. right; right. split; [|done]. by right; right; left.
  - repeat split; try done. right; right. split; [|done]. right; left.
    f_equal. unfold Url.truthy in Ht. apply negb_false_iff in Ht.
    by apply String.eqb_eq in Ht.
Qed.

End AnimationLoadFacts.

Section AnimationLoadClaims.

Import Three Viewer ViewerPose ViewerControls.
Local Open Scope Q_scope.

(** X14.  The effect on [animationUrl] first takes the previous animation
    down: no action is current afterwards, the action that was current is
    stopped and reset (time 0, not paused), and with a model at hand the
    mixer is dropped; the original clip and the play state are left as they
    were.  Then it dispatches: with a url, a model and a scene it starts a
    loader for .fbx, .gltf and .glb and answers every other extension with
    the notice "Formato no soportado", in both cases leaving the frame
    counters as they were; without a url, a model or a scene it sets the
    frame counters and the duration to 0 and starts nothing. *)
Theorem animation_effect_cleans_up_and_dispatches (animationUrl : option string)
    (s : Stage) :
  let s' := animationEffect animationUrl s in
  let p := playback s in
  let p' := playback s' in
  animationActionRef p' = None /\
  (forall a act, animationActionRef p = Some a -> actions p !! a = Some act ->
     exists act', actions p' !! a = Some act' /\ running act' = false /\
       time act' = 0 /\ paused act' = false /\ action_clip act' = action_clip act) /\
  (is_Some (meshRef s) -> animationMixerRef p' = None) /\
  originalAnimationClipRef p' = originalAnimationClipRef p /\
  isAnimationPlaying p' = isAnimationPlaying p /\
  meshRef s' = meshRef s /\
  (forall url, animationUrl = Some url -> Url.truthy url = true ->
     is_Some (meshRef s) -> sceneRef s = true ->
     totalFrames p' = totalFrames p /\ currentFrame p' = currentFrame p /\
     if animationLoadable url
     then requested s' = requested s ++ [url] /\ toasts p' = toasts p
     else requested s' = requested s /\
          toasts p' = toasts p ++ [unsupportedFormatToast]) /\
  (animationUrl = None \/ animationUrl = Some "" \/ meshRef s = None \/
   sceneRef s = false ->
   requested s' = requested s /\ toasts p' = toasts p /\
   currentFrame p' = 0%Z /\ totalFrames p' = 0%Z /\ animationDuration p' = 0).
Proof.
  intros s' p p'.
  destruct (cleanPreviousAnimation_fields (meshRef s) p)
    as (Ha & Ho & Hplay & _ & _ & Hto & Htf & Hcf & Hmix).
  destruct (animationEffect_cases animationUrl s) as (_ & Hmesh & Hcases).
  fold s' in Hmesh, Hcases. fold p in Hcases. fold p' in Hcases.
  assert (forall x, x = p' -> p' = x) as Hsym by (by intros x ->).
  destruct Hcases as [(url & -> & Ht & Hm & Hs & Hl & Hp & Hr)
                     |[(url & -> & Ht & Hm & Hs & Hl & Hp & Hr)
                      |(Hmiss & Hp & Hr)]]; rewrite Hp.
  - split; [done|]. split; [by apply cleanPreviousAnimation_action|].
    split; [done|]. split; [done|]. split; [done|]. split; [done|]. split.
    + intros url' [= <-] _ _ _. rewrite Hl. done.
    + intros [?|[[= ->]|[Hn|Hf]]]; [done|done| |congruence].
      rewrite Hn in Hm. by destruct Hm.
  - split; [done|]. split; [by apply cleanPreviousAnimation_action|].
    split; [done|]. split; [done|]. split; [done|]. split; [done|]. split.
    + intros url' [= <-] _ _ _. rewrite Hl. cbn. by rewrite Hto.
    + intros [?|[[= ->]|[Hn|Hf]]]; [done|done| |congruence].
      rewrite Hn in Hm. by destruct Hm.
  - split; [done|]. split; [by apply cleanPreviousAnimation_action|].
    split; [done|]. split; [done|]. split; [done|]. split; [done|]. split.
    + intros url -> Ht Hm Hs. exfalso.
      destruct Hmiss as [?|[[= ->]|[Hn|Hf]]]; [done|done| |congruence].
      rewrite Hn in Hm. by destruct Hm.
    + done.
Qed.

(** X15.  Animation loads carry no request id.  After the url has changed
    from A to B, the results are applied in the order of their arrival: if
    B's clip arrives first and A's afterwards, the viewer ends up playing
    A's clip as the original clip, with the notice of A, although B is the
    url requested last. *)
Theorem animation_results_are_not_fenced (s : Stage) (urlA urlB : string)
    (a b : AnimationClip) (restA restB : list AnimationClip) :
  hasMixamoTracks a = true ->
  hasMixamoTracks b = true ->
  Url.truthy urlA = true -> animationLoadable urlA = true ->
  Url.truthy urlB = true -> animationLoadable urlB = true ->
  is_Some (meshRef s) -> sceneRef s = true ->
  let s' := animationRun s [ AnimationEffect (Some urlA); AnimationEffect (Some urlB);
                             AnimationLoaded (b :: restB);
                             AnimationLoaded (a :: restA) ] in
  let p' := playback s' in
  requested s' = requested s ++ [urlA; urlB] /\
  last (toasts p') = Some (loadedToast (clip_name a)) /\
  isAnimationPlaying p' = true /\
  exists c act,
    originalAnimationClipRef p' = Some c /\
    clips p' !! c = Some a /\
    currentAction p' = Some act /\
    running act = true /\ paused act = false /\ time act = 0 /\
    (c <= action_clip act)%nat /\
    (inPlace (playback s) = false -> action_clip act = c).
Proof.
  intros Ha Hb HtA HlA HtB HlB Hmesh Hscene s' p'.
  set (s1 := animationEffect (Some urlA) s).
  set (s2 := animationEffect (Some urlB) s1).
  set (p3 := onAnimationLoad (b :: restB) (playback s2)).
  assert (s' = set_playback (onAnimationLoad (a :: restA) p3) (set_playback p3 s2))
    as Hs' by done.
  destruct (animationEffect_cases (Some urlA) s) as (Hscene1 & Hmesh1 & Hc1).
  fold s1 in Hscene1, Hmesh1, Hc1.
  destruct Hc1 as [(? & [= <-] & _ & _ & _ & _ & Hp1 & Hr1)
                  |[(? & [= <-] & _ & _ & _ & ? & _)|([?|[[= ->]|[Hn|Hf]]] & _)]];
    [|congruence|done|done|rewrite Hn in Hmesh; by destruct Hmesh|congruence].
  destruct (animationEffect_cases (Some urlB) s1) as (_ & _ & Hc2).
  fold s2 in Hc2. rewrite Hmesh1, Hscene1 in Hc2.
  destruct Hc2 as [(? & [= <-] & _ & _ & _ & _ & Hp2 & Hr2)
                  |[(? & [= <-] & _ & _ & _ & ? & _)|([?|[[= ->]|[Hn|Hf]]] & _)]];
    [|congruence|done|done|rewrite Hn in Hmesh; by destruct Hmesh|congruence].
  destruct (onAnimationLoad_accepted a restA p3 Ha)
    as (Ho & Hcl & Hact & (act & Hact' & Hrun & Hp & Ht & Hlt & _ & Hin)
        & Hplay & Hin' & _ & Hto).
  assert (inPlace p3 = inPlace (playback s)) as Hin3.
  { unfold p3.
    destruct (onAnimationLoad_accepted b restB (playback s2) Hb)
      as (_ & _ & _ & _ & _ & -> & _).
    rewrite Hp2.
    destruct (cleanPreviousAnimation_fields (meshRef s) (playback s1))
      as (_ & _ & _ & -> & _).
    rewrite Hp1.
    by destruct (cleanPreviousAnimation_fields (meshRef s) (playback s))
      as (_ & _ & _ & -> & _). }
  split.
  { rewrite Hs'. cbn [requested set_playback]. rewrite Hr2, Hr1.
    by rewrite <- app_assoc. }
  unfold p'. rewrite Hs'. cbn [playback set_playback].
  split; [by rewrite Hto, last_snoc|]. split; [done|].
  exists (length (clips p3)), act.
  split; [done|]. split; [done|]. split.
  { unfold currentAction. rewrite Hact. exact Hact'. }
  split; [done|]. split; [done|]. split; [done|]. split; [lia|].
  intros H0. apply Hin. congruence.
Qed.

(** The run clip is requested while the walk clip loads, and arrives
    first. *)
Lemma animation_results_are_not_fenced_witness :
  last (toasts (playback
          (animationRun MoreSamples.walkingStage
             [ AnimationEffect (Some "walk.fbx"); AnimationEffect (Some "run.fbx");
               AnimationLoaded [MoreSamples.runClip];
               AnimationLoaded [Samples.walkClip] ])))
  = Some (loadedToast "Walk").
Proof.
  exact (proj1 (proj2 (animation_results_are_not_fenced MoreSamples.walkingStage
                         "walk.fbx" "run.fbx" Samples.walkClip MoreSamples.runClip
                         [] [] eq_refl eq_refl eq_refl eq_refl eq_refl eq_refl
                         (ex_intro _ _ eq_refl) eq_refl))).
Defined.

End AnimationLoadClaims.

Section FailedLoadFacts.

Import Three Viewer ViewerPose ViewerControls.
Local Open Scope Q_scope.

Lemma cleanPreviousAnimation_duration mesh p :
  animationDuration (cleanPreviousAnimation mesh p) = animationDuration p.
Proof.
  unfold cleanPreviousAnimation.
  destruct (animationActionRef p) eqn:Ha; cbn;
    destruct (animationMixerRef p) eqn:Hm; cbn;
    destruct mesh; cbn; by rewrite ?Ha, ?Hm.
Qed.

(** What a load that ends without an animation changes: the notices, and
    the mixer. *)
Lemma failedOutcome_step (s : Stage) (outcome : AnimationEvent) :
  failedOutcome outcome = true ->
  let p := playback s in
  let p' := playback (animationStep s outcome) in
  animationActionRef p' = animationActionRef p /\
  actions p' = actions p /\
  currentFrame p' = currentFrame p /\ totalFrames p' = totalFrames p /\
  animationDuration p' = animationDuration p /\
  isAnimationPlaying p' = isAnimationPlaying p /\
  originalAnimationClipRef p' = originalAnimationClipRef p /\
  exists t, toasts p' = toasts p ++ [t] /\ destructive t = true.
Proof.
  intros Hf. destruct outcome as [url|[|clip rest]|]; cbn in Hf; try done.
  - cbn. repeat split; try done. by eexists.
  - cbn. rewrite Hf. cbn. repeat split; try done. by eexists.
  - cbn. repeat split; try done. by eexists.
Qed.

End FailedLoadFacts.

Section FailedLoadClaims.

Import Three Viewer ViewerPose ViewerControls.
Local Open Scope Q_scope.

(** X16.  When the url changes to an animation that then fails to load,
    holds no animation or is not for the rig, the viewer is left without a
    current action but with the frame counters, the duration, the play
    state and the original clip of the animation before: it shows one more
    notice, an error, and play/pause, the speed slider and the frame slider
    have no action to act on. *)
Theorem failed_load_keeps_the_old_counters (s : Stage) (url : string)
    (outcome : AnimationEvent) :
  Url.truthy url = true -> animationLoadable url = true ->
  is_Some (meshRef s) -> sceneRef s = true ->
  failedOutcome outcome = true ->
  let s' := animationRun s [AnimationEffect (Some url); outcome] in
  let p := playback s in
  let p' := playback s' in
  animationActionRef p' = None /\
  currentFrame p' = currentFrame p /\ totalFrames p' = totalFrames p /\
  animationDuration p' = animationDuration p /\
  isAnimationPlaying p' = isAnimationPlaying p /\
  originalAnimationClipRef p' = originalAnimationClipRef p /\
  (exists t, toasts p' = toasts p ++ [t] /\ destructive t = true) /\
  handleToggleAnimation p' = p' /\
  (forall speed, actions (handleSpeedChange speed p') = actions p') /\
  (forall frameValues, handleFrameChange frameValues p' = Some p').
Proof.
  intros Ht Hl Hmesh Hscene Hf s' p p'.
  set (s1 := animationEffect (Some url) s).
  destruct (animationEffect_cases (Some url) s) as (_ & _ & Hc).
  fold s1 in Hc.
  destruct Hc as [(? & [= <-] & _ & _ & _ & _ & Hp1 & _)
                 |[(? & [= <-] & _ & _ & _ & ? & _)|([?|[[= ->]|[Hn|Hn]]] & _)]];
    [|congruence|done|done|rewrite Hn in Hmesh; by destruct Hmesh|congruence].
  destruct (cleanPreviousAnimation_fields (meshRef s) p)
    as (Ha & Ho & Hplay & _ & _ & Hto & Htf & Hcf & _).
  pose proof (cleanPreviousAnimation_duration (meshRef s) p) as Hd.
  destruct (failedOutcome_step s1 outcome Hf)
    as (Ha' & _ & Hcf' & Htf' & Hd' & Hplay' & Ho' & t & Hto' & Ht').
  change (playback (animationStep s1 outcome)) with p' in *.
  rewrite Hp1 in *. fold p in Ha', Hcf', Htf', Hd', Hplay', Ho', Hto'.
  assert (animationActionRef p' = None) as Hnone by congruence.
  split; [done|]. split; [congruence|]. split; [congruence|].
  split; [congruence|]. split; [congruence|]. split; [congruence|].
  split; [exists t; split; [congruence|done]|].
  split; [unfold handleToggleAnimation; by rewrite Hnone|].
  split; [intros speed; unfold handleSpeedChange; cbn; by rewrite Hnone|].
  intros fv. unfold handleFrameChange. by rewrite Hnone.
Qed.

(** A clip for another skeleton arrives while the sample clip plays. *)
Lemma failed_load_keeps_the_old_counters_witness :
  totalFrames
    (playback
       (animationRun MoreSamples.walkingStage
          [AnimationEffect (Some "dance.fbx");
           AnimationLoaded [Samples.foreignClip]]))
  = 60%Z.
Proof.
  exact (eq_trans
           (proj1 (proj2 (proj2 (failed_load_keeps_the_old_counters
                                   MoreSamples.walkingStage "dance.fbx"
                                   (AnimationLoaded [Samples.foreignClip])
                                   eq_refl eq_refl (ex_intro _ _ eq_refl)
                                   eq_refl eq_refl))))
           eq_refl).
Defined.

End FailedLoadClaims.

(** ** The viewer: the arm-spacing control *)

Section ArmSpacingFacts.

Import Three Viewer ViewerPose ViewerControls.
Local Open Scope Q_scope.

Lemma armAngleDegrees_low x :
  x <= 50 -> armAngleDegrees x == Num.line_through 0 (-30) 50 0 x.
Proof.
  intros Hx. unfold armAngleDegrees, Num.line_through.
  destruct (Num.ltb x 50) eqn:E.
  - field.
  - apply ltb_false in E. assert (x == 50) as -> by lra. reflexivity.
Qed.

Lemma armAngleDegrees_high x :
  50 <= x -> armAngleDegrees x == Num.line_through 50 0 100 60 x.
Proof.
  intros Hx. unfold armAngleDegrees, Num.line_through.
  destruct (Num.ltb x 50) eqn:E.
  - apply ltb_true in E. lra.
  - field.
Qed.

Lemma armAngleDegrees_normal x : x == 50 -> armAngleDegrees x == 0.
Proof.
  intros Hx. rewrite armAngleDegrees_high by lra.
  unfold Num.line_through. rewrite Hx. reflexivity.
Qed.

(** The visit reads of the neutral pose only whether the bone has an
    entry. *)
Lemma armSpacingVisit_domain M d x (np np' : gmap nat NeutralData) i o :
  (is_Some (np !! i) <-> is_Some (np' !! i)) ->
  armSpacingVisit M d x np i o = armSpacingVisit M d x np' i o.
Proof.
  intros H. unfold armSpacingVisit.
  destruct (np !! i) as [n|] eqn:E, (np' !! i) as [n'|] eqn:E'; try done.
  - destruct (proj1 H (mk_is_Some _ _ eq_refl)) as [? [=]].
  - destruct (proj2 H (mk_is_Some _ _ eq_refl)) as [? [=]].
Qed.

Lemma size_pos_domain (np np' : gmap nat NeutralData) :
  (forall i, is_Some (np !! i) <-> is_Some (np' !! i)) ->
  bool_decide (0 < size np)%nat = bool_decide (0 < size np')%nat.
Proof.
  intros H.
  assert (forall m m' : gmap nat NeutralData,
            (forall i, is_Some (m !! i) -> is_Some (m' !! i)) ->
            (0 < size m)%nat -> (0 < size m')%nat) as Hmono.
  { intros m m' Hsub Hm.
    destruct (decide (m = ∅)) as [->|Hne]; [rewrite map_size_empty in Hm; lia|].
    apply map_choose in Hne as (i & v & Hv).
    destruct (Hsub i (mk_is_Some _ _ Hv)) as [v' Hv'].
    destruct (decide (m' = ∅)) as [->|Hne']; [by rewrite lookup_empty in Hv'|].
    apply map_size_non_empty_iff in Hne'. lia. }
  apply bool_decide_ext. split; apply Hmono; intros i; apply H.
Qed.

Lemma armSpacingVisit_frame M d x np i o :
  let o' := armSpacingVisit M d x np i o in
  name o' = name o /\ isBone o' = isBone o /\ position o' = position o /\
  parent o' = parent o /\ children o' = children o /\
  (isBone o = false \/ np !! i = None \/
   isArmBone (Url.toLowerCase (name o)) = false -> o' = o).
Proof.
  unfold armSpacingVisit.
  destruct (isBone o) eqn:Hb; [|by repeat split].
  destruct (np !! i) eqn:Hn; [|by repeat split].
  destruct (isArmBone _) eqn:Ha; [|by repeat split].
  repeat split; try done. by intros [?|[?|?]].
Qed.

Lemma armSpacingVisit_normal M d x np i o :
  (forall y, y == 0 -> Math_sin M y == 0 /\ Math_cos M y == 1) ->
  x == 50 ->
  q_eq (quaternion (armSpacingVisit M d x np i o)) (quaternion o).
Proof.
  intros HM Hx. pose proof (armAngleDegrees_normal x Hx) as Hangle.
  assert (forall q : Quaternion, q_eq q q) as Hrefl by (by repeat split).
  unfold armSpacingVisit.
  destruct (isBone o); [|done]. destruct (np !! i); [|done].
  destruct (isArmBone _); [|done].
  set (angle := if isLeftArm _ then _ else _).
  assert (angle / 2 == 0) as H0.
  { unfold angle. destruct (isLeftArm _); rewrite Hangle; field. }
  destruct (HM _ H0) as [Hs Hc].
  unfold q_eq, q_multiply, q_setFromAxisAngle. cbn.
  rewrite Hs, Hc. repeat split; ring.
Qed.

End ArmSpacingFacts.

Section ArmSpacingClaims.

Import Three Viewer ViewerPose ViewerControls.
Local Open Scope Q_scope.

(** X17.  The arm-spacing control: input 0 gives -30 degrees, input 50
    gives 0 and input 100 gives 60, with the straight line between two
    neighbouring breakpoints.  The block of the render loop keeps the
    number of nodes and, of every node, the name, the bone flag, the
    position, the parent and the children; a node that is not a bone, has
    no entry in the neutral pose or does not have the name of an upper arm
    is left exactly as it is.  Of the neutral pose the block reads only
    which bones have an entry, not the pose stored for them.  At the input
    50, with a sine of 0 and a cosine of 1 at 0, no rotation changes. *)
Theorem arm_spacing_turns_upper_arms_only (M : Math) (DEG2RAD armSpacing : Q)
    (neutralPose : gmap nat NeutralData) (a : Arena) :
  let a' := armSpacingBlock M DEG2RAD armSpacing neutralPose a in
  (armAngleDegrees 0 == -30 /\ armAngleDegrees 50 == 0 /\
   armAngleDegrees 100 == 60) /\
  (forall x, 0 <= x <= 50 -> armAngleDegrees x == Num.line_through 0 (-30) 50 0 x) /\
  (forall x, 50 <= x <= 100 -> armAngleDegrees x == Num.line_through 50 0 100 60 x) /\
  length a' = length a /\
  (forall i o, a !! i = Some o ->
     exists o', a' !! i = Some o' /\
       name o' = name o /\ isBone o' = isBone o /\ position o' = position o /\
       parent o' = parent o /\ children o' = children o /\
       (isBone o = false \/ neutralPose !! i = None \/
        isArmBone (Url.toLowerCase (name o)) = false -> o' = o)) /\
  (forall neutralPose' : gmap nat NeutralData,
     (forall i, is_Some (neutralPose !! i) <-> is_Some (neutralPose' !! i)) ->
     armSpacingBlock M DEG2RAD armSpacing neutralPose' a = a') /\
  ((forall y, y == 0 -> Math_sin M y == 0 /\ Math_cos M y == 1) ->
   armSpacing == 50 ->
   forall i o o', a !! i = Some o -> a' !! i = Some o' ->
     q_eq (quaternion o') (quaternion o)).
Proof.
  intros a'.
  split; [by repeat split|].
  split; [intros x [_ Hx]; by apply armAngleDegrees_low|].
  split; [intros x [Hx _]; by apply armAngleDegrees_high|].
  unfold a', armSpacingBlock.
  split; [|split; [|split]].
  - case_bool_decide; [by rewrite length_imap|done].
  - intros i o Ho. case_bool_decide as Hsize.
    + exists (armSpacingVisit M DEG2RAD armSpacing neutralPose i o).
      rewrite list_lookup_imap, Ho. split; [done|].
      apply armSpacingVisit_frame.
    + exists o. by repeat split.
  - intros np' Hdom. rewrite <- (size_pos_domain _ _ Hdom).
    case_bool_decide; [|done].
    apply list_eq. intros i. rewrite !list_lookup_imap.
    destruct (a !! i) as [o|]; [|done]. cbn.
    f_equal. symmetry. by apply armSpacingVisit_domain.
  - intros HM Hx i o o' Ho Ho'. case_bool_decide.
    + rewrite list_lookup_imap, Ho in Ho'. injection Ho' as <-.
      by apply armSpacingVisit_normal.
    + rewrite Ho in Ho'. injection Ho' as <-. by repeat split.
Qed.

End ArmSpacingClaims.

(** ** One model in the scene *)

Section LoaderProtocolFacts.

Import ViewerLoad LoaderProtocol.

Lemma Forall_filter_keep {A} (P Q : A -> Prop) `{!forall x, Decision (Q x)} l :
  Forall P l -> Forall P (filter Q l).
Proof.
  rewrite !Forall_forall. intros Hl x [_ Hx]%list_elem_of_filter. by apply Hl.
Qed.

Lemma loadPlaceholder_shows s :
  shows_only_mesh s -> meshRef s = None -> shows_only_mesh (loadPlaceholder s).
Proof.
  unfold shows_only_mesh, loadPlaceholder.
  destruct (sceneRef s) as [scene|] eqn:Hs; rewrite ?Hs; [|done].
  intros -> ->. done.
Qed.

Lemma protocol_step pending s e :
  protocol_invariant pending s ->
  match e with
  | ModelEffect modelUrl =>
      protocol_invariant (if startsLoader modelUrl s
                          then pending ++ [loadRequestIdRef (step s e)]
                          else pending) (step s e)
  | OnLoad r _ | OnError r =>
      r ∈ pending ->
      protocol_invariant (filter (fun r' => r' <> r) pending) (step s e)
  end.
Proof.
  intros (Hshow & Hle & Hcur). destruct e as [url|r o|r]; cbn.
  - unfold startsLoader, modelEffect.
    destruct (sceneRef s) as [scene|] eqn:Hs.
    2:{ rewrite bool_decide_eq_false_2 by (by intros [? ?]). done. }
    rewrite bool_decide_eq_true_2 by done. cbn [andb].
    destruct (hasWebGL s); cbn; [|done].
    destruct (isRendererReady s); cbn; [|done].
    assert (forall r, r ∈ pending -> r <> S (loadRequestIdRef s)) as Hfresh.
    { intros r Hr. rewrite Forall_forall in Hle. specialize (Hle r Hr). lia. }
    assert (Forall (fun r => r <= S (loadRequestIdRef s)) pending) as Hle'.
    { eapply Forall_impl; [exact Hle|]. intros r Hr. cbn in Hr. lia. }
    assert (forall m : SceneObject, filter (fun c => c <> m) [m] = []) as Hfilter.
    { intros m. cbn. rewrite decide_False; [done|]. by intros H; apply H. }
    unfold shows_only_mesh in Hshow. rewrite Hs in Hshow. subst scene.
    assert (forall next,
              sceneRef next = Some [] -> meshRef next = None ->
              loadRequestIdRef next = S (loadRequestIdRef s) ->
              protocol_invariant pending (loadPlaceholder next) /\
              protocol_invariant (pending ++ [loadRequestIdRef next]) next) as Hnext.
    { intros next H1 H2 H3. split.
      - split; [apply loadPlaceholder_shows; [|done];
                unfold shows_only_mesh; by rewrite H1, H2|].
        rewrite loadPlaceholder_requestId, H3. split; [done|].
        intros Hin. by apply Hfresh in Hin.
      - split; [unfold shows_only_mesh; by rewrite H1, H2|].
        rewrite H3. split; [|done].
        apply Forall_app. split; [done|]. by apply Forall_singleton. }
    destruct (meshRef s) as [m|] eqn:Hm; cbn [option_list];
      rewrite ?Hfilter;
      (destruct url as [url|];
       [destruct (Url.truthy url && Url.loadable url)|]);
      apply Hnext; cbn; by rewrite ?Hs, ?Hm.
  - intros Hin. unfold onLoad. case_bool_decide as Hr.
    + split; [exact Hshow|]. cbn. split.
      * by apply Forall_filter_keep.
      * intros [_ Hc]%list_elem_of_filter. by apply Hcur.
    + subst r. specialize (Hcur Hin).
      unfold shows_only_mesh in Hshow.
      destruct (sceneRef s) as [scene|] eqn:Hs.
      * rewrite Hcur in Hshow. subst scene. split.
        -- unfold shows_only_mesh. done.
        -- cbn. split; [by apply Forall_filter_keep|].
           intros [Hne _]%list_elem_of_filter. done.
      * split; [unfold shows_only_mesh; by rewrite Hs|].
        split; [by apply Forall_filter_keep|].
        intros [Hne _]%list_elem_of_filter. done.
  - intros Hin. unfold onError. case_bool_decide as Hr.
    + split; [exact Hshow|]. split.
      * by apply Forall_filter_keep.
      * intros [_ Hc]%list_elem_of_filter. by apply Hcur.
    + subst r. specialize (Hcur Hin).
      split.
      * assert (shows_only_mesh (loadPlaceholder s)) as H
          by (by apply loadPlaceholder_shows).
        exact H.
      * cbn. rewrite loadPlaceholder_requestId. split; [by apply Forall_filter_keep|].
        intros [Hne _]%list_elem_of_filter. done.
Qed.

Lemma protocol_run es : forall pending s,
  protocol_invariant pending s -> conforms pending s es = true ->
  shows_only_mesh (run s es).
Proof.
  induction es as [|e es IH]; intros pending s Hinv Hc; [by destruct Hinv|].
  pose proof (protocol_step pending s e Hinv) as Hstep.
  cbn in Hc. change (run s (e :: es)) with (run (step s e) es).
  destruct e as [url|r o|r].
  - by apply (IH _ _ Hstep).
  - apply andb_prop in Hc as [Hin%bool_decide_eq_true Hc].
    by apply (IH _ _ (Hstep Hin)).
  - apply andb_prop in Hc as [Hin%bool_decide_eq_true Hc].
    by apply (IH _ _ (Hstep Hin)).
Qed.

Lemma conforms_take es : forall pending s k,
  conforms pending s es = true -> conforms pending s (take k es) = true.
Proof.
  induction es as [|e es IH]; intros pending s [|k] Hc; try done.
  cbn in *. destruct e as [url|r o|r].
  - by apply IH.
  - apply andb_prop in Hc as [-> Hc]. cbn. by apply IH.
  - apply andb_prop in Hc as [-> Hc]. cbn. by apply IH.
Qed.

End LoaderProtocolFacts.

Section LoaderProtocolClaims.

Import ViewerLoad LoaderProtocol.

(** X18.  The viewer never shows two models.  From a state whose scene
    holds the current mesh only, and as long as the loaders answer only
    loads that were started, and each of them at most once (with [onLoad]
    or with [onError]), the scene holds exactly the object [meshRef] names,
    or nothing when there is none, after every event.  That a load is
    answered once only is needed: two objects delivered for the current
    request are both in the scene afterwards. *)
Theorem viewer_shows_one_model (s0 : Loader) (es : list Event) :
  shows_only_mesh s0 ->
  conforms [] s0 es = true ->
  (forall k, shows_only_mesh (run s0 (take k es))) /\
  (forall scene o o',
     sceneRef s0 = Some scene ->
     sceneRef (run s0 [OnLoad (loadRequestIdRef s0) o; OnLoad (loadRequestIdRef s0) o'])
     = Some (scene ++ [Loaded o; Loaded o'])).
Proof.
  intros Hshow Hc. split.
  - intros k. apply (protocol_run _ []).
    + split; [done|]. split; [done|]. by intros ?%elem_of_nil.
    + by apply conforms_take.
  - intros scene o o' Hs. cbn. unfold onLoad at 2.
    rewrite bool_decide_eq_false_2 by (by intros H; apply H). rewrite Hs.
    unfold onLoad. cbn. rewrite bool_decide_eq_false_2 by (by intros H; apply H).
    by rewrite <- app_assoc.
Qed.

(** Model A is requested and fails, model B is requested and arrives while
    a later request for an unknown format is shown as a placeholder. *)
Lemma viewer_shows_one_model_witness :
  shows_only_mesh
    (run Samples.readyViewer
       [ ModelEffect (Some "a.fbx"); OnError 1; ModelEffect (Some "b.glb");
         ModelEffect (Some "c.xyz"); OnLoad 2 7 ]) /\
  ViewerLoad.sceneRef
    (run Samples.readyViewer
       [ ModelEffect (Some "a.fbx"); OnError 1; ModelEffect (Some "b.glb");
         ModelEffect (Some "c.xyz"); OnLoad 2 7 ])
  = Some [Placeholder 1].
Proof.
  split; [|reflexivity].
  exact (proj1 (viewer_shows_one_model Samples.readyViewer
                  [ ModelEffect (Some "a.fbx"); OnError 1; ModelEffect (Some "b.glb");
                    ModelEffect (Some "c.xyz"); OnLoad 2 7 ]
                  eq_refl eq_refl) 5%nat).
Defined.

End LoaderProtocolClaims.

Section ReplacerSceneFacts.

Import Replacer ReplacerScene.

Lemma finally_viewport r s :
  cameraRef (finally r s) = cameraRef s /\ controlsRef (finally r s) = controlsRef s.
Proof. unfold finally. by case_bool_decide. Qed.

Lemma shows_only_finally r s : shows_only_mesh (finally r s) <-> shows_only_mesh s.
Proof.
  destruct (finally_fields r s) as (H1 & H2 & _). unfold shows_only_mesh.
  by rewrite H1, H2.
Qed.

Lemma replacer_step_shows s e :
  cameraRef s = true -> controlsRef s = true -> shows_only_mesh s ->
  cameraRef (step s e) = true /\ controlsRef (step s e) = true /\
  shows_only_mesh (step s e).
Proof.
  intros Hc Hk Hshow.
  assert (forall r obj,
            cameraRef (loadModel_resume r obj s) = true /\
            controlsRef (loadModel_resume r obj s) = true /\
            shows_only_mesh (loadModel_resume r obj s)) as Hresume.
  { intros r obj. unfold loadModel_resume.
    case_bool_decide;
      rewrite (proj1 (finally_viewport _ _)), (proj2 (finally_viewport _ _)),
        shows_only_finally.
    - by destruct obj.
    - unfold shows_only_mesh in *.
      destruct (sceneRef s) as [scene|] eqn:Hs; [|by rewrite ?Hs].
      destruct obj as [o|]; [|by rewrite Hs].
      rewrite Hc, Hk. cbn. split; [done|]. split; [done|].
      subst scene. destruct (characterMeshRef s) as [old|]; [|done]. cbn.
      rewrite decide_False; [done|]. by intros H'; apply H'. }
  destruct e as [url|r o|r]; cbn.
  - unfold modelEffect. destruct url as [url|]; [|done].
    destruct (sceneRef s) as [scene|] eqn:Hs; [|done].
    destruct (negb (isOpen s) || negb (Url.truthy url) || negb (isRendererReady s));
      [done|].
    destruct (loadable url).
    + unfold shows_only_mesh in *. cbn. by rewrite Hs in Hshow.
    + unfold loadModel_resume. cbn.
      rewrite bool_decide_eq_false_2 by (by intros H'; apply H').
      unfold finally. cbn. rewrite bool_decide_eq_true_2 by done.
      unfold shows_only_mesh in *. cbn. by rewrite Hs in Hshow.
  - apply Hresume.
  - unfold loadModel_catch.
    rewrite (proj1 (finally_viewport _ _)), (proj2 (finally_viewport _ _)),
      shows_only_finally.
    by destruct (_ && _).
Qed.

Lemma replacer_run_shows es : forall s,
  cameraRef s = true -> controlsRef s = true -> shows_only_mesh s ->
  shows_only_mesh (run s es).
Proof.
  induction es as [|e es IH]; intros s Hc Hk Hshow; [done|].
  destruct (replacer_step_shows s e Hc Hk Hshow) as (Hc' & Hk' & Hshow').
  change (run s (e :: es)) with (run (step s e) es). by apply IH.
Qed.

End ReplacerSceneFacts.

Section ReplacerSceneClaims.

Import Replacer ReplacerScene.

(** X19.  With a camera and controls, the skeleton replacer never shows
    two models, whatever the loaders deliver and however often: a model
    that arrives for the current request takes the place of the one shown
    before.  Until it arrives the model shown before stays in the scene.
    Without a camera or controls the arrival takes the model shown before
    out of the scene and puts nothing in its place, while
    [characterMeshRef] still names the model that was taken out. *)
Theorem replacer_shows_one_model (s0 : Loader) (es : list Event) :
  cameraRef s0 = true -> controlsRef s0 = true ->
  shows_only_mesh s0 ->
  shows_only_mesh (run s0 es) /\
  (forall url, sceneRef (modelEffect url s0) = sceneRef s0 /\
               characterMeshRef (modelEffect url s0) = characterMeshRef s0) /\
  (forall s scene old o,
     sceneRef s = Some scene -> characterMeshRef s = Some old ->
     cameraRef s && controlsRef s = false ->
     let s' := loadModel_resume (loadRequestIdRef s) (Some o) s in
     sceneRef s' = Some (filter (fun c => c <> old) scene) /\
     characterMeshRef s' = Some old).
Proof.
  intros Hc Hk Hshow. split; [by apply replacer_run_shows|]. split.
  - intros url. unfold modelEffect. destruct url as [url|]; [|done].
    destruct (sceneRef s0) as [scene|] eqn:Hs; [|done].
    destruct (negb (isOpen s0) || negb (Url.truthy url) || negb (isRendererReady s0));
      [done|].
    destruct (loadable url); [done|].
    unfold loadModel_resume. cbn.
    rewrite bool_decide_eq_false_2 by (by intros H'; apply H').
    unfold finally. cbn. by rewrite bool_decide_eq_true_2.
  - intros s scene old o Hs Hm Hcam s'. unfold s', loadModel_resume.
    rewrite bool_decide_eq_false_2 by (by intros H'; apply H').
    rewrite (proj1 (finally_fields _ _)), (proj1 (proj2 (finally_fields _ _))).
    by rewrite Hs, Hm, Hcam.
Qed.

(** Two models are requested in a row and both arrive, the first late. *)
Lemma replacer_shows_one_model_witness :
  shows_only_mesh
    (run MoreSamples.readyReplacer
       [ ModelEffect (Some "a.fbx"); ModelEffect (Some "b.glb");
         Resolved 1 5; Resolved 2 7; Resolved 2 8 ]) /\
  sceneRef
    (run MoreSamples.readyReplacer
       [ ModelEffect (Some "a.fbx"); ModelEffect (Some "b.glb");
         Resolved 1 5; Resolved 2 7; Resolved 2 8 ])
  = Some [Loaded 8].
Proof.
  split; [|reflexivity].
  exact (proj1 (replacer_shows_one_model MoreSamples.readyReplacer
                  [ ModelEffect (Some "a.fbx"); ModelEffect (Some "b.glb");
                    Resolved 1 5; Resolved 2 7; Resolved 2 8 ]
                  eq_refl eq_refl eq_refl)).
Defined.

End ReplacerSceneClaims.

(** ** The skeleton replacer: placement and skeleton removal *)

Section ReplacerModelFacts.

Import Three Geometry ReplacerModel.
Local Open Scope Q_scope.

Lemma place_translates (o : Model) mn mx :
  setFromObject o = Some (mn, mx) ->
  exists o' mn' mx',
    place o = Some o' /\
    setFromObject o' = Some (mn', mx') /\
    m_scale o' = m_scale o /\ m_points o' = m_points o /\
    v3_eq mn' (v3_add (v3_sub (m_position o') (m_position o)) mn) /\
    v3_eq mx' (v3_add (v3_sub (m_position o') (m_position o)) mx) /\
    m_position o'
    = {| vx := vx (m_position o) - vx (getCenter (Some (mn, mx)));
         vy := -2 - vy mn;
         vz := vz (m_position o) - vz (getCenter (Some (mn, mx))) |}.
Proof.
  intros Hbox. unfold place. rewrite Hbox. cbn [box_min fmap option_fmap option_map fst mbind option_bind].
  set (o' := {| m_position := _ |}).
  destruct (box_of_affine (m_points o) (localToWorld o) (localToWorld o')
              (v3_sub (m_position o') (m_position o)) 1 mn mx)
    as (mn' & mx' & Hbox' & Hmn & Hmx).
  - lra.
  - intros v. unfold v3_eq, localToWorld. cbn. repeat split; ring.
  - exact Hbox.
  - exists o', mn', mx'. split; [done|]. split; [exact Hbox'|].
    split; [done|]. split; [done|].
    destruct Hmn as (H1 & H2 & H3), Hmx as (H4 & H5 & H6).
    split; [|split; [|done]]; unfold v3_eq; cbn in *; repeat split; lra.
Qed.

Lemma elem_of_flat_map {A B} (f : A -> list B) (l : list A) (y : B) :
  y ∈ flat_map f l <-> exists x, x ∈ l /\ y ∈ f x.
Proof.
  rewrite list_elem_of_In, in_flat_map.
  split; intros (x & H1 & H2); exists x; by rewrite ?list_elem_of_In in *.
Qed.

Lemma traverse_unfold n : traverse n = n :: flat_map traverse (node_children n).
Proof. by destruct n. Qed.

Lemma analyze_fold (l : list Node) : forall info,
  let info' :=
    foldl (fun info child =>
             let info := if decide (kind child = KBone)
                         then {| hasSkeleton := hasSkeleton info;
                                 boneCount := S (boneCount info) |}
                         else info in
             match kind child with
             | KSkinnedMesh true =>
                 {| hasSkeleton := true; boneCount := boneCount info |}
             | _ => info
             end) info l in
  boneCount info' = (boneCount info + length (filter (fun c => kind c = KBone) l))%nat /\
  hasSkeleton info'
  = hasSkeleton info || existsb (fun c => bool_decide (kind c = KSkinnedMesh true)) l.
Proof.
  induction l as [|c l IH]; intros info; cbn.
  - split; [lia|by rewrite orb_false_r].
  - destruct (IH (let info0 := if decide (kind c = KBone)
                               then {| hasSkeleton := hasSkeleton info;
                                       boneCount := S (boneCount info) |}
                               else info in
                  match kind c with
                  | KSkinnedMesh true =>
                      {| hasSkeleton := true; boneCount := boneCount info0 |}
                  | _ => info0
                  end)) as [IH1 IH2].
    cbn zeta in IH1, IH2. rewrite IH1, IH2. clear IH1 IH2 IH.
    destruct (decide (kind c = KBone)) as [Hb|Hb];
      destruct (kind c) as [|[|]| | |] eqn:Hk; try done; cbn;
      rewrite ?orb_true_r, ?orb_false_r; split; try done; try lia.
Qed.

Lemma analyze_spec (n : Node) :
  boneCount (analyzeSkeletonInfo n)
  = length (filter (fun c => kind c = KBone) (traverse n)) /\
  hasSkeleton (analyzeSkeletonInfo n)
  = existsb (fun c => bool_decide (kind c = KSkinnedMesh true)) (traverse n).
Proof.
  destruct (analyze_fold (traverse n) {| hasSkeleton := false; boneCount := 0 |})
    as [H1 H2].
  split; [exact H1|exact H2].
Qed.

(** A node among the children of another brings all its bones along. *)
Lemma bones_of_child (g p : Node) :
  g ∈ node_children p ->
  (boneCount (analyzeSkeletonInfo g) <= boneCount (analyzeSkeletonInfo p))%nat.
Proof.
  intros Hin. rewrite !(proj1 (analyze_spec _)). rewrite (traverse_unfold p).
  apply list_elem_of_split in Hin as (l1 & l2 & ->).
  rewrite flat_map_app. cbn [flat_map].
  rewrite filter_cons, !filter_app.
  destruct (decide (kind p = KBone)); cbn [length]; rewrite !length_app; lia.
Qed.

Lemma flat_map_childless (l : list Node) :
  Forall (fun c => kind c = KMesh /\ node_children c = []) l ->
  flat_map traverse l = l.
Proof.
  induction 1 as [|c l [_ Hc] _ IH]; [done|].
  cbn [flat_map]. rewrite IH, traverse_unfold, Hc. done.
Qed.

Lemma visits_flat (l : list Node) :
  Forall (fun n => kind n <> KGroup /\ (kind n = KMesh -> node_children n = [])) l ->
  Forall (fun c => kind c = KMesh /\ node_children c = [])
         (flat_map (removeSkeletonVisit false) l) /\
  node_name <$> flat_map (removeSkeletonVisit false) l
  = node_name <$> filter (fun n => isMesh n = true) l.
Proof.
  induction 1 as [|n l [Hg Hm] _ [IH1 IH2]]; [done|].
  cbn [flat_map]. rewrite filter_cons. unfold removeSkeletonVisit at 1 3, isMesh.
  destruct (kind n) eqn:Hk; try done; cbn.
  - split; [by constructor|]. by rewrite IH2.
  - split; [constructor; [by auto|done]|]. by rewrite IH2.
Qed.

End ReplacerModelFacts.

Section ReplacerModelClaims.

Import Three Geometry ReplacerModel.
Local Open Scope Q_scope.

(** X20.  The skeleton replacer places a loaded model by a translation
    only: the scale and the size of the box stay as they were (a model is
    not fitted to the view as in the viewer), the box computed anew is
    centred at X = 0 and Z = 0, and its least Y is -2 minus the Y the root
    object had before, so that the model stands on the grid exactly when
    its root object had Y = 0.  A model without geometry has no finite
    position to be placed at. *)
Theorem replacer_places_by_translation (o : Model) (mn mx : Vector3) :
  setFromObject o = Some (mn, mx) ->
  (exists o' mn' mx',
     place o = Some o' /\
     setFromObject o' = Some (mn', mx') /\
     m_scale o' = m_scale o /\
     v3_eq (getSize (Some (mn', mx'))) (getSize (Some (mn, mx))) /\
     vx (getCenter (Some (mn', mx'))) == 0 /\
     vz (getCenter (Some (mn', mx'))) == 0 /\
     vy mn' == -2 - vy (m_position o) /\
     (on_grid_and_centred o' <-> vy (m_position o) == 0)) /\
  (forall e, setFromObject e = None -> place e = None).
Proof.
  intros Hbox. split.
  - destruct (place_translates o mn mx Hbox)
      as (o' & mn' & mx' & Hp & Hbox' & Hs & _ & (H1 & H2 & H3) & (H4 & H5 & H6) & Hpos).
    exists o', mn', mx'. rewrite Hpos in *. cbn in *.
    split; [done|]. split; [done|]. split; [done|].
    split; [unfold v3_eq; cbn; repeat split; lra|].
    split; [lra|]. split; [lra|]. split; [lra|].
    unfold on_grid_and_centred. rewrite Hbox'. split.
    + intros (mn2 & mx2 & [= <- <-] & Hy & _). lra.
    + intros Hy. exists mn', mx'. split; [done|]. cbn. repeat split; lra.
  - intros e He. unfold place. by rewrite He.
Qed.

(** The placeholder box, lifted by 0.9 as the viewer's placeholder is. *)
Lemma replacer_places_by_translation_witness :
  exists o' mn' mx',
    place MoreSamples.liftedBox = Some o' /\
    setFromObject o' = Some (mn', mx') /\
    vy mn' == -2.9.
Proof.
  destruct (proj1 (replacer_places_by_translation MoreSamples.liftedBox _ _ eq_refl))
    as (o' & mn' & mx' & Hp & Hbox & _ & _ & _ & _ & Hy & _).
  exists o', mn', mx'. split; [exact Hp|]. split; [exact Hbox|].
  exact Hy.
Defined.

(** X21.  "Remove skeleton" in the skeleton replacer builds a new group
    from what a traversal of the model finds.  For a model in which only
    the model itself is a group and no mesh has anything below it, the
    result holds one mesh without children for each mesh or skinned mesh,
    in the order of the traversal and under the same names, and the
    analysis of the result counts no bone and no skeleton.  A group below
    the model, and a mesh, is copied with all that is below it: the bones
    below it are in the result and are counted there. *)
Theorem skeleton_removal_keeps_what_groups_hold (model : Node) :
  let clean := handleRemoveSkeleton model in
  kind clean = KGroup /\
  ((forall i n, traverse model !! i = Some n ->
      (kind n = KGroup -> i = 0%nat) /\ (kind n = KMesh -> node_children n = [])) ->
   Forall (fun c => kind c = KMesh /\ node_children c = []) (node_children clean) /\
   node_name <$> node_children clean
   = node_name <$> filter (fun n => isMesh n = true) (traverse model) /\
   analyzeSkeletonInfo clean = {| hasSkeleton := false; boneCount := 0 |}) /\
  (forall i g, traverse model !! i = Some g ->
     (kind g = KGroup /\ i <> 0%nat) \/ kind g = KMesh ->
     g ∈ node_children clean /\
     (boneCount (analyzeSkeletonInfo g) <= boneCount (analyzeSkeletonInfo clean))%nat) /\
  (forall n skeleton, n ∈ traverse model -> kind n = KSkinnedMesh skeleton ->
     mkNode KMesh (node_name n) [] ∈ node_children clean).
Proof.
  intros clean. split; [done|].
  unfold clean, handleRemoveSkeleton. rewrite (traverse_unfold model).
  set (rest := flat_map traverse (node_children model)).
  cbn [node_children]. split; [|split].
  - intros H.
    assert (Forall (fun n => kind n <> KGroup /\
                             (kind n = KMesh -> node_children n = [])) rest) as Hrest.
    { apply Forall_lookup. intros j n Hn.
      destruct (H (S j) n Hn) as [H1 H2]. split; [|done].
      intros Hk. by specialize (H1 Hk). }
    destruct (visits_flat rest Hrest) as [Hf Hnames].
    destruct (H 0%nat model eq_refl) as [_ Hroot].
    assert (Forall (fun c => kind c = KMesh /\ node_children c = [])
                   (removeSkeletonVisit true model) /\
            node_name <$> removeSkeletonVisit true model
            = node_name <$> filter (fun n => isMesh n = true) [model]) as [Hf0 Hn0].
    { rewrite filter_cons. unfold removeSkeletonVisit, isMesh.
      destruct (kind model) eqn:Hk; try done; cbn.
      - split; [by constructor|done].
      - split; [constructor; [by auto|done]|done]. }
    assert (Forall (fun c => kind c = KMesh /\ node_children c = [])
                   (removeSkeletonVisit true model
                    ++ flat_map (removeSkeletonVisit false) rest)) as Hall
      by (by apply Forall_app).
    split; [exact Hall|]. split.
    + rewrite fmap_app, Hn0, Hnames, <- fmap_app.
      by rewrite <- filter_app.
    + set (cs := removeSkeletonVisit true model ++ _) in *.
      set (result := mkNode KGroup _ cs).
      destruct (analyze_spec result) as [Hb Hs].
      assert (traverse result = result :: cs) as Ht.
      { rewrite traverse_unfold. cbn [node_children result].
        by rewrite flat_map_childless. }
      assert (filter (fun c => kind c = KBone) (result :: cs) = []) as Hnb.
      { rewrite filter_cons, decide_False by done.
        clear -Hall. induction Hall as [|c l [Hk _] _ IH]; [done|].
        rewrite filter_cons, decide_False by congruence. done. }
      assert (existsb (fun c => bool_decide (kind c = KSkinnedMesh true))
                      (result :: cs) = false) as Hns.
      { cbn [existsb]. rewrite bool_decide_eq_false_2 by done. cbn [orb].
        clear -Hall. induction Hall as [|c l [Hk _] _ IH]; [done|].
        cbn. rewrite IH, bool_decide_eq_false_2 by congruence. done. }
      rewrite Ht, Hnb in Hb. rewrite Ht, Hns in Hs.
      destruct (analyzeSkeletonInfo result) as [hs bc]. cbn in Hb, Hs. by subst.
  - intros i g Hg Hk.
    assert (g ∈ removeSkeletonVisit true model
                ++ flat_map (removeSkeletonVisit false) rest) as Hin.
    { destruct i as [|j].
      - injection Hg as <-. apply elem_of_app. left.
        destruct Hk as [[_ ?]|Hk]; [done|].
        unfold removeSkeletonVisit. rewrite Hk. by apply list_elem_of_singleton.
      - apply elem_of_app. right. change (rest !! j = Some g) in Hg.
        apply list_elem_of_lookup_2 in Hg. apply elem_of_flat_map.
        exists g. split; [done|]. unfold removeSkeletonVisit.
        destruct Hk as [[Hk _]|Hk]; rewrite Hk; by apply list_elem_of_singleton. }
    split; [exact Hin|]. by apply bones_of_child.
  - intros n sk Hn Hk. apply elem_of_cons in Hn as [->|Hn].
    + apply elem_of_app. left. unfold removeSkeletonVisit. rewrite Hk.
      by apply list_elem_of_singleton.
    + apply elem_of_app. right. apply elem_of_flat_map.
      exists n. split; [done|]. unfold removeSkeletonVisit. rewrite Hk.
      by apply list_elem_of_singleton.
Qed.

(** The two bones of the sample character are still there after the
    removal. *)
Lemma skeleton_removal_keeps_what_groups_hold_witness :
  (2 <= boneCount (analyzeSkeletonInfo
                     (handleRemoveSkeleton MoreSamples.armatureModel)))%nat.
Proof.
  exact (proj2 (proj1 (proj2 (proj2 (skeleton_removal_keeps_what_groups_hold
                                       MoreSamples.armatureModel)))
                  1%nat _ eq_refl (or_introl (conj eq_refl (fun H => O_S _ (eq_sym H)))))).
Defined.

End ReplacerModelClaims.
